(** * vite-plugin-csp-dev: the nonce rewriting engine of [secureHeadersPlugin.js]

    A shallow embedding of [src/secureHeadersPlugin.js]: the policy
    assembler of [configureServer], the HTML rewriter of
    [transformIndexHtml], the bundle rewriter of [generateBundle], the
    [sharedNonce] state written by [configResolved], the alias hook [config]
    and the defaults of the options.

    JavaScript strings are sequences of UTF-16 code units; they are modelled
    as lists of code units ([N]).  The regular expressions of the source carry
    no [u] flag, so they too work code unit by code unit. *)

From Stdlib Require Import NArith Ascii String DecimalPos DecimalN.
From stdpp Require Import gmap strings list.

(** ** Strings *)

Module Js.

Definition jsstr : Type := list N.

Definition ch (a : ascii) : N := N_of_ascii a.

(** The code units of an ASCII literal of the source. *)
Fixpoint lit (s : string) : jsstr :=
  match s with
  | EmptyString => []
  | String a s' => ch a :: lit s'
  end.

Definition DQUOTE : N := 34.
Definition DOLLAR : N := 36.
Definition AMP : N := 38.
Definition APOS : N := 39.
Definition SLASH : N := 47.
Definition GT : N := 62.
Definition BACKTICK : N := 96.

(** [x.startsWith(p)] *)
Fixpoint starts_with (p s : jsstr) : bool :=
  match p, s with
  | [], _ => true
  | _ :: _, [] => false
  | a :: p', b :: s' => (a =? b)%N && starts_with p' s'
  end.

(** [x.endsWith(p)] *)
Definition ends_with (p s : jsstr) : bool :=
  starts_with (reverse p) (reverse s).

(** [x.includes(p)] *)
Fixpoint includes (p s : jsstr) : bool :=
  starts_with p s ||
  match s with
  | [] => false
  | _ :: s' => includes p s'
  end.

(** WhiteSpace and LineTerminator code units of ECMAScript: the class [\s]
    of a regular expression and the characters removed by [trim()]. *)
Definition is_space (c : N) : bool :=
  ((9 <=? c) && (c <=? 13) || (c =? 32) || (c =? 160) || (c =? 5760)
   || (8192 <=? c) && (c <=? 8202) || (c =? 8232) || (c =? 8233)
   || (c =? 8239) || (c =? 8287) || (c =? 12288) || (c =? 65279))%N.

Fixpoint trim_start (s : jsstr) : jsstr :=
  match s with
  | c :: s' => if is_space c then trim_start s' else s
  | [] => []
  end.

Definition trim_end (s : jsstr) : jsstr := reverse (trim_start (reverse s)).

(** [x.trim()] *)
Definition trim (s : jsstr) : jsstr := trim_end (trim_start s).

(** ECMAScript's GetSubstitution for a string pattern (no captures, no named
    groups): in the replacement template [$$] stands for a dollar sign, [$&]
    for the matched text, [$`] for the text before the match and [$'] for the
    text after it.  A dollar sign followed by anything else, digits and [<]
    included, stands for itself. *)
Fixpoint GetSubstitution (matched before after template : jsstr) : jsstr :=
  match template with
  | [] => []
  | c :: rest =>
      match rest with
      | [] => [c]
      | d :: rest' =>
          if (c =? DOLLAR)%N then
            if (d =? DOLLAR)%N then
              DOLLAR :: GetSubstitution matched before after rest'
            else if (d =? BACKTICK)%N then
              before ++ GetSubstitution matched before after rest'
            else if (d =? AMP)%N then
              matched ++ GetSubstitution matched before after rest'
            else if (d =? APOS)%N then
              after ++ GetSubstitution matched before after rest'
            else c :: GetSubstitution matched before after rest
          else c :: GetSubstitution matched before after rest
      end
  end.

(** *** Global replacement

    [scan] walks the text from left to right.  At every position that is not
    inside the previous match it asks [matcher] for a match anchored there;
    [matcher] answers with the captures and the length of the match.  The
    replacement is computed from the captures, the text before the match and
    the text from the match on; the walk resumes behind the match ([skip]
    counts the code units of the match that remain to be passed over).  An
    empty match leaves the code unit in place and moves on by one, as
    ECMAScript's AdvanceStringIndex does. *)
Section Scan.
Context {R : Type}.
Variable matcher : jsstr -> option (R * nat).
Variable replacement : R -> jsstr -> jsstr -> jsstr.

Fixpoint scan (before s : jsstr) (skip : nat) : jsstr :=
  match s with
  | [] =>
      match matcher [] with
      | Some (r, 0) => replacement r before []
      | _ => []
      end
  | c :: t =>
      match skip with
      | S k => scan (before ++ [c]) t k
      | 0 =>
          match matcher s with
          | Some (r, 0) => replacement r before s ++ c :: scan (before ++ [c]) t 0
          | Some (r, S k) => replacement r before s ++ scan (before ++ [c]) t k
          | None => c :: scan (before ++ [c]) t 0
          end
      end
  end.
End Scan.

(** A string pattern matches where the text starts with it. *)
Definition literal_matcher (search s : jsstr) : option (unit * nat) :=
  if starts_with search s then Some (tt, length search) else None.

Definition literal_replacement (search template : jsstr)
    (_ : unit) (before s : jsstr) : jsstr :=
  GetSubstitution search before (drop (length search) s) template.

(** [x.replaceAll(search, template)] with two strings. *)
Definition replaceAll (search template s : jsstr) : jsstr :=
  scan (literal_matcher search) (literal_replacement search template) [] s 0.

(** [x.replace(search, template)] with two strings: the first occurrence
    only. *)
Fixpoint replace_from (search template before s : jsstr) : jsstr :=
  if starts_with search s then
    GetSubstitution search before (drop (length search) s) template
      ++ drop (length search) s
  else
    match s with
    | [] => []
    | c :: t => c :: replace_from search template (before ++ [c]) t
    end.

Definition replace (search template s : jsstr) : jsstr :=
  replace_from search template [] s.

End Js.

(** ** The plugin *)

Module Plugin.
Import Js.

(** *** Pieces of text shared by the hooks *)

(** A blank, [nonce=] and the nonce between double quotes. *)
Definition nonce_attribute (nonce : jsstr) : jsstr :=
  lit " nonce=" ++ [DQUOTE] ++ nonce ++ [DQUOTE].

Definition script_token : jsstr := lit "<script".
Definition style_token : jsstr := lit "<style".
Definition link_token : jsstr := lit "<link".
Definition head_close : jsstr := lit "</head>".

(** [style=] and the opening double quote. *)
Definition style_attr_token : jsstr := lit "style=" ++ [DQUOTE].

(** The template of the first [replaceAll]: the token and the attribute. *)
Definition script_template (nonce : jsstr) : jsstr :=
  script_token ++ nonce_attribute nonce.

(** The template of the second [replaceAll]. *)
Definition style_template (nonce : jsstr) : jsstr :=
  style_token ++ nonce_attribute nonce.

(** The template of the last [replaceAll]: the token, [nonce=], the nonce
    between double quotes and a blank. *)
Definition style_attr_template (nonce : jsstr) : jsstr :=
  style_attr_token ++ lit "nonce=" ++ [DQUOTE] ++ nonce ++ [DQUOTE] ++ lit " ".

(** The template literal [injectNonceScript], cut at its four
    interpolations of the nonce between double quotes. *)
Definition shim_part0 : jsstr := lit "
        <script nonce=".

Definition shim_part1 : jsstr := lit ">
          (function() {
            const originalCreateElement = document.createElement;
            document.createElement = function() {
              const element = originalCreateElement.apply(document, arguments);
              if (arguments[0].toLowerCase() === 'style' || arguments[0].toLowerCase() === 'script') {
                element.nonce = ".

Definition shim_part2 : jsstr := lit ";
              }
              return element;
            };
            // Override insertBefore to add nonce to dynamically inserted style tags
            const originalInsertBefore = Element.prototype.insertBefore;
            Element.prototype.insertBefore = function(newNode, referenceNode) {
              if (newNode.tagName && newNode.tagName.toLowerCase() === 'style' && !newNode.nonce) {
                newNode.nonce = ".

Definition shim_part3 : jsstr := lit ";
              }
              return originalInsertBefore.call(this, newNode, referenceNode);
            };
            // Override appendChild to add nonce to dynamically inserted style tags
            const originalAppendChild = Element.prototype.appendChild;
            Element.prototype.appendChild = function(newNode) {
              if (newNode.tagName && newNode.tagName.toLowerCase() === 'style' && !newNode.nonce) {
                newNode.nonce = ".

Definition shim_part4 : jsstr := lit ";
              }
              return originalAppendChild.call(this, newNode);
            };
          })();
        </script>
      ".

Definition quoted (nonce : jsstr) : jsstr := [DQUOTE] ++ nonce ++ [DQUOTE].

Definition injectNonceScript (nonce : jsstr) : jsstr :=
  shim_part0 ++ quoted nonce ++ shim_part1 ++ quoted nonce
    ++ shim_part2 ++ quoted nonce ++ shim_part3 ++ quoted nonce ++ shim_part4.

(** *** The regular expressions *)

Fixpoint take_while (f : N -> bool) (s : jsstr) : jsstr :=
  match s with
  | c :: s' => if f c then c :: take_while f s' else []
  | [] => []
  end.

Fixpoint drop_while (f : N -> bool) (s : jsstr) : jsstr :=
  match s with
  | c :: s' => if f c then drop_while f s' else s
  | [] => []
  end.

Definition not_gt (c : N) : bool := negb (c =? GT)%N.

(** The expression [linkRegex] of [transformIndexHtml] (the token, [\s+], a
    capture of [[^>]*], then [>]) anchored at the head of [s]: the capture
    and the length of the match.  Both quantifiers are greedy: [\s+] takes the
    whole run of blanks and [[^>]*] everything up to the next [>].  Giving
    characters back cannot help (behind the run of [[^>]*] there is a [>] or
    the end of the text), so this is the only candidate. *)
Definition linkRegex (s : jsstr) : option (jsstr * nat) :=
  if starts_with link_token s then
    let s1 := drop (length link_token) s in
    let blanks := take_while is_space s1 in
    match blanks with
    | [] => None
    | _ :: _ =>
        let s2 := drop_while is_space s1 in
        let attributes := take_while not_gt s2 in
        match drop_while not_gt s2 with
        | _ :: _ =>
            Some (attributes,
                  length link_token + length blanks + length attributes + 1)
        | [] => None
        end
    end
  else None.

(** [/\s*\/\s*$/] anchored at the head of [s]: blanks, a slash, blanks and
    the end of the text. *)
Definition slash_tail (s : jsstr) : bool :=
  match drop_while is_space s with
  | c :: r => (c =? SLASH)%N && forallb is_space r
  | [] => false
  end.

(** [attributes.replace(/\s*\/\s*$/, '')]: the leftmost position where the
    expression matches; the match runs to the end of the text. *)
Fixpoint strip_self_closing (s : jsstr) : jsstr :=
  if slash_tail s then []
  else
    match s with
    | [] => []
    | c :: t => c :: strip_self_closing t
    end.

(** The callback given to [replace] with [linkRegex], in both hooks. *)
Definition link_callback (nonce attributes : jsstr) : jsstr :=
  let newAttributes := strip_self_closing attributes in
  let newAttributes :=
    if negb (includes (lit "nonce=") newAttributes)
    then newAttributes ++ nonce_attribute nonce
    else newAttributes in
  lit "<link " ++ trim newAttributes ++ [GT].

(** [x.replace(linkRegex, callback)] of [transformIndexHtml].  What a
    callback returns is inserted as it is: no [$] pattern is expanded. *)
Definition replace_links (nonce s : jsstr) : jsstr :=
  scan linkRegex (fun attributes _ _ => link_callback nonce attributes) [] s 0.

(** [(\/?\s*>)] anchored at the head of [s]: the length of the match.  The
    optional slash is tried first; without it a text that starts with a
    slash cannot match. *)
Definition blanks_gt (s : jsstr) : option nat :=
  match drop_while is_space s with
  | c :: _ => if (c =? GT)%N then Some (length (take_while is_space s) + 1) else None
  | [] => None
  end.

Definition link_close (s : jsstr) : option nat :=
  match s with
  | c :: r => if (c =? SLASH)%N then S <$> blanks_gt r else blanks_gt s
  | [] => None
  end.

(** [([^>]*?)(\/?\s*>)] anchored at the head of [s]: the lazy capture grows
    one code unit at a time until the closing group matches.  The result is
    the capture and the length of both groups. *)
Fixpoint lazy_attributes (s : jsstr) : option (jsstr * nat) :=
  match link_close s with
  | Some k => Some ([], k)
  | None =>
      match s with
      | c :: t =>
          if not_gt c then
            match lazy_attributes t with
            | Some (a, k) => Some (c :: a, S k)
            | None => None
            end
          else None
      | [] => None
      end
  end.

(** [/<link\s+([^>]*?)(\/?\s*>)/] of [generateBundle], anchored at the head
    of [s].  [\s+] takes the whole run of blanks: with fewer blanks the lazy
    capture would start on a blank, and the closing group matches there only
    if a [>] ends the run, in which case the whole run and an empty capture
    already match. *)
Definition bundleLinkRegex (s : jsstr) : option (jsstr * nat) :=
  if starts_with link_token s then
    let s1 := drop (length link_token) s in
    let blanks := take_while is_space s1 in
    match blanks with
    | [] => None
    | _ :: _ =>
        match lazy_attributes (drop_while is_space s1) with
        | Some (attributes, k) =>
            Some (attributes, length link_token + length blanks + k)
        | None => None
        end
    end
  else None.

Definition bundle_replace_links (nonce s : jsstr) : jsstr :=
  scan bundleLinkRegex (fun attributes _ _ => link_callback nonce attributes) [] s 0.

(** *** [transformIndexHtml] *)

Definition tag_scripts (nonce html : jsstr) : jsstr :=
  replaceAll script_token (script_template nonce) html.

Definition tag_styles (nonce html : jsstr) : jsstr :=
  replaceAll style_token (style_template nonce) html.

Definition tag_style_attributes (nonce html : jsstr) : jsstr :=
  replaceAll style_attr_token (style_attr_template nonce) html.

Definition inject_shim (nonce html : jsstr) : jsstr :=
  replace head_close (injectNonceScript nonce ++ head_close) html.

Definition transformIndexHtml (nonce html : jsstr) : jsstr :=
  inject_shim nonce
    (tag_style_attributes nonce
       (replace_links nonce
          (tag_styles nonce
             (tag_scripts nonce html)))).

(** The first four calls of that chain, without the last one. *)
Definition tagging_steps (nonce html : jsstr) : jsstr :=
  tag_style_attributes nonce
    (replace_links nonce
       (tag_styles nonce
          (tag_scripts nonce html))).

(** The chain of calls applied to [chunk.source] in [generateBundle]. *)
Definition bundle_source (nonce source : jsstr) : jsstr :=
  tag_style_attributes nonce
    (bundle_replace_links nonce
       (tag_styles nonce
          (tag_scripts nonce source))).

(** *** [generateBundle] *)

(** The values found in the entries of a Rollup output bundle, as far as the
    hook tells them apart: strings, binary payloads ([Uint8Array]) and
    everything else. *)
Inductive jsval : Type :=
  | VString (s : jsstr)
  | VBytes (b : list N)
  | VOpaque (id : N).

(** An entry of the bundle is an object: its own properties by name. *)
Abbreviation chunk := (gmap string jsval).
Abbreviation bundle := (gmap jsstr (gmap string jsval)).

(** The body of the reducer for one entry.  [None] stands for the TypeError
    thrown when [chunk.fileName] has no [endsWith] or [chunk.source] has no
    [replaceAll], that is when they are not strings.  The spread
    [{...chunk, source: ...}] copies every property and sets [source]. *)
Definition rewrite_chunk (nonce : jsstr) (c : chunk) : option chunk :=
  match c !! "type"%string with
  | Some (VString t) =>
      if bool_decide (t = lit "asset") then
        match c !! "fileName"%string with
        | Some (VString f) =>
            if ends_with (lit ".html") f then
              match c !! "source"%string with
              | Some (VString src) =>
                  Some (<["source"%string := VString (bundle_source nonce src)]> c)
              | _ => None
              end
            else Some c
        | _ => None
        end
      else Some c
  | _ => Some c
  end.

(** One step of [Object.keys(bundle).reduce(..., {})]: the accumulator is
    spread into a new object that also binds [fileName]. *)
Definition reducer (nonce : jsstr) (b : bundle)
    (acc : option bundle) (fileName : jsstr) : option bundle :=
  acc ← acc;
  c ← b !! fileName;
  c' ← rewrite_chunk nonce c;
  Some (<[fileName := c']> acc).

Definition Object_keys (b : bundle) : list jsstr := (map_to_list b).*1.

Definition generateBundle (nonce : jsstr) (b : bundle) : option bundle :=
  foldl (reducer nonce b) (Some ∅) (Object_keys b).

(** *** [configureServer]: the policy and the headers *)

(** The options after the defaults of the destructuring have been applied.
    [scriptSrc] and [styleSrc] have no default: they are functions or absent. *)
Record Options : Type := {
  reportOnly : bool;
  processI18n : bool;
  defaultSrc : jsstr;
  noncePlaceholder : jsstr;
  xssProtection : jsstr;
  frameOptions : jsstr;
  contentTypeOptions : jsstr;
  referrerPolicy : jsstr;
  permissionsPolicy : jsstr;
  cacheControl : jsstr;
  scriptSrc : option (jsstr -> jsstr);
  styleSrc : option (jsstr -> jsstr);
  imgSrc : jsstr;
  fontSrc : jsstr;
  objectSrc : jsstr;
  frameSrc : jsstr;
  baseUri : jsstr;
  formAction : jsstr;
  frameAncestors : jsstr;
  workerSrc : jsstr;
  connectSrc : jsstr
}.

(** [secureHeadersPlugin()] called with no option at all. *)
Definition default_options : Options := {|
  reportOnly := false;
  processI18n := false;
  defaultSrc := lit "'self'";
  noncePlaceholder := lit "NONCE_PLACEHOLDER";
  xssProtection := lit "1; mode=block";
  frameOptions := lit "DENY";
  contentTypeOptions := lit "nosniff";
  referrerPolicy := lit "strict-origin-when-cross-origin";
  permissionsPolicy := lit "camera=(), microphone=(), geolocation=()";
  cacheControl := lit "no-store, max-age=0";
  scriptSrc := None;
  styleSrc := None;
  imgSrc := lit "'self' data:";
  fontSrc := lit "'self'";
  objectSrc := lit "'none'";
  frameSrc := lit "'self'";
  baseUri := lit "'self'";
  formAction := lit "'self'";
  frameAncestors := lit "'none'";
  workerSrc := lit "'self'";
  connectSrc := lit "'self'"
|}.

(** [array.join(sep)] *)
Fixpoint join (sep : jsstr) (l : list jsstr) : jsstr :=
  match l with
  | [] => []
  | x :: l' =>
      match l' with
      | [] => x
      | _ :: _ => x ++ sep ++ join sep l'
      end
  end.

(** ['self' 'nonce-${nonce}'] *)
Definition self_nonce (nonce : jsstr) : jsstr :=
  lit "'self' 'nonce-" ++ nonce ++ lit "'".

Definition scriptSrcValue (o : Options) (nonce : jsstr) : jsstr :=
  match scriptSrc o with
  | Some f => f nonce
  | None => self_nonce nonce
  end.

Definition styleSrcValue (o : Options) (nonce : jsstr) : jsstr :=
  match styleSrc o with
  | Some f => f nonce
  | None => self_nonce nonce
  end.

(** The array of clauses joined into [csp]. *)
Definition csp_clauses (o : Options) (nonce : jsstr) : list jsstr :=
  [ lit "default-src " ++ defaultSrc o;
    lit "script-src " ++ scriptSrcValue o nonce;
    lit "style-src " ++ styleSrcValue o nonce;
    lit "img-src " ++ imgSrc o;
    lit "font-src " ++ fontSrc o;
    lit "object-src " ++ objectSrc o;
    lit "base-uri " ++ baseUri o;
    lit "frame-src " ++ frameSrc o;
    lit "form-action " ++ formAction o;
    lit "frame-ancestors " ++ frameAncestors o;
    lit "worker-src " ++ workerSrc o;
    lit "connect-src " ++ connectSrc o;
    lit "upgrade-insecure-requests" ].

Definition csp (o : Options) (nonce : jsstr) : jsstr :=
  join (lit "; ") (csp_clauses o nonce).

Definition cspHeaderName (o : Options) : jsstr :=
  if reportOnly o
  then lit "Content-Security-Policy-Report-Only"
  else lit "Content-Security-Policy".

(** The response is the sequence of its [setHeader] calls. *)
Abbreviation response := (list (jsstr * jsstr)).

Definition setHeader (name value : jsstr) (res : response) : response :=
  res ++ [(name, value)].

(** [if (value) res.setHeader(name, value)]: the empty string is falsy. *)
Definition setHeader_if (name value : jsstr) (res : response) : response :=
  match value with
  | [] => res
  | _ :: _ => setHeader name value res
  end.

(** The middleware registered by [configureServer], up to its call of
    [next()]. *)
Definition middleware (o : Options) (nonce : jsstr) (res : response) : response :=
  setHeader_if (lit "Cache-Control") (cacheControl o)
    (setHeader_if (lit "Permissions-Policy") (permissionsPolicy o)
       (setHeader_if (lit "Referrer-Policy") (referrerPolicy o)
          (setHeader_if (lit "X-Content-Type-Options") (contentTypeOptions o)
             (setHeader_if (lit "X-Frame-Options") (frameOptions o)
                (setHeader_if (lit "X-XSS-Protection") (xssProtection o)
                   (setHeader (cspHeaderName o) (csp o nonce) res)))))).

(** *** [configResolved] and the shared nonce *)

Fixpoint uint_digits (d : Decimal.uint) : jsstr :=
  match d with
  | Decimal.Nil => []
  | Decimal.D0 d => 48%N :: uint_digits d
  | Decimal.D1 d => 49%N :: uint_digits d
  | Decimal.D2 d => 50%N :: uint_digits d
  | Decimal.D3 d => 51%N :: uint_digits d
  | Decimal.D4 d => 52%N :: uint_digits d
  | Decimal.D5 d => 53%N :: uint_digits d
  | Decimal.D6 d => 54%N :: uint_digits d
  | Decimal.D7 d => 55%N :: uint_digits d
  | Decimal.D8 d => 56%N :: uint_digits d
  | Decimal.D9 d => 57%N :: uint_digits d
  end.

(** [Date.now().toString()]: the decimal digits of a number of milliseconds. *)
Definition Number_toString (n : N) : jsstr := uint_digits (N.to_uint n).

(** The configuration object handed to [configResolved], as far as the hook
    reads and writes it: [config.command] and the object [config.html]. *)
Record ResolvedConfig : Type := {
  command : jsstr;
  html : option (gmap string jsval)
}.

(** The closure variable [sharedNonce]: unassigned until [configResolved]. *)
Record PluginState : Type := { sharedNonce : option jsstr }.

Definition initial_state : PluginState := {| sharedNonce := None |}.



Section Lifecycle.
(** [createHash('sha256').update(text).digest('base64')] of [node:crypto]. *)
Variable sha256_base64 : jsstr -> jsstr.
Variable o : Options.

(** [createNonce], with the reading of the clock as an argument. *)
Definition createNonce (now : N) : jsstr :=
  sha256_base64 (Number_toString now).

Definition configResolved (config : ResolvedConfig) (now : N)
    (st : PluginState) : PluginState * ResolvedConfig :=
  let isServing := bool_decide (command config = lit "serve") in
  let nonce := if isServing then createNonce now else noncePlaceholder o in
  ({| sharedNonce := Some nonce |},
   {| command := command config;
      html := Some (<["cspNonce"%string := VString nonce]>
                      (default ∅ (html config))) |}).



End Lifecycle.

(** *** [config] *)

(** [config.resolve.alias]: an object from names to replacements, or an
    array of entries.  An array is an object as well: an assignment to a
    name that is not an index gives it a property of that name and leaves
    its entries alone. *)
Inductive aliases : Type :=
  | AliasObject (props : gmap jsstr jsval)
  | AliasArray (entries : list jsval) (props : gmap jsstr jsval).

(** The user configuration handed to [config], as far as the hook reads and
    writes it: [config.resolve], [config.resolve.alias] and
    [config.plugins], each of them possibly missing, and the properties the
    hook does not look at. *)
Record ResolveOptions : Type := {
  alias : option aliases;
  resolve_rest : gmap string jsval
}.

Record UserConfig : Type := {
  resolve : option ResolveOptions;
  plugins : option (list jsval);
  config_rest : gmap string jsval
}.

(** [alias[name] = value] *)
Definition set_alias (name : jsstr) (value : jsval) (a : aliases) : aliases :=
  match a with
  | AliasObject props => AliasObject (<[name := value]> props)
  | AliasArray entries props => AliasArray entries (<[name := value]> props)
  end.

(** The hook [config]: the configuration it returns, which is the object it
    was given, after the assignments.  [x || {}] keeps an object and replaces
    a missing one. *)
Definition config (o : Options) (config : UserConfig) (configEnv_command : jsstr)
    : UserConfig :=
  let resolve0 := default {| alias := None; resolve_rest := ∅ |} (resolve config) in
  let alias0 := default (AliasObject ∅) (alias resolve0) in
  if processI18n o then
    let isServing := bool_decide (configEnv_command = lit "serve") in
    let vueI18nPath :=
      if isServing then lit "vue-i18n/dist/vue-i18n.esm-browser.js"
      else lit "vue-i18n/dist/vue-i18n.esm-browser.prod.js" in
    {| resolve :=
         Some {| alias := Some (set_alias (lit "vue-i18n") (VString vueI18nPath) alias0);
                 resolve_rest := resolve_rest resolve0 |};
       plugins := Some (default [] (plugins config));
       config_rest := config_rest config |}
  else
    {| resolve := Some {| alias := Some alias0; resolve_rest := resolve_rest resolve0 |};
       plugins := plugins config;
       config_rest := config_rest config |}.

(** *** The options of [secureHeadersPlugin] *)

(** The object given to [secureHeadersPlugin]: every property may be
    missing. *)
Record RawOptions : Type := {
  raw_reportOnly : option bool;
  raw_processI18n : option bool;
  raw_defaultSrc : option jsstr;
  raw_noncePlaceholder : option jsstr;
  raw_xssProtection : option jsstr;
  raw_frameOptions : option jsstr;
  raw_contentTypeOptions : option jsstr;
  raw_referrerPolicy : option jsstr;
  raw_permissionsPolicy : option jsstr;
  raw_cacheControl : option jsstr;
  raw_scriptSrc : option (jsstr -> jsstr);
  raw_styleSrc : option (jsstr -> jsstr);
  raw_imgSrc : option jsstr;
  raw_fontSrc : option jsstr;
  raw_objectSrc : option jsstr;
  raw_frameSrc : option jsstr;
  raw_baseUri : option jsstr;
  raw_formAction : option jsstr;
  raw_frameAncestors : option jsstr;
  raw_workerSrc : option jsstr;
  raw_connectSrc : option jsstr
}.

(** The destructuring at the head of [secureHeadersPlugin]: a default stands
    in for a missing property and for nothing else; the empty string given
    by the caller is kept. *)
Definition destructure (options : RawOptions) : Options := {|
  reportOnly := default false (raw_reportOnly options);
  processI18n := default false (raw_processI18n options);
  defaultSrc := default (lit "'self'") (raw_defaultSrc options);
  noncePlaceholder := default (lit "NONCE_PLACEHOLDER") (raw_noncePlaceholder options);
  xssProtection := default (lit "1; mode=block") (raw_xssProtection options);
  frameOptions := default (lit "DENY") (raw_frameOptions options);
  contentTypeOptions := default (lit "nosniff") (raw_contentTypeOptions options);
  referrerPolicy :=
    default (lit "strict-origin-when-cross-origin") (raw_referrerPolicy options);
  permissionsPolicy :=
    default (lit "camera=(), microphone=(), geolocation=()")
      (raw_permissionsPolicy options);
  cacheControl := default (lit "no-store, max-age=0") (raw_cacheControl options);
  scriptSrc := raw_scriptSrc options;
  styleSrc := raw_styleSrc options;
  imgSrc := default (lit "'self' data:") (raw_imgSrc options);
  fontSrc := default (lit "'self'") (raw_fontSrc options);
  objectSrc := default (lit "'none'") (raw_objectSrc options);
  frameSrc := default (lit "'self'") (raw_frameSrc options);
  baseUri := default (lit "'self'") (raw_baseUri options);
  formAction := default (lit "'self'") (raw_formAction options);
  frameAncestors := default (lit "'none'") (raw_frameAncestors options);
  workerSrc := default (lit "'self'") (raw_workerSrc options);
  connectSrc := default (lit "'self'") (raw_connectSrc options)
|}.

End Plugin.

Import Js Plugin.

(** ** Notions used in the statements

    The definitions of this part do not come from the source: they name the
    properties, the hypotheses and the sample inputs of the theorems. *)

(** [p] occurs in [s] as a contiguous piece. *)
Definition occurs (p s : jsstr) : Prop := ∃ a b, s = a ++ p ++ b.

Definition is_pattern_char (d : N) : bool :=
  ((d =? DOLLAR) || (d =? BACKTICK) || (d =? AMP) || (d =? APOS))%N.

Definition head_is_pattern (t : jsstr) : bool :=
  match t with
  | d :: _ => is_pattern_char d
  | [] => false
  end.

(** No dollar sign of the template is followed by [$], [&], a backtick or an
    apostrophe. *)
Fixpoint plain_template (t : jsstr) : bool :=
  match t with
  | [] => true
  | c :: rest =>
      (if (c =? DOLLAR)%N then negb (head_is_pattern rest) else true)
      && plain_template rest
  end.

(** Spec wording, insert immediately after each occurrence of the token:
    the text is copied code unit by code unit, and wherever the text copied
    so far ends with the token, the insertion is written out. *)
Fixpoint insert_after_each (token insertion before s : jsstr) : jsstr :=
  (if ends_with token before then insertion else [])
  ++ match s with
     | [] => []
     | c :: t => c :: insert_after_each token insertion (before ++ [c]) t
     end.

(** No occurrence of the token lies across the border between the text
    already read and the text to come. *)
Definition border_clear (token before s : jsstr) : Prop :=
  ∀ u v, token = u ++ v → u ≠ [] → v ≠ [] →
         u `suffix_of` before → v `prefix_of` s → False.

(** The text starts with a blank. *)
Definition starts_blank (s : jsstr) : bool :=
  match s with
  | c :: _ => is_space c
  | [] => false
  end.

Definition head_fails (f : N → bool) (b : jsstr) : Prop :=
  match b with
  | c :: _ => f c = false
  | [] => True
  end.

Definition blank_or_slash (c : N) : bool := is_space c || (c =? SLASH)%N.


(** The entry is an asset whose file name ends in [.html]. *)
Definition is_html_asset (c : chunk) : bool :=
  match c !! "type"%string, c !! "fileName"%string with
  | Some (VString t), Some (VString f) =>
      bool_decide (t = lit "asset") && ends_with (lit ".html") f
  | _, _ => false
  end.

Definition source_text (c : chunk) : jsstr :=
  match c !! "source"%string with
  | Some (VString src) => src
  | _ => []
  end.

(** The entries of a Rollup bundle, as far as the hook relies on them: an
    asset has a file name and a source that are strings. *)
Definition chunk_ok (c : chunk) : bool :=
  match c !! "type"%string with
  | Some (VString t) =>
      if bool_decide (t = lit "asset") then
        match c !! "fileName"%string, c !! "source"%string with
        | Some (VString _), Some (VString _) => true
        | _, _ => false
        end
      else true
  | _ => true
  end.

Definition bundle_ok (b : bundle) : bool :=
  forallb (λ kc, chunk_ok kc.2) (map_to_list b).

(** What the reducer binds to the key of an entry. *)
Definition rewritten_chunk (nonce : jsstr) (c : chunk) : chunk :=
  if is_html_asset c
  then <["source"%string := VString (bundle_source nonce (source_text c))]> c
  else c.

(** The text is an optional slash followed by blanks only. *)
Definition closing (s : jsstr) : bool :=
  match s with
  | c :: r => if (c =? SLASH)%N then forallb is_space r else forallb is_space s
  | [] => true
  end.

(** The attribute list without its closing part: the shortest beginning that
    is followed by an optional slash and blanks only. *)
Fixpoint chop (s : jsstr) : jsstr :=
  if closing s then []
  else
    match s with
    | c :: t => c :: chop t
    | [] => []
    end.



(** A bundle of two entries: an HTML asset and a code chunk. *)
Definition index_chunk (source : jsstr) : chunk :=
  list_to_map
    [ ("type"%string, VString (lit "asset"));
      ("fileName"%string, VString (lit "index.html"));
      ("source"%string, VString source);
      ("needsCodeReference"%string, VOpaque 0) ].



(** The same options with another report-only flag. *)
Definition with_reportOnly (flag : bool) (o : Options) : Options := {|
  reportOnly := flag;
  processI18n := processI18n o;
  defaultSrc := defaultSrc o;
  noncePlaceholder := noncePlaceholder o;
  xssProtection := xssProtection o;
  frameOptions := frameOptions o;
  contentTypeOptions := contentTypeOptions o;
  referrerPolicy := referrerPolicy o;
  permissionsPolicy := permissionsPolicy o;
  cacheControl := cacheControl o;
  scriptSrc := scriptSrc o;
  styleSrc := styleSrc o;
  imgSrc := imgSrc o;
  fontSrc := fontSrc o;
  objectSrc := objectSrc o;
  frameSrc := frameSrc o;
  baseUri := baseUri o;
  formAction := formAction o;
  frameAncestors := frameAncestors o;
  workerSrc := workerSrc o;
  connectSrc := connectSrc o
|}.

(** A header that is set only if its value is not empty. *)
Definition optional_header (name value : jsstr) : response :=
  match value with
  | [] => []
  | _ :: _ => [(name, value)]
  end.

(** The headers set after the policy header. *)
Definition auxiliary_headers (o : Options) : response :=
  optional_header (lit "X-XSS-Protection") (xssProtection o)
  ++ optional_header (lit "X-Frame-Options") (frameOptions o)
  ++ optional_header (lit "X-Content-Type-Options") (contentTypeOptions o)
  ++ optional_header (lit "Referrer-Policy") (referrerPolicy o)
  ++ optional_header (lit "Permissions-Policy") (permissionsPolicy o)
  ++ optional_header (lit "Cache-Control") (cacheControl o).



Definition directive_names : list jsstr :=
  [ lit "default-src"; lit "script-src"; lit "style-src"; lit "img-src";
    lit "font-src"; lit "object-src"; lit "base-uri"; lit "frame-src";
    lit "form-action"; lit "frame-ancestors"; lit "worker-src";
    lit "connect-src" ].

(** The values of the twelve directives, in the order of the clauses. *)
Definition directive_values (o : Options) (nonce : jsstr) : list jsstr :=
  [ defaultSrc o; scriptSrcValue o nonce; styleSrcValue o nonce; imgSrc o;
    fontSrc o; objectSrc o; baseUri o; frameSrc o; formAction o;
    frameAncestors o; workerSrc o; connectSrc o ].

(** The number of positions of [s] at which [p] starts. *)
Fixpoint occurrences (p s : jsstr) : nat :=
  match s with
  | [] => 0
  | _ :: t => (if starts_with p s then 1 else 0) + occurrences p t
  end.

(** No directive value contains a directive name. *)
Definition values_clean (o : Options) (nonce : jsstr) : bool :=
  forallb (λ v, forallb (λ name, negb (includes name v)) directive_names)
    (directive_values o nonce).

(** The default options with a directive name inside a directive value. *)
Definition name_in_value_options : Options := {|
  reportOnly := false;
  processI18n := false;
  defaultSrc := lit "'self' https://img-src.example";
  noncePlaceholder := lit "NONCE_PLACEHOLDER";
  xssProtection := lit "1; mode=block";
  frameOptions := lit "DENY";
  contentTypeOptions := lit "nosniff";
  referrerPolicy := lit "strict-origin-when-cross-origin";
  permissionsPolicy := lit "camera=(), microphone=(), geolocation=()";
  cacheControl := lit "no-store, max-age=0";
  scriptSrc := None;
  styleSrc := None;
  imgSrc := lit "'self' data:";
  fontSrc := lit "'self'";
  objectSrc := lit "'none'";
  frameSrc := lit "'self'";
  baseUri := lit "'self'";
  formAction := lit "'self'";
  frameAncestors := lit "'none'";
  workerSrc := lit "'self'";
  connectSrc := lit "'self'"
|}.

(** Every occurrence of [token] in [s] is immediately followed by
    [attribute]. *)
Definition followed (token attribute s : jsstr) : Prop :=
  ∀ a b, s = a ++ token ++ b → attribute `prefix_of` b.

(** A text that starts with the token goes on with the attribute. *)
Definition good_start (token attribute t : jsstr) : Prop :=
  token `prefix_of` t → token ++ attribute `prefix_of` t.

(** [x] and [token] agree as far as both go. *)
Definition compatible (token x : jsstr) : bool :=
  starts_with token x || starts_with x token.

(** No tail of [w] can be the start of an occurrence of [token]. *)
Fixpoint no_start (token w : jsstr) : bool :=
  match w with
  | [] => true
  | _ :: w' => negb (compatible token w) && no_start token w'
  end.

(** The nonce holds no [<], no [>] and no double quote. *)
Definition tame (s : jsstr) : bool :=
  forallb (λ c, negb ((c =? 60) || (c =? GT) || (c =? DQUOTE))%N) s.

(** No nonempty tail of [w] is the start of an occurrence of [token],
    whatever comes behind. *)
Definition starts_nowhere (token w : jsstr) : Prop :=
  ∀ x y, x ≠ [] → x `suffix_of` w → ¬ token `prefix_of` x ++ y.

(** The text inserted by the inline style step, behind its token. *)
Definition style_attr_insertion (nonce : jsstr) : jsstr :=
  lit "nonce=" ++ [DQUOTE] ++ nonce ++ [DQUOTE] ++ lit " ".


(** The text holds no [<]. *)
Definition no_lt (s : jsstr) : bool := forallb (λ c, negb (c =? 60)%N) s.

(** The walk of [replaceAll] for a template made of the token and an
    insertion, without [$] pattern: the document on the left, the result on
    the right. *)
Inductive inserted (tok ins : jsstr) : jsstr → jsstr → Prop :=
  | inserted_nil : inserted tok ins [] []
  | inserted_match rest out :
      inserted tok ins rest out →
      inserted tok ins (tok ++ rest) (tok ++ ins ++ out)
  | inserted_miss c t out :
      starts_with tok (c :: t) = false →
      inserted tok ins t out →
      inserted tok ins (c :: t) (c :: out).


(** *** Notions for the hooks [config], [configureServer] and [generateBundle] *)

(** The named properties of an alias table. *)
Definition alias_props (a : aliases) : gmap jsstr jsval :=
  match a with
  | AliasObject props => props
  | AliasArray _ props => props
  end.

(** The entries of an alias table given as an array. *)
Definition alias_entries (a : aliases) : list jsval :=
  match a with
  | AliasObject _ => []
  | AliasArray entries _ => entries
  end.

(** The alias table of a configuration; a missing one holds nothing. *)
Definition aliases_of (c : UserConfig) : aliases :=
  default (AliasObject ∅) (resolve c ≫= alias).

(** The replacement bound to a name in the alias table of a configuration. *)
Definition alias_of (name : jsstr) (c : UserConfig) : option jsval :=
  alias_props (aliases_of c) !! name.

(** The build of vue-i18n chosen for a command. *)
Definition vue_i18n_build (configEnv_command : jsstr) : jsstr :=
  if bool_decide (configEnv_command = lit "serve")
  then lit "vue-i18n/dist/vue-i18n.esm-browser.js"
  else lit "vue-i18n/dist/vue-i18n.esm-browser.prod.js".

(** A configuration with one alias of the user for vue-i18n and one for
    another name. *)
Definition aliased_config : UserConfig := {|
  resolve := Some {|
    alias := Some (AliasObject
      (<[lit "vue-i18n" := VString (lit "./my-i18n.js")]>
         (<[lit "@" := VString (lit "/src")]> ∅)));
    resolve_rest := ∅ |};
  plugins := None;
  config_rest := ∅
|}.

(** The default options with another i18n flag. *)
Definition i18n_options (flag : bool) : Options := {|
  reportOnly := false;
  processI18n := flag;
  defaultSrc := lit "'self'";
  noncePlaceholder := lit "NONCE_PLACEHOLDER";
  xssProtection := lit "1; mode=block";
  frameOptions := lit "DENY";
  contentTypeOptions := lit "nosniff";
  referrerPolicy := lit "strict-origin-when-cross-origin";
  permissionsPolicy := lit "camera=(), microphone=(), geolocation=()";
  cacheControl := lit "no-store, max-age=0";
  scriptSrc := None;
  styleSrc := None;
  imgSrc := lit "'self' data:";
  fontSrc := lit "'self'";
  objectSrc := lit "'none'";
  frameSrc := lit "'self'";
  baseUri := lit "'self'";
  formAction := lit "'self'";
  frameAncestors := lit "'none'";
  workerSrc := lit "'self'";
  connectSrc := lit "'self'"
|}.

(** The values given to the header [name] by the calls of a response, in
    the order of the calls. *)
Definition values_of (name : jsstr) (res : response) : list jsstr :=
  omap (λ h, if bool_decide (h.1 = name) then Some h.2 else None) res.

(** The six optional headers: the name, the option read from the caller's
    object and the default. *)
Definition header_table : list (jsstr * (RawOptions → option jsstr) * jsstr) :=
  [ (lit "X-XSS-Protection", raw_xssProtection, lit "1; mode=block");
    (lit "X-Frame-Options", raw_frameOptions, lit "DENY");
    (lit "X-Content-Type-Options", raw_contentTypeOptions, lit "nosniff");
    (lit "Referrer-Policy", raw_referrerPolicy, lit "strict-origin-when-cross-origin");
    (lit "Permissions-Policy", raw_permissionsPolicy,
       lit "camera=(), microphone=(), geolocation=()");
    (lit "Cache-Control", raw_cacheControl, lit "no-store, max-age=0") ].

(** What a header option gives: nothing for the empty string, the default
    for a missing option. *)
Definition header_values (given : option jsstr) (dflt : jsstr) : list jsstr :=
  match given with
  | None => [dflt]
  | Some [] => []
  | Some (c :: v) => [c :: v]
  end.

(** No option given at all. *)
Definition no_options : RawOptions := {|
  raw_reportOnly := None; raw_processI18n := None; raw_defaultSrc := None;
  raw_noncePlaceholder := None; raw_xssProtection := None;
  raw_frameOptions := None; raw_contentTypeOptions := None;
  raw_referrerPolicy := None; raw_permissionsPolicy := None;
  raw_cacheControl := None; raw_scriptSrc := None; raw_styleSrc := None;
  raw_imgSrc := None; raw_fontSrc := None; raw_objectSrc := None;
  raw_frameSrc := None; raw_baseUri := None; raw_formAction := None;
  raw_frameAncestors := None; raw_workerSrc := None; raw_connectSrc := None
|}.



(** An entry on which the reducer of [generateBundle] throws: an asset whose
    file name is not a string, or whose file name ends in [.html] while its
    source is not a string. *)
Definition unreadable (c : chunk) : bool :=
  match c !! "type"%string with
  | Some (VString t) =>
      bool_decide (t = lit "asset")
      && match c !! "fileName"%string with
         | Some (VString f) =>
             ends_with (lit ".html") f
             && match c !! "source"%string with
                | Some (VString _) => false
                | _ => true
                end
         | _ => true
         end
  | _ => false
  end.

(** An image asset: its source is binary. *)
Definition image_chunk : chunk :=
  list_to_map
    [ ("type"%string, VString (lit "asset"));
      ("fileName"%string, VString (lit "assets/logo.png"));
      ("source"%string, VBytes [137; 80; 78; 71]%N) ].

(** A bundle of an HTML asset and an image. *)
Definition image_bundle (source : jsstr) : bundle :=
  list_to_map
    [ (lit "index.html", index_chunk source);
      (lit "assets/logo.png", image_chunk) ].

(** No link element is complete: wherever the text goes on with [<link],
    what follows the token does not start with a blank or holds no [>]. *)
Fixpoint links_incomplete (s : jsstr) : bool :=
  match s with
  | [] => true
  | _ :: t =>
      (if starts_with link_token s
       then negb (starts_blank (drop (length link_token) s))
            || forallb not_gt (drop (length link_token) s)
       else true)
      && links_incomplete t
  end.

(** The attribute list is empty or ends with a code unit that is neither a
    blank nor a slash. *)
Definition ends_plainly (a : jsstr) : bool :=
  match reverse a with
  | [] => true
  | c :: _ => negb (blank_or_slash c)
  end.

(** Wherever the link expression of [transformIndexHtml] matches, the
    attribute list that it captures is empty or ends with a code unit that is
    neither a blank nor a slash. *)
Fixpoint links_end_plainly (s : jsstr) : bool :=
  match s with
  | [] => true
  | _ :: t =>
      match linkRegex s with
      | Some (attributes, _) => ends_plainly attributes
      | None => true
      end
      && links_end_plainly t
  end.

(** The walk of [bundle_replace_links]: the callback gets the attribute list
    without its closing part. *)
Inductive bundle_links_replaced (nonce : jsstr) : jsstr → jsstr → Prop :=
  | bundle_links_nil : bundle_links_replaced nonce [] []
  | bundle_links_match blanks attributes rest out :
      forallb not_gt attributes = true →
      bundle_links_replaced nonce rest out →
      bundle_links_replaced nonce
        (link_token ++ blanks ++ attributes ++ GT :: rest)
        (link_callback nonce (chop attributes) ++ out)
  | bundle_links_miss c t out :
      bundle_links_replaced nonce t out →
      bundle_links_replaced nonce (c :: t) (c :: out).

(** *** Notions for the copies of the nonce *)

(** The text [x] with the nonce [n] written for every occurrence of the
    mark [h]. *)
Definition expand (h : N) (n x : jsstr) : jsstr :=
  flat_map (λ c, if (c =? h)%N then n else [c]) x.

(** Every mark is followed by a double quote. *)
Definition hole_after (h : N) (x : jsstr) : Prop :=
  ∀ u v, x = u ++ h :: v → ∃ v', v = DQUOTE :: v'.

(** Every mark that is not at the head of the text is preceded by a double
    quote. *)
Definition hole_before (h : N) (x : jsstr) : Prop :=
  ∀ u v, x = u ++ h :: v → u = [] ∨ ∃ u', u = u' ++ [DQUOTE].

(** The text does not start with the mark. *)
Definition head_clear (h : N) (x : jsstr) : Prop :=
  match x with
  | c :: _ => c ≠ h
  | [] => True
  end.

(** A nonce that the rewriting only copies: no [<], no [>], no double quote,
    no [$] pattern, no [nonce=] inside and no [style=] at its end. *)
Definition copied_nonce (n : jsstr) : bool :=
  tame n && plain_template n
  && negb (includes (lit "nonce=") n)
  && negb (ends_with (lit "style=") n).

(** No occurrence of the token starts inside a copy of the nonce that is
    followed by a double quote. *)
Definition nonce_clear (n tok : jsstr) : Prop :=
  ∀ w y, w ≠ [] → w `suffix_of` n → starts_with tok (w ++ DQUOTE :: y) = false.

(** ** Facts about the string primitives *)

Section StringFacts.
Implicit Types p s t u v : jsstr.

Lemma starts_with_prefix p s : starts_with p s = true ↔ p `prefix_of` s.
Proof.
  revert s. induction p as [|a p IH]; intros [|b s]; simpl.
  - split; [intros _; apply prefix_nil | done].
  - split; [intros _; apply prefix_nil | done].
  - split; [done | intros H; by apply prefix_nil_inv in H].
  - rewrite andb_true_iff, N.eqb_eq, IH. split.
    + intros [-> H]. by apply prefix_cons.
    + intros H. split; [by apply prefix_cons_inv_1 in H | by apply prefix_cons_inv_2 in H].
Qed.

Lemma starts_with_app p s : starts_with p (p ++ s) = true.
Proof. apply starts_with_prefix. by exists s. Qed.

Lemma starts_with_split p s :
  starts_with p s = true → s = p ++ drop (length p) s.
Proof.
  intros [k ->]%starts_with_prefix. by rewrite drop_app_length.
Qed.

Lemma starts_with_false p s : starts_with p s = false ↔ ¬ p `prefix_of` s.
Proof.
  rewrite <- starts_with_prefix. destruct (starts_with p s); naive_solver.
Qed.

Lemma ends_with_suffix p s : ends_with p s = true ↔ p `suffix_of` s.
Proof.
  unfold ends_with. rewrite starts_with_prefix. symmetry. apply suffix_prefix_reverse.
Qed.

Lemma ends_with_false p s : ends_with p s = false ↔ ¬ p `suffix_of` s.
Proof.
  rewrite <- ends_with_suffix. destruct (ends_with p s); naive_solver.
Qed.

Lemma includes_occurs p s : includes p s = true ↔ occurs p s.
Proof.
  induction s as [|c s IH].
  - simpl. rewrite orb_false_r, starts_with_prefix. split.
    + intros [k ->]. by exists [], k.
    + intros (a & b & H). destruct a; [by exists b | done].
  - cbn [includes]. rewrite orb_true_iff, starts_with_prefix, IH. split.
    + intros [[k ->] | (a & b & ->)]; [by exists [], k | by exists (c :: a), b].
    + intros (a & b & H). destruct a as [|c' a]; simpl in H.
      * left. by exists b.
      * right. exists a, b. congruence.
Qed.

Lemma includes_absent p s : includes p s = false ↔ ¬ occurs p s.
Proof.
  rewrite <- includes_occurs. destruct (includes p s); naive_solver.
Qed.

Lemma occurs_app_l p s t : occurs p s → occurs p (s ++ t).
Proof. intros (a & b & ->). exists a, (b ++ t). by rewrite <- !app_assoc. Qed.

Lemma occurs_app_r p s t : occurs p t → occurs p (s ++ t).
Proof. intros (a & b & ->). exists (s ++ a), b. by rewrite <- !app_assoc. Qed.

Lemma occurs_cons p c s : occurs p s → occurs p (c :: s).
Proof. apply (occurs_app_r p [c] s). Qed.

Lemma occurs_prefix p s : p `prefix_of` s → occurs p s.
Proof. intros [k ->]. by exists [], k. Qed.

(** Absence of a piece passes to every tail of the text. *)
Lemma absent_tail p a s : ¬ occurs p (a ++ s) → ¬ occurs p s.
Proof. intros H Ho. apply H. by apply occurs_app_r. Qed.

Lemma absent_starts_with p a s :
  ¬ occurs p (a ++ s) → starts_with p s = false.
Proof.
  intros H. apply starts_with_false. intros Hp.
  apply H, occurs_app_r. by apply occurs_prefix.
Qed.
End StringFacts.

(** ** Facts about the global replacement *)

Section ScanFacts.
Context {R : Type}.
Variable m : jsstr -> option (R * nat).
Variable f : R -> jsstr -> jsstr -> jsstr.

Lemma scan_skip u : ∀ before s,
  scan m f before (u ++ s) (length u) = scan m f (before ++ u) s 0.
Proof.
  induction u as [|c u IH]; intros before s; simpl.
  - by rewrite app_nil_r.
  - rewrite IH. by rewrite <- app_assoc.
Qed.

Lemma scan_miss before c t :
  m (c :: t) = None →
  scan m f before (c :: t) 0 = c :: scan m f (before ++ [c]) t 0.
Proof. intros H. simpl. by rewrite H. Qed.

Lemma scan_match before s r k :
  m s = Some (r, S k) → S k ≤ length s →
  scan m f before s 0
  = f r before s ++ scan m f (before ++ take (S k) s) (drop (S k) s) 0.
Proof.
  intros Hm Hlen. destruct s as [|c t]; [simpl in Hlen; lia|].
  cbn [scan]. rewrite Hm. f_equal.
  simpl in Hlen. cbn [take drop].
  transitivity (scan m f (before ++ [c]) (take k t ++ drop k t) (length (take k t))).
  - rewrite take_drop, length_take. f_equal. lia.
  - rewrite scan_skip. by rewrite <- app_assoc.
Qed.

(** Where no tail of the text matches, the text is returned as it is. *)
Lemma scan_no_match s :
  (∀ a b, s = a ++ b → m b = None) → ∀ before, scan m f before s 0 = s.
Proof.
  induction s as [|c s IH]; intros H before.
  - simpl. by rewrite (H [] []).
  - rewrite scan_miss by (by apply (H [])).
    f_equal. apply IH. intros a b ->. by apply (H (c :: a)).
Qed.

(** A replacement that does not look at the text before the match makes
    the walk independent of it. *)
Lemma scan_before_irrelevant :
  (∀ r b1 b2 s, f r b1 s = f r b2 s) →
  ∀ s b1 b2 k, scan m f b1 s k = scan m f b2 s k.
Proof.
  intros Hf. induction s as [|c s IH]; intros b1 b2 k; simpl.
  - destruct (m []) as [[r [|?]]|]; auto.
  - destruct k as [|k]; [|by apply IH].
    destruct (m (c :: s)) as [[r [|?]]|].
    + f_equal; [apply Hf | f_equal; apply IH].
    + f_equal; [apply Hf | apply IH].
    + f_equal. apply IH.
Qed.
End ScanFacts.

(** ** Texts without the searched token *)

Section Absent.
Implicit Types s search template nonce : jsstr.

Lemma replaceAll_absent search template s :
  includes search s = false → replaceAll search template s = s.
Proof.
  intros H%includes_absent. apply scan_no_match. intros a b ->.
  unfold literal_matcher. by rewrite (absent_starts_with _ a b).
Qed.

Lemma replace_from_absent search template s : ∀ before,
  includes search s = false → replace_from search template before s = s.
Proof.
  induction s as [|c s IH]; intros before H; cbn [includes] in H;
    apply orb_false_iff in H as [H1 H2]; cbn [replace_from]; rewrite H1.
  - done.
  - f_equal. by apply IH.
Qed.

Lemma replace_absent search template s :
  includes search s = false → replace search template s = s.
Proof. apply replace_from_absent. Qed.

Lemma linkRegex_needs_token s :
  starts_with link_token s = false → linkRegex s = None.
Proof. unfold linkRegex. by intros ->. Qed.

Lemma bundleLinkRegex_needs_token s :
  starts_with link_token s = false → bundleLinkRegex s = None.
Proof. unfold bundleLinkRegex. by intros ->. Qed.

Lemma replace_links_absent nonce s :
  includes link_token s = false → replace_links nonce s = s.
Proof.
  intros H%includes_absent. apply scan_no_match. intros a b ->.
  apply linkRegex_needs_token. by apply (absent_starts_with _ a b).
Qed.

Lemma bundle_replace_links_absent nonce s :
  includes link_token s = false → bundle_replace_links nonce s = s.
Proof.
  intros H%includes_absent. apply scan_no_match. intros a b ->.
  apply bundleLinkRegex_needs_token. by apply (absent_starts_with _ a b).
Qed.
End Absent.

(** C9. A document that contains none of the five searched pieces of text
    ([<script], [<style], [style=] with its double quote, [<link] and
    [</head>]) is returned unchanged by [transformIndexHtml], whatever the
    nonce is. *)
Theorem transformIndexHtml_frame (nonce document : jsstr) :
  includes script_token document = false →
  includes style_token document = false →
  includes style_attr_token document = false →
  includes link_token document = false →
  includes head_close document = false →
  transformIndexHtml nonce document = document.
Proof.
  intros Hscript Hstyle Hattr Hlink Hhead.
  unfold transformIndexHtml, inject_shim, tag_style_attributes, tag_styles, tag_scripts.
  rewrite (replaceAll_absent script_token) by done.
  rewrite (replaceAll_absent style_token) by done.
  rewrite replace_links_absent by done.
  rewrite (replaceAll_absent style_attr_token) by done.
  by apply replace_absent.
Qed.

Lemma transformIndexHtml_frame_witness :
  transformIndexHtml (lit "abc") (lit "<p>hello</p>") = lit "<p>hello</p>".
Proof. apply transformIndexHtml_frame; reflexivity. Defined.

(** ** Replacement templates without a [$] pattern *)

Section PlainTemplates.
Implicit Types t n l : jsstr.

Lemma GetSubstitution_step matched before after c d r :
  GetSubstitution matched before after (c :: d :: r)
  = if (c =? DOLLAR)%N then
      if (d =? DOLLAR)%N then DOLLAR :: GetSubstitution matched before after r
      else if (d =? BACKTICK)%N then before ++ GetSubstitution matched before after r
      else if (d =? AMP)%N then matched ++ GetSubstitution matched before after r
      else if (d =? APOS)%N then after ++ GetSubstitution matched before after r
      else c :: GetSubstitution matched before after (d :: r)
    else c :: GetSubstitution matched before after (d :: r).
Proof. reflexivity. Qed.

Lemma GetSubstitution_plain matched before after t :
  plain_template t = true → GetSubstitution matched before after t = t.
Proof.
  induction t as [|c rest IH]; [done|].
  destruct rest as [|d r]; [done|].
  intros H. cbn [plain_template] in H. apply andb_true_iff in H as [Hc Hrest].
  rewrite GetSubstitution_step.
  destruct (c =? DOLLAR)%N.
  - cbn [head_is_pattern] in Hc. unfold is_pattern_char in Hc.
    apply negb_true_iff in Hc.
    repeat (apply orb_false_iff in Hc as [Hc ?]).
    rewrite Hc. do 3 (match goal with H : _ = false |- _ => rewrite H; clear H end).
    f_equal. by apply IH.
  - f_equal. by apply IH.
Qed.

Lemma plain_template_app t l :
  plain_template t = true → plain_template l = true →
  head_is_pattern l = false → plain_template (t ++ l) = true.
Proof.
  intros Ht Hl Hh. induction t as [|c t IH]; [done|].
  cbn [plain_template app] in *. apply andb_true_iff in Ht as [Hc Ht].
  rewrite IH by done. rewrite andb_true_r.
  destruct (c =? DOLLAR)%N; [|done].
  destruct t; simpl in *; [by rewrite Hh | done].
Qed.

Lemma plain_nonce_attribute n l :
  plain_template n = true → plain_template l = true →
  plain_template (nonce_attribute n ++ l) = true.
Proof.
  intros Hn Hl. unfold nonce_attribute. rewrite <- !app_assoc.
  change (plain_template (n ++ DQUOTE :: l) = true).
  apply plain_template_app; [done | | done].
  cbn [plain_template]. by rewrite Hl.
Qed.

Lemma plain_script_template n :
  plain_template n = true → plain_template (script_template n) = true.
Proof.
  intros Hn. unfold script_template.
  rewrite <- (app_nil_r (nonce_attribute n)).
  change (plain_template (nonce_attribute n ++ []) = true).
  by apply plain_nonce_attribute.
Qed.

Lemma plain_style_template n :
  plain_template n = true → plain_template (style_template n) = true.
Proof.
  intros Hn. unfold style_template.
  rewrite <- (app_nil_r (nonce_attribute n)).
  change (plain_template (nonce_attribute n ++ []) = true).
  by apply plain_nonce_attribute.
Qed.
End PlainTemplates.

(** ** [replaceAll] against the wording of the specification

    For a token whose first code unit does not come back later in the token
    (two occurrences cannot overlap) and a template that is the token
    followed by an insertion. *)

Section InsertAfter.
Variables (c0 : N) (tok' ins : jsstr).
Hypothesis fresh : c0 ∉ tok'.
Hypothesis plain : plain_template (c0 :: tok' ++ ins) = true.

Local Abbreviation token := (c0 :: tok').
Local Abbreviation insert := (insert_after_each token ins).
Local Abbreviation walk :=
  (scan (literal_matcher token) (literal_replacement token (token ++ ins))).

Lemma token_not_finished before w1 w2 :
  tok' = w1 ++ w2 → w2 ≠ [] → ends_with token (before ++ c0 :: w1) = false.
Proof.
  intros Htok Hw2. apply ends_with_false. intros Hsuf.
  assert (Hsuf' : (c0 :: w1) `suffix_of` before ++ c0 :: w1) by apply suffix_app_r, reflexivity.
  destruct (suffix_weak_total _ _ _ Hsuf Hsuf') as [H | [k Hk]].
  - apply suffix_length in H. rewrite Htok in H. simpl in H.
    rewrite length_app in H. destruct w2; [done | simpl in H; lia].
  - destruct k as [|x k]; simpl in Hk.
    + injection Hk as Hk. rewrite Htok in Hk.
      apply (f_equal length) in Hk. rewrite length_app in Hk.
      destruct w2; [done | simpl in Hk; lia].
    + injection Hk as -> Hk. apply fresh. rewrite Hk.
      apply elem_of_app. right. apply elem_of_cons. by left.
Qed.

Lemma insert_through rest w2 : ∀ w1 before,
  tok' = w1 ++ w2 →
  insert (before ++ c0 :: w1) (w2 ++ rest)
  = w2 ++ insert (before ++ c0 :: w1 ++ w2) rest.
Proof.
  induction w2 as [|x w2 IH]; intros w1 before Htok.
  - by rewrite app_nil_r.
  - cbn [insert_after_each app].
    rewrite (token_not_finished before w1 (x :: w2)) by done.
    cbn [app]. f_equal.
    rewrite <- app_assoc. cbn [app].
    rewrite (IH (w1 ++ [x]) before) by (by rewrite <- app_assoc).
    by rewrite <- app_assoc.
Qed.

Lemma insert_token before rest :
  insert before (token ++ rest)
  = (if ends_with token before then ins else [])
      ++ token ++ insert (before ++ token) rest.
Proof.
  cbn [insert_after_each app]. do 2 f_equal.
  apply (insert_through rest tok' [] before). done.
Qed.

Lemma border_clear_token before rest : border_clear token (before ++ token) rest.
Proof.
  intros u v Huv Hu Hv Hsuf Hpre.
  assert (Hsuf' : token `suffix_of` before ++ token) by apply suffix_app_r, reflexivity.
  destruct (suffix_weak_total _ _ _ Hsuf Hsuf') as [[k Hk] | H].
  - destruct u as [|u0 u]; [done|]. injection Huv as -> Huv.
    destruct k as [|x k]; simpl in Hk.
    + injection Hk as Hk. rewrite Huv in Hk.
      apply (f_equal length) in Hk. rewrite length_app in Hk.
      destruct v; [done | simpl in Hk; lia].
    + injection Hk as -> Hk. apply fresh. rewrite Hk.
      apply elem_of_app. right. apply elem_of_cons. by left.
  - apply suffix_length in H. rewrite Huv in H. rewrite length_app in H.
    destruct v; [done | simpl in H; lia].
Qed.

Lemma border_clear_step before c t :
  border_clear token before (c :: t) → starts_with token (c :: t) = false →
  border_clear token (before ++ [c]) t ∧ ends_with token (before ++ [c]) = false.
Proof.
  intros Hclear Hmiss. apply starts_with_false in Hmiss. split.
  - intros u v Huv Hu Hv Hsuf Hpre.
    destruct (decide (length u = 1)) as [Hlen | Hlen].
    + destruct u as [|u0 [|? ?]]; try done.
      apply suffix_snoc_inv_1 with (l1 := []) in Hsuf as ->.
      apply Hmiss. rewrite Huv. by apply prefix_cons.
    + destruct (exists_last Hu) as (u' & x & ->).
      pose proof (suffix_snoc_inv_1 _ _ _ _ Hsuf) as ->.
      apply suffix_snoc_inv_2 in Hsuf.
      apply (Hclear u' (c :: v)).
      * by rewrite Huv, <- app_assoc.
      * intros ->. by apply Hlen.
      * done.
      * done.
      * by apply prefix_cons.
  - apply ends_with_false. intros Hsuf.
    destruct (exists_last (l := token)) as (u & x & Hux); [done|].
    rewrite Hux in Hsuf.
    pose proof (suffix_snoc_inv_1 _ _ _ _ Hsuf) as ->.
    apply suffix_snoc_inv_2 in Hsuf.
    destruct u as [|u0 u].
    + apply Hmiss. rewrite Hux. apply prefix_cons, prefix_nil.
    + apply (Hclear (u0 :: u) [c]); try done.
      apply prefix_cons, prefix_nil.
Qed.

Lemma insert_walk n : ∀ s before b0,
  length s ≤ n → border_clear token before s →
  insert before s
  = (if ends_with token before then ins else []) ++ walk b0 s 0.
Proof.
  induction n as [|n IH]; intros s before b0 Hlen Hclear.
  - destruct s; [|simpl in Hlen; lia]. reflexivity.
  - destruct s as [|c t]; [reflexivity|].
    destruct (starts_with token (c :: t)) eqn:Hm.
    + pose proof (starts_with_split _ _ Hm) as Hs.
      set (rest := drop (length token) (c :: t)) in *.
      assert (Hrest : length (c :: t) = length token + length rest)
        by (by rewrite Hs at 1; rewrite length_app).
      rewrite (scan_match _ _ b0 (c :: t) tt (length tok'));
        [| by unfold literal_matcher; rewrite Hm | simpl in *; lia].
      unfold literal_replacement at 1.
      rewrite GetSubstitution_plain by exact plain.
      fold rest. rewrite Hs at 1. rewrite insert_token.
      rewrite (IH rest (before ++ token) (b0 ++ take (S (length tok')) (c :: t)));
        [| simpl in *; lia | apply border_clear_token].
      replace (ends_with token (before ++ token)) with true
        by (symmetry; apply ends_with_suffix, suffix_app_r; reflexivity).
      by rewrite <- !app_assoc.
    + destruct (border_clear_step before c t Hclear Hm) as [Hclear' Hend].
      rewrite scan_miss by (by unfold literal_matcher; rewrite Hm).
      cbn [insert_after_each]. do 2 f_equal.
      rewrite (IH t (before ++ [c]) (b0 ++ [c])); [| simpl in Hlen; lia | done].
      by rewrite Hend.
Qed.

(** The call [x.replaceAll(token, token + ins)] inserts [ins] behind every
    occurrence of the token. *)
Lemma replaceAll_insert s :
  replaceAll token (token ++ ins) s = insert [] s.
Proof.
  unfold replaceAll. rewrite (insert_walk (length s) s [] []).
  - replace (ends_with token []) with false; [done|].
    symmetry. apply ends_with_false. by intros H%suffix_nil_inv.
  - done.
  - intros u v _ Hu _ Hsuf _. by apply suffix_nil_inv in Hsuf.
Qed.
End InsertAfter.

(** ** Script and style tagging *)

Lemma script_token_fresh : (60%N : N) ∉ lit "script".
Proof. apply (bool_decide_unpack _). by vm_compute. Qed.

Lemma style_token_fresh : (60%N : N) ∉ lit "style".
Proof. apply (bool_decide_unpack _). by vm_compute. Qed.



(** ** Inline style attributes *)

(** C2, the code at the failing input.  The nonce is written inside the value
    of the [style] attribute: the element gets no [nonce] attribute of its
    own and the value of [style] is changed. *)
Theorem inline_style_nonce_inside_value :
  transformIndexHtml (lit "abc")
    (lit "<div style=" ++ [DQUOTE] ++ lit "color:red" ++ [DQUOTE] ++ lit "></div>")
  = lit "<div style=" ++ [DQUOTE] ++ lit "nonce=" ++ [DQUOTE] ++ lit "abc" ++ [DQUOTE]
      ++ lit " color:red" ++ [DQUOTE] ++ lit "></div>".
Proof. by vm_compute. Qed.

(** ** Link tagging *)

Section WhileFacts.
Variable f : N → bool.
Implicit Types a b s : jsstr.

Lemma take_while_app a b :
  forallb f a = true → head_fails f b → take_while f (a ++ b) = a.
Proof.
  intros Ha Hb. induction a as [|c a IH]; simpl in *.
  - destruct b as [|c b]; [done|]. simpl in *. by rewrite Hb.
  - apply andb_true_iff in Ha as [-> Ha]. by rewrite IH.
Qed.

Lemma drop_while_app a b :
  forallb f a = true → head_fails f b → drop_while f (a ++ b) = b.
Proof.
  intros Ha Hb. induction a as [|c a IH]; simpl in *.
  - destruct b as [|c b]; [done|]. simpl in *. by rewrite Hb.
  - apply andb_true_iff in Ha as [-> Ha]. by rewrite IH.
Qed.

Lemma take_drop_while s : take_while f s ++ drop_while f s = s.
Proof.
  induction s as [|c s IH]; [done|]. simpl. destruct (f c); [|done].
  simpl. by rewrite IH.
Qed.

Lemma take_while_all s : forallb f (take_while f s) = true.
Proof.
  induction s as [|c s IH]; [done|]. simpl. destruct (f c) eqn:E; [|done].
  simpl. by rewrite E.
Qed.

Lemma drop_while_head s : head_fails f (drop_while f s).
Proof.
  induction s as [|c s IH]; [done|]. simpl. destruct (f c) eqn:E; [done|].
  exact E.
Qed.
End WhileFacts.

Section LinkElement.
Implicit Types nonce pre blanks attributes post s : jsstr.

Lemma linkRegex_element blanks attributes post :
  blanks ≠ [] → forallb is_space blanks = true →
  starts_blank attributes = false → forallb not_gt attributes = true →
  linkRegex (link_token ++ blanks ++ attributes ++ GT :: post)
  = Some (attributes,
          length link_token + length blanks + length attributes + 1).
Proof.
  intros Hne Hblanks Hstart Hattrs. unfold linkRegex.
  rewrite starts_with_app, drop_app_length.
  assert (Hhead : head_fails is_space (attributes ++ GT :: post)).
  { destruct attributes as [|c a]; [done | exact Hstart]. }
  rewrite (take_while_app is_space) by done.
  rewrite (drop_while_app is_space) by done.
  destruct blanks as [|b0 blanks]; [done|].
  rewrite (take_while_app not_gt) by done.
  by rewrite (drop_while_app not_gt) by done.
Qed.

(** A piece of text in front of a match, itself free of matches, is copied. *)
Lemma scan_unmatched_prefix {R} (m : jsstr → option (R * nat)) f pre :
  ∀ before s,
  (∀ a b, pre = a ++ b → b ≠ [] → m (b ++ s) = None) →
  scan m f before (pre ++ s) 0 = pre ++ scan m f (before ++ pre) s 0.
Proof.
  induction pre as [|c pre IH]; intros before s H.
  - by rewrite app_nil_r.
  - cbn [app]. rewrite scan_miss by (by apply (H [] (c :: pre))).
    f_equal. rewrite IH.
    + by rewrite <- app_assoc.
    + intros a b -> Hb. by apply (H (c :: a) b).
Qed.



End LinkElement.

Section TrimFacts.
Implicit Types s t a p : jsstr.


Lemma trim_end_snoc a c : is_space c = false → trim_end (a ++ [c]) = a ++ [c].
Proof.
  intros Hc. unfold trim_end. rewrite reverse_snoc. simpl. rewrite Hc.
  by rewrite reverse_cons, reverse_involutive.
Qed.

Lemma trim_start_fixed s : starts_blank s = false → trim_start s = s.
Proof. destruct s as [|c s]; [done|]. simpl. by intros ->. Qed.

Lemma trim_start_not_blank s : starts_blank (trim_start s) = false.
Proof.
  induction s as [|c s IH]; [done|]. simpl.
  destruct (is_space c) eqn:E; [done|]. simpl. exact E.
Qed.


(** Leading blanks are removed in front of a piece that starts with
    something else: the piece stays. *)
Lemma trim_start_keeps a p b :
  p ≠ [] → starts_blank p = false → occurs p (trim_start (a ++ p ++ b)).
Proof.
  intros Hp Hb. induction a as [|x a IH].
  - cbn [app]. rewrite trim_start_fixed.
    + by exists [], b.
    + destruct p; [done | exact Hb].
  - cbn [app trim_start]. destruct (is_space x); [done|].
    by exists (x :: a), b.
Qed.



Lemma slash_tail_chars s : slash_tail s = true → forallb blank_or_slash s = true.
Proof.
  unfold slash_tail. intros H.
  rewrite <- (take_drop_while is_space s), forallb_app.
  apply andb_true_iff. split.
  - pose proof (take_while_all is_space s) as Ht.
    apply forallb_forall. intros c Hin.
    rewrite forallb_forall in Ht. unfold blank_or_slash. by rewrite (Ht c Hin).
  - destruct (drop_while is_space s) as [|x r]; [done|].
    apply andb_true_iff in H as [Hx Hr]. simpl.
    unfold blank_or_slash at 1. rewrite Hx, orb_true_r. simpl.
    apply forallb_forall. intros c Hin.
    rewrite forallb_forall in Hr. unfold blank_or_slash. by rewrite (Hr c Hin).
Qed.

(** What [strip_self_closing] removes is a tail of blanks and slashes. *)
Lemma strip_split s :
  ∃ tail, s = strip_self_closing s ++ tail ∧ forallb blank_or_slash tail = true.
Proof.
  induction s as [|c s (tail & IH & Htail)]; cbn [strip_self_closing].
  - destruct (slash_tail []); by exists [].
  - destruct (slash_tail (c :: s)) eqn:E.
    + exists (c :: s). split; [done | by apply slash_tail_chars].
    + exists tail. split; [| done]. cbn [app]. by rewrite <- IH.
Qed.


Lemma strip_not_blank s :
  starts_blank s = false → starts_blank (strip_self_closing s) = false.
Proof.
  destruct s as [|c s]; cbn [strip_self_closing].
  - by destruct (slash_tail []).
  - by destruct (slash_tail (c :: s)).
Qed.


End TrimFacts.

Section LinkCallback.
Implicit Types nonce attributes : jsstr.

Local Abbreviation nonce_eq := (lit "nonce=").









End LinkCallback.




(** ** The bundle *)

Section BundleFacts.
Implicit Types (nonce : jsstr) (b acc : bundle) (c : chunk).




End BundleFacts.

(** ** The two link expressions compared *)

Section LazyCapture.
Implicit Types s a x post : jsstr.

Lemma not_gt_false c : not_gt c = false → c = GT.
Proof. unfold not_gt. intros H%negb_false_iff. by apply N.eqb_eq. Qed.

Lemma blanks_gt_spec x post :
  forallb not_gt x = true →
  blanks_gt (x ++ GT :: post)
  = if forallb is_space x then Some (length x + 1) else None.
Proof.
  intros Hx. unfold blanks_gt. destruct (forallb is_space x) eqn:Hsp.
  - rewrite (drop_while_app is_space), (take_while_app is_space) by done. done.
  - pose proof (take_drop_while is_space x) as Hsplit.
    pose proof (drop_while_head is_space x) as Hhead.
    destruct (drop_while is_space x) as [|y r].
    + rewrite app_nil_r in Hsplit.
      by rewrite <- Hsplit, take_while_all in Hsp.
    + rewrite <- Hsplit, forallb_app in Hx.
      apply andb_true_iff in Hx as [_ Hx]. cbn [forallb] in Hx.
      apply andb_true_iff in Hx as [Hy _].
      rewrite <- Hsplit, <- app_assoc.
      rewrite (drop_while_app is_space); [| apply take_while_all | exact Hhead].
      cbn [app]. unfold not_gt in Hy. apply negb_true_iff in Hy. by rewrite Hy.
Qed.

Lemma link_close_spec a post :
  forallb not_gt a = true →
  link_close (a ++ GT :: post)
  = if closing a then Some (length a + 1) else None.
Proof.
  intros Ha. destruct a as [|c r].
  - reflexivity.
  - cbn [app link_close closing]. destruct (c =? SLASH)%N.
    + cbn [forallb] in Ha. apply andb_true_iff in Ha as [_ Ha].
      rewrite blanks_gt_spec by done. by destruct (forallb is_space r).
    + exact (blanks_gt_spec (c :: r) post Ha).
Qed.

Lemma blanks_gt_none s : forallb not_gt s = true → blanks_gt s = None.
Proof.
  intros Hs. unfold blanks_gt.
  pose proof (take_drop_while is_space s) as Hsplit.
  destruct (drop_while is_space s) as [|y r]; [done|].
  rewrite <- Hsplit, forallb_app in Hs.
  apply andb_true_iff in Hs as [_ Hs]. cbn [forallb] in Hs.
  apply andb_true_iff in Hs as [Hy _].
  unfold not_gt in Hy. apply negb_true_iff in Hy. by rewrite Hy.
Qed.

Lemma link_close_none s : forallb not_gt s = true → link_close s = None.
Proof.
  intros Hs. destruct s as [|c r]; [done|]. cbn [link_close].
  destruct (c =? SLASH)%N.
  - cbn [forallb] in Hs. apply andb_true_iff in Hs as [_ Hs].
    by rewrite blanks_gt_none.
  - by apply blanks_gt_none.
Qed.

Lemma lazy_attributes_eq s :
  lazy_attributes s
  = match link_close s with
    | Some k => Some ([], k)
    | None =>
        match s with
        | c :: t =>
            if not_gt c then
              match lazy_attributes t with
              | Some (a, k) => Some (c :: a, S k)
              | None => None
              end
            else None
        | [] => None
        end
    end.
Proof. by destruct s. Qed.

Lemma lazy_attributes_none s :
  forallb not_gt s = true → lazy_attributes s = None.
Proof.
  induction s as [|c s IH]; intros Hs; rewrite lazy_attributes_eq;
    rewrite link_close_none by done; [done|].
  cbn [forallb] in Hs. apply andb_true_iff in Hs as [-> Hs]. by rewrite IH.
Qed.

(** The lazy capture in front of a [>] is the chopped attribute list; both
    groups together cover the attribute list and the [>]. *)
Lemma lazy_attributes_chop a post :
  forallb not_gt a = true →
  lazy_attributes (a ++ GT :: post) = Some (chop a, length a + 1).
Proof.
  induction a as [|c a IH]; intros Ha; rewrite lazy_attributes_eq;
    rewrite link_close_spec by done.
  - reflexivity.
  - cbn [chop]. destruct (closing (c :: a)); [done|].
    cbn [forallb] in Ha. apply andb_true_iff in Ha as [Hc Ha].
    cbn [app]. rewrite Hc, IH by done. done.
Qed.

Lemma bundleLinkRegex_chop s :
  bundleLinkRegex s
  = match linkRegex s with
    | Some (a, len) => Some (chop a, len)
    | None => None
    end.
Proof.
  unfold bundleLinkRegex, linkRegex.
  destruct (starts_with link_token s); [|done].
  destruct (take_while is_space (drop (length link_token) s)) as [|b0 blanks]; [done|].
  set (s2 := drop_while is_space (drop (length link_token) s)).
  pose proof (take_drop_while not_gt s2) as Hsplit.
  pose proof (take_while_all not_gt s2) as Hall.
  pose proof (drop_while_head not_gt s2) as Hhead.
  destruct (drop_while not_gt s2) as [|g post].
  - rewrite app_nil_r in Hsplit. rewrite <- Hsplit at 1.
    by rewrite lazy_attributes_none.
  - apply not_gt_false in Hhead as ->. rewrite <- Hsplit at 1.
    rewrite lazy_attributes_chop by done. do 2 f_equal. lia.
Qed.

Lemma scan_ext {R} (m1 m2 : jsstr → option (R * nat)) f :
  (∀ s, m1 s = m2 s) →
  ∀ s before k, scan m1 f before s k = scan m2 f before s k.
Proof.
  intros Hm. induction s as [|c s IH]; intros before k; cbn [scan].
  - by rewrite Hm.
  - destruct k; [|done]. rewrite Hm.
    destruct (m2 (c :: s)) as [[r [|?]]|]; by rewrite IH.
Qed.

Lemma scan_map_captures {R Q} (m : jsstr → option (R * nat)) (g : R → Q)
    (f : Q → jsstr → jsstr → jsstr) :
  ∀ s before k,
  scan (λ s, match m s with Some (r, len) => Some (g r, len) | None => None end)
       f before s k
  = scan m (λ r, f (g r)) before s k.
Proof.
  induction s as [|c s IH]; intros before k; cbn [scan].
  - by destruct (m []) as [[r [|?]]|].
  - destruct k; [|done].
    destruct (m (c :: s)) as [[r [|?]]|]; by rewrite IH.
Qed.

(** The link step of [generateBundle] is the link step of
    [transformIndexHtml] with the callback applied to the chopped
    attribute list. *)
Lemma bundle_replace_links_chop nonce s :
  bundle_replace_links nonce s
  = scan linkRegex (λ a _ _, link_callback nonce (chop a)) [] s 0.
Proof.
  unfold bundle_replace_links.
  rewrite (scan_ext _ _ _ bundleLinkRegex_chop).
  apply (scan_map_captures linkRegex chop (λ a _ _, link_callback nonce a)).
Qed.
End LazyCapture.






(** ** The policy and the headers *)

Lemma setHeader_if_app name value res :
  setHeader_if name value res = res ++ optional_header name value.
Proof. destruct value; [by rewrite app_nil_r | done]. Qed.

Lemma middleware_headers o nonce res :
  middleware o nonce res
  = res ++ (cspHeaderName o, csp o nonce) :: auxiliary_headers o.
Proof.
  unfold middleware, auxiliary_headers, setHeader.
  rewrite !setHeader_if_app, <- !app_assoc. done.
Qed.

(** C7.  Two runs of the middleware on options that differ in the
    report-only flag only give the policy header the same value and set the
    same other headers; the first header is named
    [Content-Security-Policy-Report-Only] when the flag is set and
    [Content-Security-Policy] otherwise. *)
Theorem report_only_selects_name (o : Options) (nonce : jsstr) (res : response) :
  csp (with_reportOnly true o) nonce = csp (with_reportOnly false o) nonce
  ∧ middleware (with_reportOnly true o) nonce res
    = res ++ (lit "Content-Security-Policy-Report-Only", csp o nonce)
          :: auxiliary_headers o
  ∧ middleware (with_reportOnly false o) nonce res
    = res ++ (lit "Content-Security-Policy", csp o nonce)
          :: auxiliary_headers o.
Proof.
  split; [reflexivity|]. split; by rewrite middleware_headers.
Qed.

(** ** The shared nonce *)



(** ** The policy string *)

Section Occurrences.
Implicit Types p s a b : jsstr.

Lemma occurrences_absent p s : includes p s = false → occurrences p s = 0.
Proof.
  induction s as [|c s IH]; [done|]. cbn [includes occurrences].
  intros [-> H]%orb_false_iff. by rewrite IH.
Qed.

(** A code unit that is not in [p] stops every attempt to read [p]. *)
Lemma starts_with_stop p a c b :
  c ∉ p → starts_with p (a ++ c :: b) = starts_with p a.
Proof.
  revert a. induction p as [|x p IH]; intros a Hc; [by destruct a|].
  apply not_elem_of_cons in Hc as [Hx Hc]. destruct a as [|y a]; simpl.
  - apply andb_false_iff. left. apply N.eqb_neq. congruence.
  - by rewrite IH.
Qed.

Lemma occurrences_stop p a c b :
  p ≠ [] → c ∉ p →
  occurrences p (a ++ c :: b) = occurrences p a + occurrences p b.
Proof.
  intros Hp Hc. induction a as [|y a IH].
  - pose proof (starts_with_stop p [] c b Hc) as H0. cbn [app] in H0.
    cbn [app occurrences]. rewrite H0. by destruct p.
  - pose proof (starts_with_stop p (y :: a) c b Hc) as H0. cbn [app] in H0.
    cbn [app occurrences]. rewrite H0, IH. cbn [occurrences]. lia.
Qed.

Lemma occurrences_join p clauses :
  p ≠ [] → 59%N ∉ p → 32%N ∉ p →
  occurrences p (join (lit "; ") clauses)
  = foldr (λ clause n, occurrences p clause + n) 0 clauses.
Proof.
  intros Hp Hsemi Hblank. induction clauses as [|x l IH]; [done|].
  destruct l as [|y l].
  - cbn [join foldr]. lia.
  - change (join (lit "; ") (x :: y :: l))
      with (x ++ 59%N :: ([] ++ 32%N :: join (lit "; ") (y :: l))).
    rewrite !occurrences_stop by done. cbn [foldr] in *. rewrite IH.
    cbn [occurrences]. lia.
Qed.

Lemma occurrences_clause p name value :
  p ≠ [] → 32%N ∉ p →
  occurrences p ((name ++ [32%N]) ++ value)
  = occurrences p name + occurrences p value.
Proof. intros Hp Hb. rewrite <- app_assoc. by apply occurrences_stop. Qed.
End Occurrences.

Section PolicyFacts.
Implicit Types (o : Options) (nonce p : jsstr).

Lemma csp_clauses_zip o nonce :
  csp_clauses o nonce
  = zip_with (λ name value, name ++ 32%N :: value)
      directive_names (directive_values o nonce)
    ++ [lit "upgrade-insecure-requests"].
Proof. reflexivity. Qed.

Lemma occurrences_clauses p tail names : ∀ values,
  p ≠ [] → 32%N ∉ p → length names = length values →
  Forall (λ v, occurrences p v = 0) values →
  foldr (λ clause n, occurrences p clause + n) 0
    (zip_with (λ name value, name ++ 32%N :: value) names values ++ tail)
  = foldr (λ clause n, occurrences p clause + n) 0 (names ++ tail).
Proof.
  intros values Hp Hb. revert values.
  induction names as [|name names IH]; intros [|v values] Hlen Hv; try done.
  apply Forall_cons in Hv as [Hv0 Hv]. cbn [zip_with app foldr].
  rewrite occurrences_stop by done. rewrite Hv0.
  rewrite IH; [lia | simpl in Hlen; lia | done].
Qed.

Lemma clean_values_absent o nonce name :
  values_clean o nonce = true → name ∈ directive_names →
  Forall (λ v, occurrences name v = 0) (directive_values o nonce).
Proof.
  unfold values_clean. rewrite forallb_forall. intros H Hname.
  apply Forall_forall. intros v Hv. apply occurrences_absent.
  apply list_elem_of_In in Hv. specialize (H v Hv).
  rewrite forallb_forall in H. apply list_elem_of_In in Hname.
  by apply negb_true_iff, H.
Qed.

Lemma directive_name_shape name :
  name ∈ directive_names →
  name ≠ [] ∧ (59%N ∉ name) ∧ (32%N ∉ name)
  ∧ foldr (λ clause n, occurrences name clause + n) 0
      (directive_names ++ [lit "upgrade-insecure-requests"]) = 1.
Proof.
  unfold directive_names. intros H.
  repeat (apply elem_of_cons in H as [-> | H]);
    [.. | by apply elem_of_nil in H];
    (split; [done|]; split; [|split]);
    try (apply (bool_decide_unpack _); vm_compute; exact I);
    vm_compute; reflexivity.
Qed.

Lemma csp_one_occurrence o nonce name :
  values_clean o nonce = true → name ∈ directive_names →
  occurrences name (csp o nonce) = 1.
Proof.
  intros Hclean Hname.
  destruct (directive_name_shape name Hname) as (Hne & Hsemi & Hblank & Hsum).
  unfold csp. rewrite occurrences_join by done.
  rewrite csp_clauses_zip, occurrences_clauses; try done.
  by apply clean_values_absent.
Qed.
End PolicyFacts.

(** C6, as amended.  For every configuration and every nonce the policy is
    the twelve directive clauses in the fixed order, each made of the name of
    the directive, a blank and its value, joined with a semicolon and a
    blank, and ended by the clause [upgrade-insecure-requests]; the values
    of [script-src] and [style-src] are the configured function applied to
    the nonce if there is one and ['self' 'nonce-] followed by the nonce and
    an apostrophe otherwise.  If no directive value contains a directive
    name, the policy contains exactly one occurrence of each of the twelve
    directive names. *)
Theorem policy_string (o : Options) (nonce : jsstr) :
  csp o nonce
  = lit "default-src " ++ defaultSrc o
    ++ lit "; script-src " ++ scriptSrcValue o nonce
    ++ lit "; style-src " ++ styleSrcValue o nonce
    ++ lit "; img-src " ++ imgSrc o
    ++ lit "; font-src " ++ fontSrc o
    ++ lit "; object-src " ++ objectSrc o
    ++ lit "; base-uri " ++ baseUri o
    ++ lit "; frame-src " ++ frameSrc o
    ++ lit "; form-action " ++ formAction o
    ++ lit "; frame-ancestors " ++ frameAncestors o
    ++ lit "; worker-src " ++ workerSrc o
    ++ lit "; connect-src " ++ connectSrc o
    ++ lit "; upgrade-insecure-requests"
  ∧ scriptSrcValue o nonce
    = match scriptSrc o with
      | Some f => f nonce
      | None => lit "'self' 'nonce-" ++ nonce ++ lit "'"
      end
  ∧ styleSrcValue o nonce
    = match styleSrc o with
      | Some f => f nonce
      | None => lit "'self' 'nonce-" ++ nonce ++ lit "'"
      end
  ∧ (values_clean o nonce = true →
     ∀ name, name ∈ directive_names → occurrences name (csp o nonce) = 1).
Proof.
  split; [|split; [|split]].
  - unfold csp, csp_clauses. cbn [join]. by rewrite <- !app_assoc.
  - reflexivity.
  - reflexivity.
  - intros Hclean name Hname. by apply csp_one_occurrence.
Qed.

Lemma policy_string_witness :
  values_clean default_options (lit "abc") = true
  ∧ occurrences (lit "script-src") (csp default_options (lit "abc")) = 1.
Proof.
  split; [vm_compute; reflexivity|].
  refine (proj2 (proj2 (proj2 (policy_string default_options (lit "abc")))) _ _ _).
  - vm_compute; reflexivity.
  - apply (bool_decide_unpack _). vm_compute. exact I.
Defined.

(** C6 as stated fails when a directive value contains a directive name:
    with [default-src] set to ['self' https://img-src.example] the policy
    contains [img-src] twice. *)
Lemma policy_name_in_value_counterexample :
  occurrences (lit "img-src") (csp name_in_value_options (lit "abc")) = 2.
Proof. vm_compute. reflexivity. Qed.

(** ** Documents without a closing head tag *)

Section OccursFacts.
Implicit Types p a b s u v : jsstr.

Lemma occurs_app_cases p a b :
  occurs p (a ++ b) →
  occurs p a ∨ occurs p b
  ∨ ∃ u v, p = u ++ v ∧ u ≠ [] ∧ v ≠ [] ∧ u `suffix_of` a ∧ v `prefix_of` b.
Proof.
  intros (x & y & H). apply app_eq_inv in H as [(k & -> & H) | (k & -> & ->)].
  - symmetry in H. apply app_eq_inv in H as [(k' & -> & ->) | (k' & -> & ->)].
    + left. by exists x, k'.
    + destruct k as [|k0 k].
      { right. left. by exists [], y. }
      destruct k' as [|k1 k'].
      { left. exists x, []. by rewrite !app_nil_r. }
      right. right. exists (k0 :: k), (k1 :: k').
      repeat split; try done.
      * by exists x.
      * by exists y.
  - right. left. by exists k, y.
Qed.

Lemma occurs_cons_inv p c s :
  occurs p (c :: s) → p `prefix_of` c :: s ∨ occurs p s.
Proof.
  intros (x & y & H). destruct x as [|x0 x]; simpl in H.
  - left. by exists y.
  - right. injection H as _ ->. by exists x, y.
Qed.

Lemma occurs_elem c p s : occurs (c :: p) s → c ∈ s.
Proof.
  intros (x & y & ->). apply elem_of_app. right. by left.
Qed.

Lemma suffix_elem a u x : u `suffix_of` a → x ∈ u → x ∈ a.
Proof. intros [k ->] H. apply elem_of_app. by right. Qed.

Lemma prefix_elem a u x : u `prefix_of` a → x ∈ u → x ∈ a.
Proof. intros [k ->] H. apply elem_of_app. by left. Qed.


Lemma trim_start_suffix s : trim_start s `suffix_of` s.
Proof.
  induction s as [|c s IH]; [done|]. simpl. destruct (is_space c); [|done].
  by apply suffix_cons_r.
Qed.


End OccursFacts.

Section Inserted.
Variables (tok ins : jsstr) (i0 : N) (ins' : jsstr).
Hypothesis tok_ne : tok ≠ [].
Hypothesis ins_eq : ins = i0 :: ins'.
Hypothesis plain : plain_template (tok ++ ins) = true.

Lemma replaceAll_inserted n : ∀ s b0,
  length s ≤ n →
  inserted tok ins s
    (scan (literal_matcher tok) (literal_replacement tok (tok ++ ins)) b0 s 0).
Proof.
  induction n as [|n IH]; intros s b0 Hlen.
  - destruct s; [|simpl in Hlen; lia]. simpl.
    destruct tok; [done|]. constructor.
  - destruct s as [|c t].
    { simpl. destruct tok; [done|]. constructor. }
    destruct (starts_with tok (c :: t)) eqn:Hm.
    + pose proof (starts_with_split _ _ Hm) as Hs.
      destruct tok as [|t0 tok'] eqn:Htok; [done|]. rewrite <- Htok in *.
      assert (Hlt : length tok = S (length tok')) by (by rewrite Htok).
      assert (Hrest : length (c :: t) = length tok + length (drop (length tok) (c :: t)))
        by (by rewrite Hs at 1; rewrite length_app).
      rewrite (scan_match _ _ b0 (c :: t) tt (length tok'));
        [| by unfold literal_matcher; rewrite Hm, Hlt
         | change (length (c :: t)) with (S (length t)) in *; lia].
      unfold literal_replacement at 1.
      rewrite GetSubstitution_plain by exact plain.
      rewrite <- Hlt, <- app_assoc. rewrite Hs at 1.
      apply inserted_match, IH.
      change (length (c :: t)) with (S (length t)) in Hrest, Hlen. lia.
    + rewrite scan_miss by (by unfold literal_matcher; rewrite Hm).
      apply inserted_miss; [done|]. apply IH. simpl in Hlen. lia.
Qed.

Lemma inserted_prefix s out :
  inserted tok ins s out →
  ∀ q, i0 ∉ q → q `prefix_of` out → q `prefix_of` s.
Proof.
  induction 1 as [|rest out _ _|c t out Hmiss _ IH]; intros q Hq Hpre.
  - done.
  - assert (Htok : tok `prefix_of` tok ++ ins ++ out) by (by eexists).
    destruct (prefix_weak_total _ _ _ Hpre Htok) as [H | [k ->]].
    + by apply prefix_app_r.
    + apply prefix_app_inv in Hpre. destruct k as [|k0 k].
      * rewrite app_nil_r. by apply prefix_app_r.
      * rewrite ins_eq in Hpre. apply prefix_cons_inv_1 in Hpre as ->.
        exfalso. apply Hq, elem_of_app. right. by left.
  - destruct q as [|q0 q]; [apply prefix_nil|].
    pose proof (prefix_cons_inv_1 _ _ _ _ Hpre) as ->.
    apply prefix_cons, IH.
    + intros Hin. apply Hq. by right.
    + by apply prefix_cons_inv_2 in Hpre.
Qed.

(** An insertion cannot complete a piece of text that neither starts
    inside the inserted text nor holds its first code unit. *)
Lemma inserted_occurs p0 p' s out :
  inserted tok ins s out →
  p0 ∉ ins → i0 ∉ p0 :: p' →
  occurs (p0 :: p') out → occurs (p0 :: p') s.
Proof.
  intros Hins Hp0 Hi0. induction Hins as [|rest out Hins IH|c t out Hmiss Hins IH];
    intros Hocc.
  - done.
  - apply occurs_app_cases in Hocc
      as [H | [H | (u & v & Huv & Hu & Hv & Hsuf & Hpre)]].
    + by apply occurs_app_l.
    + apply occurs_app_cases in H
        as [H | [H | (u & v & Huv & Hu & Hv & Hsuf & Hpre)]].
      * by apply occurs_elem in H.
      * by apply occurs_app_r, IH.
      * destruct u as [|u0 u]; [done|]. injection Huv as -> _.
        exfalso. apply Hp0. apply (suffix_elem _ _ _ Hsuf). by left.
    + destruct v as [|v0 v]; [done|]. rewrite ins_eq in Hpre.
      apply prefix_cons_inv_1 in Hpre as ->.
      exfalso. apply Hi0. rewrite Huv. apply elem_of_app. right. by left.
  - apply occurs_cons_inv in Hocc as [H | H].
    + apply occurs_prefix.
      apply (inserted_prefix (c :: t) (c :: out)); [by constructor | done | done].
    + by apply occurs_cons, IH.
Qed.
End Inserted.

Section LinksReplaced.
Implicit Types nonce s a out : jsstr.

Lemma linkRegex_inv s a len :
  linkRegex s = Some (a, len) →
  ∃ blanks rest,
    s = link_token ++ blanks ++ a ++ GT :: rest
    ∧ len = S (length link_token + length blanks + length a)
    ∧ forallb not_gt a = true.
Proof.
  unfold linkRegex. destruct (starts_with link_token s) eqn:Hm; [|done].
  apply starts_with_split in Hm.
  set (s1 := drop (length link_token) s) in *.
  pose proof (take_drop_while is_space s1) as H1.
  destruct (take_while is_space s1) as [|b0 blanks] eqn:Hb; [done|].
  set (s2 := drop_while is_space s1) in *.
  pose proof (take_drop_while not_gt s2) as H2.
  pose proof (take_while_all not_gt s2) as Hall.
  pose proof (drop_while_head not_gt s2) as Hhead.
  destruct (drop_while not_gt s2) as [|g rest]; [done|].
  apply not_gt_false in Hhead as ->.
  intros [= <- <-]. exists (b0 :: blanks), rest.
  split; [|split; [change (length link_token) with 5; simpl; lia | done]].
  by rewrite H2, H1.
Qed.



Lemma no_lt_elem s : no_lt s = true → 60%N ∉ s.
Proof.
  unfold no_lt. rewrite forallb_forall. intros H Hin.
  apply list_elem_of_In in Hin. specialize (H _ Hin).
  by rewrite N.eqb_refl in H.
Qed.





Lemma nonce_attribute_no_lt nonce : no_lt nonce = true → 60%N ∉ nonce_attribute nonce.
Proof.
  intros H. apply no_lt_elem. unfold nonce_attribute, no_lt in *.
  by rewrite !forallb_app, H.
Qed.



End LinksReplaced.

Section NoClosingHead.
Implicit Types nonce s document : jsstr.


Lemma plain_style_attr_template nonce :
  plain_template nonce = true → plain_template (style_attr_template nonce) = true.
Proof.
  intros Hn. unfold style_attr_template.
  change (plain_template (nonce ++ [DQUOTE; 32%N]) = true).
  by apply plain_template_app.
Qed.





End NoClosingHead.




(** ** Tag tokens in the document returned *)

Section Followed.
Variables T A : jsstr.
Implicit Types s t w x y : jsstr.

Lemma followed_good a t : followed T A (a ++ t) → good_start T A t.
Proof.
  intros H [k ->]. apply prefix_app, (H a k). done.
Qed.

Lemma followed_tail a s : followed T A (a ++ s) → followed T A s.
Proof.
  intros H x y ->. apply (H (a ++ x) y). by rewrite <- app_assoc.
Qed.

Lemma followed_nil : T ≠ [] → followed T A [].
Proof.
  intros HT a b H. symmetry in H. apply app_eq_nil in H as [_ H].
  apply app_eq_nil in H as [H _]. done.
Qed.

Lemma followed_cons c s :
  good_start T A (c :: s) → followed T A s → followed T A (c :: s).
Proof.
  intros Hg Hs a b H. destruct a as [|a0 a]; simpl in H.
  - assert (Hp : T `prefix_of` c :: s) by (by exists b).
    apply Hg in Hp. rewrite H in Hp. by apply prefix_app_inv in Hp.
  - injection H as _ H. by apply (Hs a b).
Qed.

(** A text put in front of a text that has the property keeps it if each of
    its tails makes a good start. *)
Lemma followed_app w y :
  (∀ x, x ≠ [] → x `suffix_of` w → good_start T A (x ++ y)) →
  followed T A y → followed T A (w ++ y).
Proof.
  intros Hw Hy. induction w as [|c w IH]; [done|].
  cbn [app]. apply followed_cons.
  - apply (Hw (c :: w)); done.
  - apply IH. intros x Hx Hsuf. apply Hw; [done|]. by apply suffix_cons_r.
Qed.

Lemma compatible_prefix x y : T `prefix_of` x ++ y → compatible T x = true.
Proof.
  intros H. assert (Hx : x `prefix_of` x ++ y) by (by exists y).
  unfold compatible. apply orb_true_iff.
  destruct (prefix_weak_total _ _ _ H Hx) as [H' | H'].
  - left. by apply starts_with_prefix.
  - right. by apply starts_with_prefix.
Qed.

Lemma no_start_suffix w x y :
  no_start T w = true → x ≠ [] → x `suffix_of` w → ¬ T `prefix_of` x ++ y.
Proof.
  intros Hw Hx Hsuf Hp. apply compatible_prefix in Hp.
  destruct x as [|x0 x]; [done|]. clear Hx.
  induction w as [|c w IH].
  - by apply suffix_nil_inv in Hsuf.
  - cbn [no_start] in Hw. apply andb_true_iff in Hw as [Hc Hw].
    apply suffix_cons_inv in Hsuf as [Heq | Hsuf].
    + rewrite Heq in Hp. by rewrite Hp in Hc.
    + by apply IH.
Qed.

Lemma followed_app_no_start w y :
  no_start T w = true → followed T A y → followed T A (w ++ y).
Proof.
  intros Hw. apply followed_app. intros x Hx Hsuf Hp.
  by apply (no_start_suffix w x y) in Hp.
Qed.

(** A text without the first code unit of the token starts no occurrence. *)
Lemma no_start_fresh (c0 : N) T' w : T = c0 :: T' → c0 ∉ w → no_start T w = true.
Proof.
  intros -> Hw. induction w as [|c w IH]; [done|].
  apply not_elem_of_cons in Hw as [Hc Hw]. cbn [no_start].
  rewrite IH by done. rewrite andb_true_r. apply negb_true_iff.
  unfold compatible. simpl. apply N.eqb_neq in Hc.
  rewrite Hc. simpl. rewrite N.eqb_sym, Hc. done.
Qed.
End Followed.

Section InsertedFollowed.
Variables T A : jsstr.
Implicit Types s out q x y : jsstr.

Lemma suffix_app_cases x w1 w2 :
  x `suffix_of` w1 ++ w2 →
  x `suffix_of` w2 ∨ ∃ x1, x1 ≠ [] ∧ x1 `suffix_of` w1 ∧ x = x1 ++ w2.
Proof.
  intros [k Hk]. apply app_eq_inv in Hk as [(k' & -> & ->) | (k' & -> & ->)].
  - destruct k' as [|k0 k'].
    + left. done.
    + right. exists (k0 :: k'). split; [done|]. split; [by exists k | done].
  - left. by exists k'.
Qed.

Lemma starts_nowhere_no_start w : no_start T w = true → starts_nowhere T w.
Proof. intros H x y Hx Hsuf. by apply (no_start_suffix T w). Qed.

Lemma starts_nowhere_app w1 w2 :
  (∀ x1 y, x1 ≠ [] → x1 `suffix_of` w1 → ¬ T `prefix_of` x1 ++ w2 ++ y) →
  starts_nowhere T w2 → starts_nowhere T (w1 ++ w2).
Proof.
  intros H1 H2 x y Hx [Hsuf | (x1 & Hx1 & Hsuf & ->)]%suffix_app_cases.
  - by apply H2.
  - rewrite <- app_assoc. by apply H1.
Qed.

Lemma followed_app_nowhere w y :
  starts_nowhere T w → followed T A y → followed T A (w ++ y).
Proof.
  intros Hw. apply followed_app. intros x Hx Hsuf Hp. by apply (Hw x y) in Hp.
Qed.

(** A beginning of the document that no occurrence of the token ends
    strictly inside is a beginning of the result. *)
Lemma inserted_keeps_prefix tok ins s out :
  inserted tok ins s out →
  ∀ q, q `prefix_of` s → (∀ a b, q = a ++ tok ++ b → b = []) → q `prefix_of` out.
Proof.
  induction 1 as [|rest out _ _|c t out Hmiss _ IH]; intros q Hpre Hq.
  - done.
  - assert (Htok : tok `prefix_of` tok ++ rest) by (by eexists).
    destruct (prefix_weak_total _ _ _ Hpre Htok) as [H | [k ->]].
    + by apply prefix_app_r.
    + rewrite (Hq [] k eq_refl), app_nil_r. by apply prefix_app_r.
  - destruct q as [|q0 q]; [apply prefix_nil|].
    pose proof (prefix_cons_inv_1 _ _ _ _ Hpre) as ->.
    apply prefix_cons, IH.
    + by apply prefix_cons_inv_2 in Hpre.
    + intros a b ->. by apply (Hq (c :: a) b).
Qed.

(** The walk that inserts [A] behind [T] leaves every [T] followed by [A]. *)
Lemma inserted_followed_own (i0 : N) A' s out :
  T ≠ [] → A = i0 :: A' → i0 ∉ T →
  (∀ x y, x ≠ [] → x `suffix_of` T ++ A → x ≠ T ++ A → ¬ T `prefix_of` x ++ y) →
  inserted T A s out → followed T A out.
Proof.
  intros HT HA Hi0 Hinside.
  induction 1 as [|rest out _ IH|c t out Hmiss Hins IH].
  - by apply followed_nil.
  - rewrite app_assoc. apply followed_app; [|done].
    intros x Hx Hsuf Hp. destruct (decide (x = T ++ A)) as [-> | Hne].
    + by exists out.
    + by apply Hinside in Hp.
  - apply followed_cons; [|done]. intros Hp. exfalso.
    apply (proj1 (starts_with_false _ _) Hmiss).
    apply (inserted_prefix T A i0 A' HA (c :: t) (c :: out));
      [by apply inserted_miss | done | done].
Qed.

(** The walk that inserts [ins] behind [tok] keeps every [T] followed by
    [A], if no [T] starts inside the inserted text and no [tok] ends inside
    [T] and its [A]. *)
Lemma inserted_followed tok ins (i0 : N) ins' s out :
  ins = i0 :: ins' → i0 ∉ T →
  starts_nowhere T (tok ++ ins) →
  (∀ a b, T ++ A = a ++ tok ++ b → b = []) →
  inserted tok ins s out → followed T A s → followed T A out.
Proof.
  intros Hins Hi0 Hnowhere Hend.
  induction 1 as [|rest out _ IH|c t out Hmiss Hi IH]; intros Hs.
  - done.
  - rewrite app_assoc. apply followed_app_nowhere; [done|].
    apply IH. by apply followed_tail in Hs.
  - apply followed_cons.
    + intros Hp.
      apply (inserted_keeps_prefix tok ins (c :: t) (c :: out));
        [by apply inserted_miss | | done].
      apply (followed_good T A [] (c :: t) Hs).
      apply (inserted_prefix tok ins i0 ins' Hins (c :: t) (c :: out));
        [by apply inserted_miss | done | done].
    + apply IH. by apply (followed_tail T A [c]).
Qed.
End InsertedFollowed.

Section PrefixFacts.
Implicit Types p x y k tl : jsstr.

Lemma prefix_stop p x (c : N) y :
  c ∉ p → p `prefix_of` x ++ c :: y → p `prefix_of` x.
Proof.
  intros Hc H. apply starts_with_prefix. apply starts_with_prefix in H.
  by rewrite starts_with_stop in H.
Qed.

(** A text that ends with [q] and begins a text followed by a tail without
    [q] lies within the text. *)
Lemma prefix_cut p0 (q : N) k tl :
  q ∉ tl → p0 ++ [q] `prefix_of` k ++ tl → p0 ++ [q] `prefix_of` k.
Proof.
  intros Hq H. assert (Hk : k `prefix_of` k ++ tl) by (by exists tl).
  destruct (prefix_weak_total _ _ _ H Hk) as [H' | [j Hj]]; [done|].
  rewrite Hj in H. apply prefix_app_inv in H.
  destruct j as [|j0 j _] using rev_ind.
  - rewrite app_nil_r in Hj. rewrite Hj. done.
  - rewrite app_assoc in Hj. apply app_inj_tail in Hj as [_ ->].
    exfalso. apply Hq. apply (prefix_elem _ _ _ H).
    apply elem_of_app. right. by left.
Qed.

Lemma forallb_not_elem (f : N → bool) (q : N) tl :
  forallb f tl = true → f q = false → q ∉ tl.
Proof.
  rewrite forallb_forall. intros H Hq Hin. apply list_elem_of_In in Hin.
  specialize (H q Hin). congruence.
Qed.

Lemma trim_start_split x :
  ∃ lead, x = lead ++ trim_start x ∧ forallb is_space lead = true.
Proof.
  induction x as [|c x (lead & IH & Hlead)].
  - by exists [].
  - simpl. destruct (is_space c) eqn:E.
    + exists (c :: lead). split; [by rewrite IH at 1 | by simpl; rewrite E].
    + by exists [].
Qed.

Lemma forallb_reverse (f : N → bool) x :
  forallb f (reverse x) = forallb f x.
Proof.
  induction x as [|c x IH]; [done|].
  rewrite reverse_cons, forallb_app, IH. simpl. rewrite andb_true_r.
  apply andb_comm.
Qed.

(** [trim] removes blanks at both ends and nothing else. *)
Lemma trim_split x :
  ∃ lead trail, x = lead ++ trim x ++ trail
    ∧ forallb is_space lead = true ∧ forallb is_space trail = true.
Proof.
  destruct (trim_start_split x) as (lead & Hx & Hlead).
  destruct (trim_start_split (reverse (trim_start x))) as (l2 & H2 & Hl2).
  exists lead, (reverse l2). split; [|split; [done | by rewrite forallb_reverse]].
  rewrite Hx at 1. f_equal. unfold trim, trim_end.
  rewrite <- reverse_app, <- H2. by rewrite reverse_involutive.
Qed.
End PrefixFacts.

Section LinksFollowed.
Variables (T' nonce : jsstr).
Local Abbreviation T := (60%N :: T').
Local Abbreviation A := (nonce_attribute nonce).
Hypothesis T_fresh : 60%N ∉ T'.
Hypothesis T_blank : 32%N ∉ T.
Hypothesis T_gt : GT ∉ T.
Hypothesis T_link : no_start T (lit "<link ") = true.
Hypothesis nonce_tame : tame nonce = true.
Implicit Types s out x z k : jsstr.

Lemma tame_no_lt : no_lt nonce = true.
Proof.
  unfold tame, no_lt in *. rewrite forallb_forall in *. intros c Hc.
  specialize (nonce_tame c Hc). apply negb_true_iff in nonce_tame.
  apply negb_true_iff. by apply orb_false_iff in nonce_tame as [[? ?]%orb_false_iff ?].
Qed.

Lemma tame_not_elem (c : N) :
  ((c =? 60) || (c =? GT) || (c =? DQUOTE))%N = true → c ∉ nonce.
Proof.
  intros Hc Hin. unfold tame in nonce_tame. rewrite forallb_forall in nonce_tame.
  apply list_elem_of_In in Hin. specialize (nonce_tame c Hin).
  by rewrite Hc in nonce_tame.
Qed.

Lemma attribute_no_lt : 60%N ∉ A.
Proof. apply nonce_attribute_no_lt, tame_no_lt. Qed.

Lemma attribute_no_gt : GT ∉ A.
Proof.
  unfold nonce_attribute. rewrite !elem_of_app.
  intros [H | [H | [H | H]]].
  - revert H. apply (bool_decide_unpack _). vm_compute. exact I.
  - revert H. apply (bool_decide_unpack _). vm_compute. exact I.
  - revert H. by apply tame_not_elem.
  - revert H. apply (bool_decide_unpack _). vm_compute. exact I.
Qed.

Lemma attribute_snoc : A = (lit " nonce=" ++ [DQUOTE] ++ nonce) ++ [DQUOTE].
Proof. unfold nonce_attribute. by rewrite <- !app_assoc. Qed.


(** An occurrence of the token in the attribute list with the nonce
    attribute appended lies in the attribute list. *)
Lemma token_before_attribute S E P z :
  E = A ∨ E = [] → S ++ E = P ++ T ++ z → ∃ k, S = P ++ T ++ k ∧ z = k ++ E.
Proof.
  intros HE H. rewrite (app_assoc P) in H.
  apply app_eq_inv in H as [(k & -> & ->) | (k & Hk & ->)].
  - exists k. by rewrite <- app_assoc.
  - destruct k as [|k0 k].
    + exists []. rewrite app_nil_r in Hk. by rewrite <- Hk, app_nil_r.
    + exfalso. destruct HE as [HE | HE]; [|done].
      assert (Hk0 : k0 = 32%N) by (by injection HE as ->).
      assert (Hsuf : (k0 :: k) `suffix_of` P ++ T) by (by exists S).
      apply suffix_app_cases in Hsuf as [Hsuf | (x1 & Hx1 & _ & Hx)].
      * apply T_blank. apply (suffix_elem _ _ _ Hsuf). rewrite Hk0. by left.
      * apply attribute_no_lt. rewrite <- HE, Hx.
        apply elem_of_app. left. apply elem_of_app. right. by left.
Qed.


End LinksFollowed.

Section ShimFollowed.
Variables (T' nonce : jsstr).
Local Abbreviation T := (60%N :: T').
Local Abbreviation A := (nonce_attribute nonce).
Hypothesis T_fresh : 60%N ∉ T'.
Hypothesis T_newline : 10%N ∉ T.
Hypothesis nonce_tame : tame nonce = true.
Hypothesis nonce_plain : plain_template nonce = true.
Hypothesis T_part0 : ∀ y,
  followed T A (quoted nonce ++ y) → followed T A (shim_part0 ++ quoted nonce ++ y).
Hypothesis T_part1 : no_start T shim_part1 = true.
Hypothesis T_part2 : no_start T shim_part2 = true.
Hypothesis T_part3 : no_start T shim_part3 = true.
Hypothesis T_part4 : no_start T shim_part4 = true.
Implicit Types s pre post y : jsstr.

Lemma plain_quoted y :
  plain_template y = true → plain_template (quoted nonce ++ y) = true.
Proof.
  intros Hy. unfold quoted. rewrite <- !app_assoc.
  change (plain_template (nonce ++ DQUOTE :: y) = true).
  by apply plain_template_app.
Qed.

Lemma plain_part p y :
  plain_template p = true → plain_template y = true →
  plain_template (p ++ quoted nonce ++ y) = true.
Proof.
  intros Hp Hy. apply plain_template_app; [done | by apply plain_quoted | done].
Qed.

Lemma plain_shim : plain_template (injectNonceScript nonce ++ head_close) = true.
Proof.
  unfold injectNonceScript. rewrite <- !app_assoc.
  repeat (apply plain_part; [vm_compute; reflexivity|]).
  vm_compute. reflexivity.
Qed.





End ShimFollowed.

Section TokensFollowed.
Variable nonce : jsstr.
Hypothesis nonce_plain : plain_template nonce = true.
Hypothesis nonce_tame : tame nonce = true.
Local Abbreviation A := (nonce_attribute nonce).
Implicit Types s x y a b : jsstr.

Lemma own_inside T' x y :
  60%N ∉ T' → x ≠ [] → x `suffix_of` (60%N :: T') ++ A → x ≠ (60%N :: T') ++ A →
  ¬ (60%N :: T') `prefix_of` x ++ y.
Proof.
  intros HT Hx Hsuf Hne Hp. destruct x as [|x0 x]; [done|].
  apply prefix_cons_inv_1 in Hp as <-.
  apply suffix_cons_inv in Hsuf as [H | H]; [done|].
  assert (Hin : 60%N ∈ T' ++ A). { apply (suffix_elem _ _ _ H). by left. }
  apply elem_of_app in Hin as [Hin | Hin]; [done|].
  by apply (attribute_no_lt nonce nonce_tame).
Qed.

(** In a tag token and its attribute the only [<] is the first code unit. *)
Lemma head_only T' tok' a b :
  60%N ∉ T' → (60%N :: T') ++ A = a ++ (60%N :: tok') ++ b → a = [].
Proof.
  intros HT H. destruct a as [|a0 a]; [done|]. exfalso.
  injection H as _ H.
  assert (Hin : 60%N ∈ T' ++ A).
  { rewrite H. apply elem_of_app. right. by left. }
  apply elem_of_app in Hin as [Hin | Hin]; [done|].
  by apply (attribute_no_lt nonce nonce_tame) in Hin.
Qed.

Lemma attribute_nowhere T' : starts_nowhere (60%N :: T') A.
Proof.
  apply starts_nowhere_no_start, (no_start_fresh _ 60%N T'); [done|].
  apply (attribute_no_lt nonce nonce_tame).
Qed.

Lemma style_attr_insertion_nowhere T' :
  starts_nowhere (60%N :: T') (style_attr_token ++ (style_attr_insertion nonce)).
Proof.
  apply starts_nowhere_no_start, (no_start_fresh _ 60%N T'); [done|].
  unfold style_attr_token, style_attr_insertion. rewrite !elem_of_app.
  intros [[H|H] | [H | [H | [H | [H | H]]]]]; revert H;
    try (apply (bool_decide_unpack _); vm_compute; exact I).
  by apply (tame_not_elem nonce nonce_tame).
Qed.

(** The token of the inline style step ends inside a tag token and its
    attribute at their end only. *)
Lemma style_attr_at_end T' a b :
  DQUOTE ∉ 60%N :: T' →
  (60%N :: T') ++ A = a ++ style_attr_token ++ b → b = [].
Proof.
  intros HT H.
  assert (Hq : DQUOTE ∉ ((60%N :: T') ++ [32%N]) ++ lit "nonce=").
  { rewrite !elem_of_app. intros [[Hin | Hin] | Hin]; [done | |];
      revert Hin; apply (bool_decide_unpack _); vm_compute; exact I. }
  assert (Hne : ∀ l, l ++ lit "style=" ≠ ((60%N :: T') ++ [32%N]) ++ lit "nonce=").
  { intros l Hl. by apply app_inj_2 in Hl as [_ Hl]. }
  replace ((60%N :: T') ++ A)
    with ((((60%N :: T') ++ [32%N]) ++ lit "nonce=") ++ DQUOTE :: (nonce ++ [DQUOTE])) in H
    by (unfold nonce_attribute; by rewrite <- !app_assoc).
  replace (a ++ style_attr_token ++ b)
    with ((a ++ lit "style=") ++ DQUOTE :: b) in H
    by (unfold style_attr_token; by rewrite <- !app_assoc).
  apply app_eq_inv in H as [(k & Hk & H) | (k & Hk & H)].
  - destruct k as [|k0 k].
    + rewrite app_nil_r in Hk. symmetry in Hk. by apply Hne in Hk.
    + injection H as <- _. exfalso. apply Hq. rewrite Hk.
      apply elem_of_app. right. by left.
  - destruct k as [|k0 k].
    + rewrite app_nil_r in Hk. by apply Hne in Hk.
    + injection H as _ H. destruct b as [|b0 b _] using rev_ind; [done|].
      exfalso. rewrite app_comm_cons, app_assoc in H.
      apply app_inj_tail in H as [H _].
      apply (tame_not_elem nonce nonce_tame DQUOTE); [done|].
      rewrite H. apply elem_of_app. right. by left.
Qed.

Lemma followed_tag_style_attributes T' s :
  110%N ∉ 60%N :: T' → DQUOTE ∉ 60%N :: T' →
  followed (60%N :: T') A s →
  followed (60%N :: T') A (tag_style_attributes nonce s).
Proof.
  intros Hn Hq.
  apply (inserted_followed _ _ style_attr_token (style_attr_insertion nonce) 110%N
           (lit "once=" ++ [DQUOTE] ++ nonce ++ [DQUOTE] ++ lit " ")).
  - done.
  - done.
  - apply style_attr_insertion_nowhere.
  - intros a b. by apply style_attr_at_end.
  - apply (replaceAll_inserted style_attr_token (style_attr_insertion nonce)
             ltac:(done) (plain_style_attr_template nonce nonce_plain)
             (length s) s [] (Nat.le_refl _)).
Qed.


Lemma followed_tag_scripts s :
  followed script_token A (tag_scripts nonce s).
Proof.
  apply (inserted_followed_own script_token A 32%N
           (lit "nonce=" ++ [DQUOTE] ++ nonce ++ [DQUOTE]) s); try done.
  - apply (bool_decide_unpack _). vm_compute. exact I.
  - intros x y. apply own_inside. apply script_token_fresh.
  - apply (replaceAll_inserted script_token A
             ltac:(done) (plain_script_template nonce nonce_plain)
             (length s) s [] (Nat.le_refl _)).
Qed.

Lemma followed_tag_styles_own s :
  followed style_token A (tag_styles nonce s).
Proof.
  apply (inserted_followed_own style_token A 32%N
           (lit "nonce=" ++ [DQUOTE] ++ nonce ++ [DQUOTE]) s); try done.
  - apply (bool_decide_unpack _). vm_compute. exact I.
  - intros x y. apply own_inside. apply style_token_fresh.
  - apply (replaceAll_inserted style_token A
             ltac:(done) (plain_style_template nonce nonce_plain)
             (length s) s [] (Nat.le_refl _)).
Qed.

Lemma followed_tag_styles s :
  followed script_token A s → followed script_token A (tag_styles nonce s).
Proof.
  apply (inserted_followed _ _ style_token A 32%N
           (lit "nonce=" ++ [DQUOTE] ++ nonce ++ [DQUOTE])).
  - done.
  - apply (bool_decide_unpack _). vm_compute. exact I.
  - apply starts_nowhere_app; [|apply (attribute_nowhere (lit "script"))].
    intros x1 y Hx1 Hsuf. by apply no_start_suffix with (w := style_token).
  - intros a b H. exfalso.
    pose proof (head_only (lit "script") (lit "style") a b script_token_fresh H) as ->.
    assert (Hp : style_token `prefix_of` script_token ++ A) by (by exists b).
    by apply compatible_prefix in Hp.
  - apply (replaceAll_inserted style_token A
             ltac:(done) (plain_style_template nonce nonce_plain)
             (length s) s [] (Nat.le_refl _)).
Qed.




End TokensFollowed.




(** * Further properties of the hooks *)

(** ** The hook [config] *)

Section ConfigHook.
Implicit Types (o : Options) (c : UserConfig) (cmd name : jsstr).

Lemma alias_props_set name value a :
  alias_props (set_alias name value a) = <[name := value]> (alias_props a).
Proof. by destruct a. Qed.

Lemma alias_entries_set name value a :
  alias_entries (set_alias name value a) = alias_entries a.
Proof. by destruct a. Qed.

Lemma set_alias_twice name v1 v2 a :
  set_alias name v2 (set_alias name v1 a) = set_alias name v2 a.
Proof. destruct a; cbn [set_alias]; by rewrite insert_insert_eq. Qed.

Lemma aliases_of_config o c cmd :
  aliases_of (config o c cmd)
  = if processI18n o
    then set_alias (lit "vue-i18n") (VString (vue_i18n_build cmd)) (aliases_of c)
    else aliases_of c.
Proof.
  unfold config, aliases_of, vue_i18n_build.
  destruct (processI18n o), (resolve c) as [[[a|] rest]|]; reflexivity.
Qed.
End ConfigHook.

(** X1.  With [processI18n] set, the configuration returned by [config]
    binds the alias [vue-i18n] to the development build of vue-i18n when the
    command is [serve] and to the production build otherwise, whatever the
    user had bound to that name; every other alias and the entries of an
    alias array are what they were. *)
Theorem config_sets_vue_i18n_alias (o : Options) (c : UserConfig) (cmd : jsstr) :
  processI18n o = true →
  alias_of (lit "vue-i18n") (config o c cmd)
  = Some (VString (if bool_decide (cmd = lit "serve")
                   then lit "vue-i18n/dist/vue-i18n.esm-browser.js"
                   else lit "vue-i18n/dist/vue-i18n.esm-browser.prod.js"))
  ∧ (∀ name, name ≠ lit "vue-i18n" →
       alias_of name (config o c cmd) = alias_of name c)
  ∧ alias_entries (aliases_of (config o c cmd)) = alias_entries (aliases_of c).
Proof.
  intros Hi. unfold alias_of. rewrite aliases_of_config, Hi.
  rewrite alias_props_set, alias_entries_set. split; [|split].
  - by rewrite lookup_insert_eq.
  - intros name Hne. by rewrite lookup_insert_ne.
  - done.
Qed.

Lemma config_sets_vue_i18n_alias_witness :
  alias_of (lit "vue-i18n") (config (i18n_options true) aliased_config (lit "build"))
  = Some (VString (lit "vue-i18n/dist/vue-i18n.esm-browser.prod.js"))
  ∧ alias_of (lit "@") (config (i18n_options true) aliased_config (lit "build"))
    = Some (VString (lit "/src")).
Proof.
  destruct (config_sets_vue_i18n_alias (i18n_options true) aliased_config (lit "build"))
    as (H1 & H2 & _); [reflexivity|].
  split; [exact H1|]. rewrite H2; [vm_compute; reflexivity | by vm_compute].
Defined.

(** X2.  Calling [config] on its own result: the last call decides.  The
    configuration is the one that a single call with the last command
    returns; in particular a second call with the same command changes
    nothing. *)
Theorem config_last_call_wins (o : Options) (c : UserConfig) (cmd1 cmd2 : jsstr) :
  config o (config o c cmd1) cmd2 = config o c cmd2.
Proof.
  unfold config. destruct (processI18n o) eqn:Hi; simpl; [|done].
  by rewrite set_alias_twice.
Qed.

(** X3.  [config] never registers a plugin and never removes an alias: the
    entries of [config.plugins] and every property that is neither
    [resolve.alias] nor [plugins] are what they were, [resolve] and
    [resolve.alias] exist in the result, and without [processI18n] every
    alias is what it was. *)
Theorem config_frame (o : Options) (c : UserConfig) (cmd : jsstr) :
  default [] (plugins (config o c cmd)) = default [] (plugins c)
  ∧ config_rest (config o c cmd) = config_rest c
  ∧ (∃ r a, resolve (config o c cmd) = Some r ∧ alias r = Some a
       ∧ resolve_rest r = default ∅ (resolve_rest <$> resolve c))
  ∧ (∀ name, is_Some (alias_of name c) → is_Some (alias_of name (config o c cmd)))
  ∧ (processI18n o = false →
     aliases_of (config o c cmd) = aliases_of c
     ∧ plugins (config o c cmd) = plugins c).
Proof.
  split; [|split; [|split; [|split]]].
  - unfold config. by destruct (processI18n o), (plugins c).
  - unfold config. by destruct (processI18n o).
  - unfold config. destruct (processI18n o); eexists _, _; cbn [resolve alias resolve_rest];
      (split; [reflexivity|]; split; [reflexivity|]); by destruct (resolve c).
  - intros name Hsome. unfold alias_of in *. rewrite aliases_of_config.
    destruct (processI18n o); [|done]. rewrite alias_props_set.
    destruct (decide (name = lit "vue-i18n")) as [->|Hne].
    + by rewrite lookup_insert_eq.
    + by rewrite lookup_insert_ne.
  - intros Hi. split.
    + by rewrite aliases_of_config, Hi.
    + unfold config. by rewrite Hi.
Qed.

(** ** [configResolved] and the rest of the configuration *)

(** X4.  [configResolved] writes [config.html.cspNonce] and nothing else:
    the command and every other property of [config.html] are what they
    were, a [cspNonce] of the user is replaced, and the state before the
    call plays no part. *)
Theorem configResolved_frame (sha256_base64 : jsstr → jsstr) (o : Options)
    (config : ResolvedConfig) (now : N) (st : PluginState) :
  let config' := (configResolved sha256_base64 o config now st).2 in
  command config' = command config
  ∧ (∀ p : string, p ≠ "cspNonce"%string →
       html config' ≫= (.!! p) = html config ≫= (.!! p))
  ∧ (html config' ≫= (.!! "cspNonce"%string))
    = VString <$> sharedNonce (configResolved sha256_base64 o config now st).1
  ∧ configResolved sha256_base64 o config now st
    = configResolved sha256_base64 o config now initial_state.
Proof.
  cbn zeta. unfold configResolved. cbn [fst snd command html sharedNonce].
  split; [done|]. split; [|split; [|done]].
  - intros p Hp. cbn [mbind option_bind]. rewrite lookup_insert_ne by done.
    by destruct (html config).
  - cbn [mbind option_bind fmap option_fmap option_map]. by rewrite lookup_insert_eq.
Qed.

(** ** The optional headers *)

Section Headers.
Implicit Types (o : Options) (name value nonce : jsstr) (res : response).

Lemma values_of_app name res1 res2 :
  values_of name (res1 ++ res2) = values_of name res1 ++ values_of name res2.
Proof. apply omap_app. Qed.

Lemma values_of_optional name name' value :
  values_of name (optional_header name' value)
  = if bool_decide (name' = name) then header_values (Some value) [] else [].
Proof.
  unfold values_of. destruct value as [|c v]; simpl.
  - by destruct (bool_decide (name' = name)).
  - by destruct (bool_decide (name' = name)).
Qed.

Lemma policy_name_apart o : cspHeaderName o ∉ (header_table).*1.*1.
Proof.
  unfold cspHeaderName. destruct (reportOnly o).
  - apply (bool_decide_unpack (_ ∉ _)). vm_compute. exact I.
  - apply (bool_decide_unpack (_ ∉ _)). vm_compute. exact I.
Qed.

Lemma values_of_policy name o nonce :
  name ∈ (header_table).*1.*1 →
  values_of name [(cspHeaderName o, csp o nonce)] = [].
Proof.
  intros Hname. unfold values_of. simpl.
  destruct (decide (cspHeaderName o = name)) as [Heq|Hne].
  - exfalso. apply (policy_name_apart o). by rewrite Heq.
  - by rewrite bool_decide_false.
Qed.

Lemma header_values_default given dflt :
  header_values (Some (default dflt given)) [] = header_values given dflt
  ∨ dflt = [].
Proof. destruct given as [v|]; [by left|]. destruct dflt; [by right | by left]. Qed.

End Headers.

Section HeaderFacts.
Implicit Types (o : Options) (name value nonce : jsstr) (res : response).

Lemma values_of_auxiliary name o :
  values_of name (auxiliary_headers o)
  = (if bool_decide (lit "X-XSS-Protection" = name)
     then header_values (Some (xssProtection o)) [] else [])
    ++ (if bool_decide (lit "X-Frame-Options" = name)
        then header_values (Some (frameOptions o)) [] else [])
    ++ (if bool_decide (lit "X-Content-Type-Options" = name)
        then header_values (Some (contentTypeOptions o)) [] else [])
    ++ (if bool_decide (lit "Referrer-Policy" = name)
        then header_values (Some (referrerPolicy o)) [] else [])
    ++ (if bool_decide (lit "Permissions-Policy" = name)
        then header_values (Some (permissionsPolicy o)) [] else [])
    ++ (if bool_decide (lit "Cache-Control" = name)
        then header_values (Some (cacheControl o)) [] else []).
Proof.
  unfold auxiliary_headers. by rewrite !values_of_app, !values_of_optional.
Qed.



End HeaderFacts.

Ltac decide_names :=
  repeat match goal with
  | |- context [bool_decide (?a = ?b)] =>
      let v := eval vm_compute in (bool_decide (a = b)) in
      change (bool_decide (a = b)) with v
  end.

(** X5.  Each of the six optional headers follows its option: the
    middleware sets it once, to the value that the caller gave, when that
    value is not the empty string; it does not set it when the caller gave
    the empty string; and it sets it to the default when the caller gave
    nothing.  The calls made on the response before are left as they are. *)
Theorem header_follows_option (options : RawOptions) (nonce : jsstr) (res : response)
    (name : jsstr) (raw : RawOptions → option jsstr) (dflt : jsstr) :
  (name, raw, dflt) ∈ header_table →
  values_of name (middleware (destructure options) nonce res)
  = values_of name res ++ header_values (raw options) dflt.
Proof.
  intros Hin. rewrite middleware_headers, values_of_app. f_equal.
  change (?h :: auxiliary_headers ?o) with ([h] ++ auxiliary_headers o).
  rewrite values_of_app, values_of_policy, values_of_auxiliary.
  - unfold header_table in Hin.
    repeat (apply elem_of_cons in Hin as [[= -> -> ->] | Hin]);
      [.. | by apply elem_of_nil in Hin];
      decide_names; cbn [app destructure xssProtection frameOptions
        contentTypeOptions referrerPolicy permissionsPolicy cacheControl];
      rewrite ?app_nil_r;
      match goal with |- context [raw_xssProtection ?x] => destruct (raw_xssProtection x)
      | |- context [raw_frameOptions ?x] => destruct (raw_frameOptions x)
      | |- context [raw_contentTypeOptions ?x] => destruct (raw_contentTypeOptions x)
      | |- context [raw_referrerPolicy ?x] => destruct (raw_referrerPolicy x)
      | |- context [raw_permissionsPolicy ?x] => destruct (raw_permissionsPolicy x)
      | |- context [raw_cacheControl ?x] => destruct (raw_cacheControl x)
      end; reflexivity.
  - apply list_elem_of_fmap. exists (name, raw).
    split; [done|]. apply list_elem_of_fmap. by exists (name, raw, dflt).
Qed.

Lemma header_follows_option_witness :
  values_of (lit "X-Frame-Options") (middleware (destructure no_options) (lit "abc") [])
  = [lit "DENY"].
Proof.
  apply (header_follows_option no_options (lit "abc") []
           (lit "X-Frame-Options") raw_frameOptions (lit "DENY")).
  unfold header_table. apply elem_of_cons. right. apply elem_of_cons. left. reflexivity.
Defined.


(** ** The text hashed by [createNonce] *)

Section ClockText.



End ClockText.


(** ** The shim and the first closing head tag *)

Section FirstOccurrence.
Implicit Types search template pre post before s : jsstr.

Lemma replace_from_unmatched search template post pre : ∀ before,
  (∀ a b, pre = a ++ b → b ≠ [] → starts_with search (b ++ post) = false) →
  replace_from search template before (pre ++ post)
  = pre ++ replace_from search template (before ++ pre) post.
Proof.
  induction pre as [|c pre IH]; intros before H.
  - by rewrite app_nil_r.
  - cbn [app replace_from].
    pose proof (H [] (c :: pre) eq_refl) as H0. cbn [app] in H0.
    rewrite H0 by done. f_equal. rewrite IH.
    + by rewrite <- app_assoc.
    + intros a b -> Hb. by apply (H (c :: a) b).
Qed.

Lemma replace_from_here search template before post :
  replace_from search template before (search ++ post)
  = GetSubstitution search before post template ++ post.
Proof.
  destruct search as [|c0 search'].
  - destruct post; reflexivity.
  - cbn [app replace_from].
    change (c0 :: search' ++ post) with ((c0 :: search') ++ post).
    by rewrite starts_with_app, drop_app_length.
Qed.

(** A text that contains a piece has a first occurrence of it. *)
Lemma first_occurrence search s :
  includes search s = true →
  ∃ pre post, s = pre ++ search ++ post
    ∧ ∀ a b, pre = a ++ b → b ≠ [] → starts_with search (b ++ search ++ post) = false.
Proof.
  induction s as [|c s IH]; cbn [includes].
  - rewrite orb_false_r. intros H%starts_with_split.
    exists [], (drop (length search) []). split; [done|].
    intros a b Hab Hb. by destruct a, b.
  - destruct (starts_with search (c :: s)) eqn:Hm.
    + intros _. apply starts_with_split in Hm.
      exists [], (drop (length search) (c :: s)). split; [done|].
      intros a b Hab Hb. by destruct a, b.
    + cbn [orb]. intros (pre & post & -> & Hfirst)%IH.
      exists (c :: pre), post. split; [done|].
      intros a b Hab Hb. destruct a as [|a0 a].
      * cbn [app] in Hab. subst b. exact Hm.
      * injection Hab as -> ->. by apply (Hfirst a b).
Qed.

Lemma unmatched_absent search pre post :
  search ≠ [] →
  (∀ a b, pre = a ++ b → b ≠ [] → starts_with search (b ++ search ++ post) = false) →
  includes search pre = false.
Proof.
  intros Hne H. apply includes_absent. intros (a & b & ->).
  specialize (H a (search ++ b)). rewrite <- !app_assoc in H.
  rewrite starts_with_app in H. discriminate H; [done|].
  by destruct search.
Qed.
End FirstOccurrence.

(** X8.  In a document that contains [</head>], [inject_shim] writes the
    shim once, in front of the first [</head>]: the text before that tag and
    everything behind it, later closing head tags included, are what they
    were.  The nonce holds no [$] pattern. *)
Theorem shim_before_first_closing_head (nonce s : jsstr) :
  plain_template nonce = true →
  includes head_close s = true →
  ∃ pre post,
    s = pre ++ head_close ++ post
    ∧ includes head_close pre = false
    ∧ inject_shim nonce s = pre ++ injectNonceScript nonce ++ head_close ++ post.
Proof.
  intros Hn (pre & post & -> & Hfirst)%first_occurrence.
  exists pre, post. split; [done|]. split.
  - by apply (unmatched_absent head_close pre post).
  - unfold inject_shim, replace.
    rewrite replace_from_unmatched by done.
    rewrite replace_from_here, GetSubstitution_plain by (by apply plain_shim).
    by rewrite <- !app_assoc.
Qed.

Lemma shim_before_first_closing_head_witness :
  ∃ pre post,
    lit "<head></head><body></head>" = pre ++ head_close ++ post
    ∧ includes head_close pre = false
    ∧ inject_shim (lit "abc") (lit "<head></head><body></head>")
      = pre ++ injectNonceScript (lit "abc") ++ head_close ++ post.
Proof.
  apply (shim_before_first_closing_head (lit "abc") (lit "<head></head><body></head>"));
    reflexivity.
Defined.

(** ** Tagging a document twice *)

Section InsertedTwice.
Variables (c0 : N) (tok' ins : jsstr) (i0 : N) (ins' : jsstr).
Hypothesis ins_eq : ins = i0 :: ins'.
Hypothesis i0_fresh : i0 ∉ c0 :: tok'.
Hypothesis c0_fresh : c0 ∉ ins.
Hypothesis plain : plain_template ((c0 :: tok') ++ ins) = true.

Local Abbreviation tok := (c0 :: tok').
Local Abbreviation W :=
  (scan (literal_matcher tok) (literal_replacement tok (tok ++ ins))).

Lemma walk_before b1 b2 s k : W b1 s k = W b2 s k.
Proof.
  apply scan_before_irrelevant. intros [] x1 x2 y. unfold literal_replacement.
  by rewrite !GetSubstitution_plain.
Qed.

Lemma walk_token b rest : W b (tok ++ rest) 0 = tok ++ ins ++ W b rest 0.
Proof.
  rewrite (scan_match _ _ b (tok ++ rest) tt (length tok')).
  - unfold literal_replacement at 1. rewrite GetSubstitution_plain by exact plain.
    rewrite <- !app_assoc. do 2 f_equal.
    change (S (length tok')) with (length tok). rewrite drop_app_length.
    apply walk_before.
  - unfold literal_matcher. by rewrite starts_with_app.
  - rewrite length_app. cbn [length]. lia.
Qed.

Lemma walk_insertion b rest : W b (ins ++ rest) 0 = ins ++ W b rest 0.
Proof.
  rewrite scan_unmatched_prefix.
  - f_equal. apply walk_before.
  - intros a x Hax Hx. unfold literal_matcher.
    destruct x as [|x0 x]; [done|]. cbn [app starts_with].
    destruct (c0 =? x0)%N eqn:E; [|done].
    apply N.eqb_eq in E. subst x0. exfalso. apply c0_fresh. rewrite Hax.
    apply elem_of_app. right. by left.
Qed.

Lemma walk_miss b c t : starts_with tok (c :: t) = false → W b (c :: t) 0 = c :: W b t 0.
Proof.
  intros Hm. rewrite scan_miss by (by unfold literal_matcher; rewrite Hm).
  f_equal. apply walk_before.
Qed.

(** Tagging the result of a tagging again writes the insertion a second
    time behind every token of the document. *)
Lemma inserted_twice s out :
  inserted tok ins s out → inserted tok (ins ++ ins) s (W [] out 0).
Proof.
  induction 1 as [|rest out _ IH|c t out Hmiss Hins IH].
  - constructor.
  - rewrite walk_token, walk_insertion.
    replace (tok ++ ins ++ ins ++ W [] out 0) with (tok ++ (ins ++ ins) ++ W [] out 0)
      by (by rewrite <- !app_assoc).
    by apply inserted_match.
  - rewrite walk_miss.
    + by apply inserted_miss.
    + apply starts_with_false. intros Hpre.
      pose proof Hmiss as Hmiss'. apply starts_with_false in Hmiss'. apply Hmiss'.
      apply (inserted_prefix tok ins i0 ins' ins_eq (c :: t) (c :: out));
        [by apply inserted_miss | done | done].
Qed.
End InsertedTwice.

Section InsertedFunction.
Variables (tok ins : jsstr).
Hypothesis tok_ne : tok ≠ [].

(** The walk is a function of the document. *)
Lemma inserted_functional s o1 :
  inserted tok ins s o1 → ∀ o2, inserted tok ins s o2 → o1 = o2.
Proof.
  induction 1 as [|rest out _ IH|c t out Hmiss _ IH]; intros o2 H2.
  - inversion H2 as [|rest2 out2 _ Hs|c2 t2 out2 _ _ Hs]; [done|].
    by destruct tok.
  - remember (tok ++ rest) as s eqn:Hs.
    destruct H2 as [|rest2 out2 H2|c2 t2 out2 Hmiss2 H2].
    + by destruct tok.
    + apply app_inv_head in Hs as ->. by rewrite (IH out2).
    + rewrite Hs, starts_with_app in Hmiss2. done.
  - remember (c :: t) as s eqn:Hs.
    destruct H2 as [|rest2 out2 H2|c2 t2 out2 Hmiss2 H2].
    + done.
    + by rewrite starts_with_app in Hmiss.
    + injection Hs as -> ->. by rewrite (IH out2).
Qed.

(** Every occurrence of the token makes the text longer by the insertion,
    for a token whose first code unit is not repeated. *)
Lemma occurrences_behind (c0 : N) tok' w rest :
  c0 ∉ w → occurrences (c0 :: tok') (w ++ rest) = occurrences (c0 :: tok') rest.
Proof.
  induction w as [|x w IH]; [done|]. intros [Hx Hw]%not_elem_of_cons.
  cbn [app occurrences starts_with].
  replace (c0 =? x)%N with false by (symmetry; by apply N.eqb_neq).
  by rewrite IH.
Qed.

Lemma inserted_length (c0 : N) tok' s out :
  tok = c0 :: tok' → c0 ∉ tok' →
  inserted tok ins s out →
  length out = length s + occurrences tok s * length ins.
Proof.
  intros Htok Hfresh. induction 1 as [|rest out _ IH|c t out Hmiss _ IH].
  - done.
  - rewrite !length_app, IH.
    assert (Hocc : occurrences tok (tok ++ rest) = S (occurrences tok rest)).
    { rewrite Htok. cbn [app occurrences].
      change (c0 :: tok' ++ rest) with ((c0 :: tok') ++ rest).
      rewrite starts_with_app. by rewrite occurrences_behind. }
    rewrite Hocc. lia.
  - cbn [length occurrences]. rewrite Hmiss, IH. lia.
Qed.
End InsertedFunction.

Section TaggedTwice.
Variables (c0 : N) (tok' ins : jsstr) (i0 : N) (ins' : jsstr).
Hypothesis ins_eq : ins = i0 :: ins'.
Hypothesis i0_fresh : i0 ∉ c0 :: tok'.
Hypothesis c0_fresh : c0 ∉ ins.
Hypothesis tok_fresh : c0 ∉ tok'.
Hypothesis plain : plain_template ((c0 :: tok') ++ ins) = true.
Hypothesis plain2 : plain_template ((c0 :: tok') ++ ins ++ ins) = true.

Local Abbreviation tok := (c0 :: tok').

Lemma replaceAll_twice s :
  replaceAll tok (tok ++ ins) (replaceAll tok (tok ++ ins) s)
  = insert_after_each tok (ins ++ ins) [] s.
Proof.
  rewrite <- (replaceAll_insert c0 tok' (ins ++ ins) tok_fresh plain2).
  apply (inserted_functional tok (ins ++ ins) ltac:(done) s).
  - apply (inserted_twice c0 tok' ins i0 ins' ins_eq i0_fresh c0_fresh plain).
    by apply (replaceAll_inserted tok ins ltac:(done) plain (length s)).
  - by apply (replaceAll_inserted tok (ins ++ ins) ltac:(done) plain2 (length s)).
Qed.
End TaggedTwice.

Section TwiceFacts.
Implicit Types nonce s : jsstr.

Lemma nonce_attribute_cons nonce :
  nonce_attribute nonce = 32%N :: lit "nonce=" ++ [DQUOTE] ++ nonce ++ [DQUOTE].
Proof. reflexivity. Qed.

Lemma plain_attribute_twice nonce tok :
  plain_template tok = true → plain_template nonce = true →
  plain_template (tok ++ nonce_attribute nonce ++ nonce_attribute nonce) = true.
Proof.
  intros Htok Hn. apply plain_template_app; [done | | done].
  apply plain_nonce_attribute; [done|].
  rewrite <- (app_nil_r (nonce_attribute nonce)). by apply plain_nonce_attribute.
Qed.

Lemma blank_not_in_script : (32%N : N) ∉ script_token.
Proof. apply (bool_decide_unpack _). vm_compute. exact I. Qed.

Lemma blank_not_in_style : (32%N : N) ∉ style_token.
Proof. apply (bool_decide_unpack _). vm_compute. exact I. Qed.
End TwiceFacts.

(** X9.  The script and style steps have no guard: applied to a document
    that they have already tagged, they write the attribute again, so that
    every [<script] and every [<style] of the document ends up followed by
    two copies of it.  The nonce holds no [<] and no [$] pattern. *)
Theorem tagging_twice_doubles_the_attribute (nonce document : jsstr) :
  plain_template nonce = true → no_lt nonce = true →
  tag_scripts nonce (tag_scripts nonce document)
  = insert_after_each script_token
      (nonce_attribute nonce ++ nonce_attribute nonce) [] document
  ∧ tag_styles nonce (tag_styles nonce document)
    = insert_after_each style_token
        (nonce_attribute nonce ++ nonce_attribute nonce) [] document.
Proof.
  intros Hp Hlt. split.
  - apply (replaceAll_twice 60%N (lit "script") (nonce_attribute nonce) 32%N
             (lit "nonce=" ++ [DQUOTE] ++ nonce ++ [DQUOTE])).
    + apply nonce_attribute_cons.
    + apply blank_not_in_script.
    + by apply nonce_attribute_no_lt.
    + apply script_token_fresh.
    + by apply plain_script_template.
    + by apply (plain_attribute_twice nonce script_token).
  - apply (replaceAll_twice 60%N (lit "style") (nonce_attribute nonce) 32%N
             (lit "nonce=" ++ [DQUOTE] ++ nonce ++ [DQUOTE])).
    + apply nonce_attribute_cons.
    + apply blank_not_in_style.
    + by apply nonce_attribute_no_lt.
    + apply style_token_fresh.
    + by apply plain_style_template.
    + by apply (plain_attribute_twice nonce style_token).
Qed.

Lemma tagging_twice_doubles_the_attribute_witness :
  tag_scripts (lit "abc") (tag_scripts (lit "abc") (lit "<script></script>"))
  = lit "<script nonce=" ++ quoted (lit "abc") ++ lit " nonce=" ++ quoted (lit "abc")
      ++ lit "></script>".
Proof.
  refine (eq_trans
    (proj1 (tagging_twice_doubles_the_attribute (lit "abc") (lit "<script></script>") _ _)) _);
    reflexivity.
Defined.

Section Growth.
Implicit Types nonce s : jsstr.

Lemma style_attr_token_fresh : (115%N : N) ∉ lit "tyle=" ++ [DQUOTE].
Proof. apply (bool_decide_unpack _). vm_compute. exact I. Qed.

Lemma replaceAll_length (c0 : N) tok' ins s :
  c0 ∉ tok' → plain_template ((c0 :: tok') ++ ins) = true →
  length (replaceAll (c0 :: tok') ((c0 :: tok') ++ ins) s)
  = length s + occurrences (c0 :: tok') s * length ins.
Proof.
  intros Hfresh Hplain.
  apply (inserted_length (c0 :: tok') ins c0 tok'); [done | done |].
  by apply (replaceAll_inserted (c0 :: tok') ins ltac:(done) Hplain (length s)).
Qed.

Lemma nonce_attribute_length nonce : length (nonce_attribute nonce) = 9 + length nonce.
Proof. unfold nonce_attribute. rewrite !length_app. simpl. lia. Qed.

Lemma style_attr_insertion_length nonce :
  length (style_attr_insertion nonce) = 9 + length nonce.
Proof. unfold style_attr_insertion. rewrite !length_app. simpl. lia. Qed.
End Growth.

(** X10.  Each of the three [replaceAll] steps makes the document longer by
    one insertion for every occurrence of its token, and by nothing else:
    nine code units and the nonce for every [<script], for every [<style]
    and for every [style=] with its double quote.  The nonce holds no [$]
    pattern. *)
Theorem tagging_growth (nonce document : jsstr) :
  plain_template nonce = true →
  length (tag_scripts nonce document)
  = length document + occurrences script_token document * (9 + length nonce)
  ∧ length (tag_styles nonce document)
    = length document + occurrences style_token document * (9 + length nonce)
  ∧ length (tag_style_attributes nonce document)
    = length document + occurrences style_attr_token document * (9 + length nonce).
Proof.
  intros Hp. split; [|split].
  - rewrite <- nonce_attribute_length.
    apply (replaceAll_length 60%N (lit "script")); [apply script_token_fresh|].
    by apply plain_script_template.
  - rewrite <- nonce_attribute_length.
    apply (replaceAll_length 60%N (lit "style")); [apply style_token_fresh|].
    by apply plain_style_template.
  - rewrite <- style_attr_insertion_length.
    apply (replaceAll_length 115%N (lit "tyle=" ++ [DQUOTE]));
      [apply style_attr_token_fresh|].
    by apply plain_style_attr_template.
Qed.

Lemma tagging_growth_witness :
  length (tag_scripts (lit "abc") (lit "<script></script><script></script>"))
  = 34 + 2 * 12.
Proof.
  apply (proj1 (tagging_growth (lit "abc") (lit "<script></script><script></script>")
                  eq_refl)).
Defined.

(** X11.  For every document and every nonce without [$] pattern, the inline
    style step writes [nonce=], the nonce between double quotes and a blank
    immediately after each occurrence of [style=] followed by a double
    quote, that is at the head of what was the value of the attribute, and
    changes nothing else. *)
Theorem inline_style_step (nonce document : jsstr) :
  plain_template nonce = true →
  tag_style_attributes nonce document
  = insert_after_each style_attr_token
      (lit "nonce=" ++ [DQUOTE] ++ nonce ++ [DQUOTE] ++ lit " ") [] document.
Proof.
  intros Hp.
  exact (replaceAll_insert 115%N (lit "tyle=" ++ [DQUOTE])
           (lit "nonce=" ++ [DQUOTE] ++ nonce ++ [DQUOTE] ++ lit " ")
           style_attr_token_fresh (plain_style_attr_template nonce Hp) document).
Qed.

Lemma inline_style_step_witness :
  tag_style_attributes (lit "abc") (lit "<p data-style=" ++ quoted (lit "x") ++ lit ">")
  = lit "<p data-style=" ++ [DQUOTE] ++ lit "nonce=" ++ quoted (lit "abc")
      ++ lit " x" ++ [DQUOTE] ++ lit ">".
Proof.
  refine (eq_trans (inline_style_step (lit "abc") _ _) _); reflexivity.
Defined.

(** ** Bundles on which the reducer throws *)

Section BundleFailure.
Implicit Types (nonce : jsstr) (b acc : bundle) (c : chunk).

Lemma rewrite_chunk_readable nonce c :
  unreadable c = false → rewrite_chunk nonce c = Some (rewritten_chunk nonce c).
Proof.
  unfold unreadable, rewrite_chunk, rewritten_chunk, is_html_asset, source_text.
  destruct (c !! "type"%string) as [[t| |]|]; try done.
  destruct (bool_decide (t = lit "asset")); [|by destruct (c !! "fileName"%string) as [[]|]].
  destruct (c !! "fileName"%string) as [[f| |]|]; try done.
  cbn [andb]. destruct (ends_with (lit ".html") f); [|done].
  by destruct (c !! "source"%string) as [[src| |]|].
Qed.

Lemma rewrite_chunk_unreadable nonce c :
  unreadable c = true → rewrite_chunk nonce c = None.
Proof.
  unfold unreadable, rewrite_chunk.
  destruct (c !! "type"%string) as [[t| |]|]; try done.
  destruct (bool_decide (t = lit "asset")); [|done].
  destruct (c !! "fileName"%string) as [[f| |]|]; try done.
  cbn [andb]. destruct (ends_with (lit ".html") f); [|done].
  by destruct (c !! "source"%string) as [[src| |]|].
Qed.

Lemma foldl_reducer_thrown nonce b keys :
  foldl (reducer nonce b) None keys = None.
Proof. induction keys as [|k keys IH]; [done|]. exact IH. Qed.

Lemma foldl_reducer_unreadable nonce b keys k0 c0 : ∀ acc,
  k0 ∈ keys → b !! k0 = Some c0 → unreadable c0 = true →
  foldl (reducer nonce b) (Some acc) keys = None.
Proof.
  induction keys as [|k keys IH]; intros acc Hin Hk0 Hc0.
  - by apply elem_of_nil in Hin.
  - cbn [foldl].
    destruct (reducer nonce b (Some acc) k) as [acc'|] eqn:Hstep;
      [|apply foldl_reducer_thrown].
    apply elem_of_cons in Hin as [<- | Hin]; [|by apply IH].
    unfold reducer in Hstep. cbn [mbind option_bind] in Hstep.
    rewrite Hk0 in Hstep. cbn [mbind option_bind] in Hstep.
    by rewrite rewrite_chunk_unreadable in Hstep.
Qed.

Lemma foldl_reducer_readable nonce b keys : ∀ acc,
  (∀ k, k ∈ keys → ∃ c, b !! k = Some c ∧ unreadable c = false) →
  ∃ acc', foldl (reducer nonce b) (Some acc) keys = Some acc'
    ∧ ∀ k, acc' !! k
           = if decide (k ∈ keys) then rewritten_chunk nonce <$> b !! k
             else acc !! k.
Proof.
  induction keys as [|k0 keys IH]; intros acc Hkeys.
  - exists acc. split; [done|]. intros k. by rewrite decide_False by apply not_elem_of_nil.
  - destruct (Hkeys k0) as (c0 & Hc0 & Hok); [by left|].
    cbn [foldl]. unfold reducer at 2. cbn [mbind option_bind].
    rewrite Hc0. cbn [mbind option_bind]. rewrite rewrite_chunk_readable by done.
    cbn [mbind option_bind].
    destruct (IH (<[k0 := rewritten_chunk nonce c0]> acc)) as (acc' & Hfold & Hacc').
    { intros k Hk. apply Hkeys. by right. }
    exists acc'. split; [done|]. intros k. rewrite Hacc'.
    destruct (decide (k ∈ keys)) as [Hin | Hin].
    + by rewrite decide_True by (by right).
    + destruct (decide (k = k0)) as [-> | Hne].
      * rewrite decide_True by (by left). by rewrite lookup_insert_eq, Hc0.
      * rewrite lookup_insert_ne by done.
        rewrite decide_False; [done|]. by intros [?|?]%elem_of_cons.
Qed.

Lemma Object_keys_lookup b k : k ∈ Object_keys b ↔ is_Some (b !! k).
Proof.
  unfold Object_keys. rewrite list_elem_of_fmap. split.
  - intros ([k' c] & -> & Hin). apply elem_of_map_to_list in Hin. by exists c.
  - intros [c Hc]. exists (k, c). split; [done|]. by apply elem_of_map_to_list.
Qed.

Lemma generateBundle_readable nonce b :
  (∀ k c, b !! k = Some c → unreadable c = false) →
  generateBundle nonce b = Some (rewritten_chunk nonce <$> b).
Proof.
  intros Hok. unfold generateBundle.
  destruct (foldl_reducer_readable nonce b (Object_keys b) ∅) as (acc' & -> & Hacc').
  - intros k [c Hc]%Object_keys_lookup. exists c. split; [done|]. by apply (Hok k).
  - f_equal. apply map_eq. intros k. rewrite Hacc', lookup_fmap.
    destruct (decide (k ∈ Object_keys b)) as [Hin | Hin]; [done|].
    rewrite lookup_empty. destruct (b !! k) as [c|] eqn:Hk; [|done].
    exfalso. apply Hin. apply Object_keys_lookup. by exists c.
Qed.

Lemma generateBundle_unreadable nonce b k c :
  b !! k = Some c → unreadable c = true → generateBundle nonce b = None.
Proof.
  intros Hk Hc. unfold generateBundle.
  apply (foldl_reducer_unreadable nonce b (Object_keys b) k c); [|done|done].
  apply Object_keys_lookup. by exists c.
Qed.
End BundleFailure.

(** X12.  [generateBundle] throws exactly when the bundle holds an asset
    whose file name is not a string, or an asset whose file name ends in
    [.html] and whose source is not a string.  On every other bundle,
    binary assets such as images included, it returns the bundle with the
    source of each HTML asset rewritten and every other entry as it was. *)
Theorem bundle_failure (nonce : jsstr) (b : bundle) :
  (generateBundle nonce b = None
   ↔ ∃ k c, b !! k = Some c ∧ unreadable c = true)
  ∧ ((∀ k c, b !! k = Some c → unreadable c = false) →
     generateBundle nonce b = Some (rewritten_chunk nonce <$> b)).
Proof.
  split; [|apply generateBundle_readable]. split.
  - intros Hnone.
    destruct (decide (map_Forall (λ _ c, unreadable c = false) b)) as [Hall | Hex].
    + by rewrite generateBundle_readable in Hnone.
    + apply map_not_Forall in Hex; [|apply _].
      destruct Hex as (k & c & Hk & Hc). exists k, c. split; [done|].
      by destruct (unreadable c).
  - intros (k & c & Hk & Hc). by apply (generateBundle_unreadable nonce b k c).
Qed.

Lemma bundle_failure_witness :
  bundle_ok (image_bundle (lit "<script></script>")) = false
  ∧ generateBundle (lit "abc") (image_bundle (lit "<script></script>"))
    = Some (rewritten_chunk (lit "abc") <$> image_bundle (lit "<script></script>")).
Proof.
  split; [vm_compute; reflexivity|].
  apply (proj2 (bundle_failure (lit "abc") (image_bundle (lit "<script></script>")))).
  apply (bool_decide_unpack (map_Forall (λ _ c, unreadable c = false) _)).
  vm_compute. exact I.
Defined.

(** ** Link elements that are not complete *)

Section LinksIncomplete.
Implicit Types nonce s b : jsstr.

Lemma drop_while_all (f : N → bool) s : forallb f s = true → drop_while f s = [].
Proof.
  induction s as [|c s IH]; [done|]. cbn [forallb drop_while].
  intros [-> H]%andb_true_iff. by apply IH.
Qed.

Lemma forallb_drop_while (f g : N → bool) s :
  forallb f s = true → forallb f (drop_while g s) = true.
Proof.
  induction s as [|c s IH]; [done|]. cbn [forallb drop_while].
  intros [Hc H]%andb_true_iff. destruct (g c); [by apply IH|].
  cbn [forallb]. by rewrite Hc, H.
Qed.

Lemma linkRegex_incomplete b :
  negb (starts_blank b) || forallb not_gt b = true →
  linkRegex (link_token ++ b) = None.
Proof.
  intros H. unfold linkRegex. rewrite starts_with_app, drop_app_length.
  apply orb_true_iff in H as [H | H].
  - destruct b as [|c b]; [done|]. cbn [starts_blank] in H.
    apply negb_true_iff in H. cbn [take_while]. by rewrite H.
  - destruct (take_while is_space b); [done|].
    by rewrite (drop_while_all not_gt) by (by apply forallb_drop_while).
Qed.

Lemma linkRegex_head_incomplete c t :
  (if starts_with link_token (c :: t)
   then negb (starts_blank (drop (length link_token) (c :: t)))
        || forallb not_gt (drop (length link_token) (c :: t))
   else true) = true →
  linkRegex (c :: t) = None.
Proof.
  destruct (starts_with link_token (c :: t)) eqn:Hm.
  - intros H. rewrite (starts_with_split _ _ Hm). by apply linkRegex_incomplete.
  - intros _. by apply linkRegex_needs_token.
Qed.

Lemma scan_links_incomplete {R} (m : jsstr → option (R * nat)) f s :
  (∀ x, linkRegex x = None → m x = None) →
  links_incomplete s = true → ∀ before, scan m f before s 0 = s.
Proof.
  intros Hm. induction s as [|c s IH]; intros H before.
  - cbn [scan]. by rewrite (Hm []).
  - cbn [links_incomplete] in H. apply andb_true_iff in H as [Hc Hs].
    rewrite scan_miss by (by apply Hm, linkRegex_head_incomplete).
    f_equal. by apply IH.
Qed.
End LinksIncomplete.

(** X13.  A [<link] that is not followed by a blank, as in [<link>] or
    [<linker], or behind which the document holds no [>], is no link
    element for either hook: a document in which no [<link] is followed by
    a blank and, later, a [>] is left as it is by the link step of
    [transformIndexHtml] and by that of [generateBundle]. *)
Theorem incomplete_links_are_left_alone (nonce s : jsstr) :
  links_incomplete s = true →
  replace_links nonce s = s ∧ bundle_replace_links nonce s = s.
Proof.
  intros H. split.
  - by apply scan_links_incomplete.
  - apply scan_links_incomplete; [|done].
    intros x Hx. by rewrite bundleLinkRegex_chop, Hx.
Qed.

Lemma incomplete_links_are_left_alone_witness :
  replace_links (lit "abc") (lit "<link><linker rel=x><p>a</p><link rel=icon") 
  = lit "<link><linker rel=x><p>a</p><link rel=icon".
Proof.
  apply (proj1 (incomplete_links_are_left_alone (lit "abc")
                  (lit "<link><linker rel=x><p>a</p><link rel=icon") eq_refl)).
Defined.

(** ** Serving and building without link elements *)

Section WithoutLinks.
Implicit Types nonce s : jsstr.

Lemma blank_not_in_link : (32%N : N) ∉ link_token.
Proof. apply (bool_decide_unpack _). vm_compute. exact I. Qed.

Lemma link_token_tag_scripts nonce s :
  plain_template nonce = true → no_lt nonce = true →
  occurs link_token (tag_scripts nonce s) → occurs link_token s.
Proof.
  intros Hp Hn.
  apply (inserted_occurs script_token (nonce_attribute nonce) 32%N
           (lit "nonce=" ++ [DQUOTE] ++ nonce ++ [DQUOTE]) eq_refl 60%N (lit "link")).
  - by apply (replaceAll_inserted script_token (nonce_attribute nonce) ltac:(done)
                (plain_script_template nonce Hp) (length s)).
  - by apply nonce_attribute_no_lt.
  - apply blank_not_in_link.
Qed.

Lemma link_token_tag_styles nonce s :
  plain_template nonce = true → no_lt nonce = true →
  occurs link_token (tag_styles nonce s) → occurs link_token s.
Proof.
  intros Hp Hn.
  apply (inserted_occurs style_token (nonce_attribute nonce) 32%N
           (lit "nonce=" ++ [DQUOTE] ++ nonce ++ [DQUOTE]) eq_refl 60%N (lit "link")).
  - by apply (replaceAll_inserted style_token (nonce_attribute nonce) ltac:(done)
                (plain_style_template nonce Hp) (length s)).
  - by apply nonce_attribute_no_lt.
  - apply blank_not_in_link.
Qed.
End WithoutLinks.

(** X14.  On a document without [<link], serving and building rewrite
    alike: the source that [generateBundle] writes is the result of the four
    tagging steps of [transformIndexHtml], and [transformIndexHtml] returns
    that source with the shim in front of its first [</head>].  The nonce
    holds no [<] and no [$] pattern. *)
Theorem without_links_build_is_serve (nonce document : jsstr) :
  plain_template nonce = true → no_lt nonce = true →
  includes link_token document = false →
  bundle_source nonce document = tagging_steps nonce document
  ∧ transformIndexHtml nonce document = inject_shim nonce (bundle_source nonce document).
Proof.
  intros Hp Hn Hdoc.
  assert (Habsent : includes link_token (tag_styles nonce (tag_scripts nonce document))
                    = false).
  { apply includes_absent. intros H. apply includes_absent in Hdoc. apply Hdoc.
    apply (link_token_tag_scripts nonce); [done | done |].
    by apply (link_token_tag_styles nonce). }
  assert (Heq : bundle_source nonce document = tagging_steps nonce document).
  { unfold bundle_source, tagging_steps.
    by rewrite bundle_replace_links_absent, replace_links_absent. }
  split; [done|]. by rewrite Heq.
Qed.

Lemma without_links_build_is_serve_witness :
  bundle_source (lit "abc") (lit "<head><script></script></head>")
  = tagging_steps (lit "abc") (lit "<head><script></script></head>").
Proof.
  apply (proj1 (without_links_build_is_serve (lit "abc")
                  (lit "<head><script></script></head>") eq_refl eq_refl eq_refl)).
Defined.

(** ** Where the two link steps agree *)

Section LinkStepsAgree.
Implicit Types nonce s a : jsstr.

Lemma ends_plainly_cons c a : a ≠ [] → ends_plainly (c :: a) = ends_plainly a.
Proof.
  intros Ha. unfold ends_plainly. rewrite reverse_cons.
  destruct (reverse a) as [|x r] eqn:Hr; [|done].
  apply (f_equal reverse) in Hr. rewrite reverse_involutive in Hr. done.
Qed.

Lemma ends_plainly_not_blank a :
  a ≠ [] → ends_plainly a = true → forallb is_space a = false.
Proof.
  induction a as [|c a IH]; [done|]. intros _ H.
  destruct a as [|d a].
  - unfold ends_plainly, blank_or_slash in H. cbn in H.
    apply negb_true_iff, orb_false_iff in H as [H _]. cbn [forallb]. by rewrite H.
  - rewrite ends_plainly_cons in H by done.
    cbn [forallb] in *. rewrite IH by done. apply andb_false_r.
Qed.

Lemma closing_plain a : a ≠ [] → ends_plainly a = true → closing a = false.
Proof.
  intros Ha H. destruct a as [|c a]; [done|]. cbn [closing].
  destruct (c =? SLASH)%N eqn:Hc.
  - destruct a as [|d a].
    + unfold ends_plainly, blank_or_slash in H. cbn in H.
      apply negb_true_iff, orb_false_iff in H as [_ H].
      apply N.eqb_eq in Hc. subst c. done.
    + rewrite ends_plainly_cons in H by done. by apply ends_plainly_not_blank.
  - by apply ends_plainly_not_blank.
Qed.

Lemma chop_plain a : ends_plainly a = true → chop a = a.
Proof.
  induction a as [|c a IH]; [done|]. intros H. cbn [chop].
  rewrite closing_plain by done. f_equal.
  destruct a as [|d a]; [done|]. apply IH. by rewrite ends_plainly_cons in H.
Qed.

Lemma scan_links_end_plainly nonce s : ∀ before k,
  links_end_plainly s = true →
  scan linkRegex (λ a _ _, link_callback nonce (chop a)) before s k
  = scan linkRegex (λ a _ _, link_callback nonce a) before s k.
Proof.
  induction s as [|c s IH]; intros before k H.
  - done.
  - cbn [links_end_plainly] in H. apply andb_true_iff in H as [Hc Hs].
    cbn [scan]. destruct k as [|k]; [|by apply IH].
    destruct (linkRegex (c :: s)) as [[a [|n]]|].
    + rewrite chop_plain by done. by rewrite IH.
    + rewrite chop_plain by done. by rewrite IH.
    + by rewrite IH.
Qed.
End LinkStepsAgree.

(** X15.  The link steps of the two hooks agree wherever the attribute list
    of a link element is empty or ends with a code unit that is neither a
    blank nor a slash: on a text all of whose link elements are of that kind,
    [generateBundle] rewrites the link elements as [transformIndexHtml]
    does. *)
Theorem link_steps_agree_on_plain_endings (nonce s : jsstr) :
  links_end_plainly s = true →
  bundle_replace_links nonce s = replace_links nonce s.
Proof.
  intros H. rewrite bundle_replace_links_chop. by apply scan_links_end_plainly.
Qed.

Lemma link_steps_agree_on_plain_endings_witness :
  bundle_replace_links (lit "abc") (lit "<p><link rel=icon href=a.png><link a></p>")
  = replace_links (lit "abc") (lit "<p><link rel=icon href=a.png><link a></p>").
Proof.
  apply (link_steps_agree_on_plain_endings (lit "abc")
           (lit "<p><link rel=icon href=a.png><link a></p>")).
  vm_compute. reflexivity.
Defined.

(** ** Every rewritten link element carries a nonce *)

Section CallbackNonce.
Implicit Types nonce a p s : jsstr.

Lemma occurs_reverse p s : occurs p s → occurs (reverse p) (reverse s).
Proof.
  intros (x & y & ->). exists (reverse y), (reverse x).
  by rewrite !reverse_app, <- !app_assoc.
Qed.

Lemma trim_end_keeps p s :
  p ≠ [] → starts_blank (reverse p) = false →
  occurs p s → occurs p (trim_end s).
Proof.
  intros Hp Hb Hocc. unfold trim_end.
  apply occurs_reverse in Hocc as (x & y & Hs).
  rewrite <- (reverse_involutive p). apply occurs_reverse.
  rewrite Hs. apply trim_start_keeps; [|done].
  intros Hr. apply Hp. apply (f_equal reverse) in Hr.
  by rewrite reverse_involutive in Hr.
Qed.

Lemma trim_keeps_nonce s :
  includes (lit "nonce=") s = true → includes (lit "nonce=") (trim s) = true.
Proof.
  intros (x & y & ->)%includes_occurs. apply includes_occurs.
  unfold trim. apply trim_end_keeps; [done | done |].
  by apply trim_start_keeps.
Qed.

Lemma link_callback_has_nonce nonce a :
  includes (lit "nonce=") (link_callback nonce a) = true.
Proof.
  apply includes_occurs. unfold link_callback.
  apply occurs_app_r, occurs_app_l, includes_occurs, trim_keeps_nonce.
  destruct (includes (lit "nonce=") (strip_self_closing a)) eqn:Hi; cbn [negb]; [done|].
  apply includes_occurs, occurs_app_r.
  exists [32%N], ([DQUOTE] ++ nonce ++ [DQUOTE]). reflexivity.
Qed.
End CallbackNonce.

(** X16.  Whatever the attribute list and the nonce are, the element that
    the link callback writes starts with [<link] and a blank, ends with [>]
    and contains [nonce=]: the one the element had or the one the callback
    adds.  Between the blank and the [>] the text has no blank at either
    end. *)
Theorem rewritten_link_carries_nonce (nonce attributes : jsstr) :
  ∃ body,
    link_callback nonce attributes = lit "<link " ++ body ++ [GT]
    ∧ includes (lit "nonce=") body = true
    ∧ starts_blank body = false
    ∧ starts_blank (reverse body) = false.
Proof.
  unfold link_callback.
  set (x := if negb (includes (lit "nonce=") (strip_self_closing attributes))
            then strip_self_closing attributes ++ nonce_attribute nonce
            else strip_self_closing attributes).
  exists (trim x). split; [done|]. split; [|split].
  - apply trim_keeps_nonce. unfold x.
    destruct (includes (lit "nonce=") (strip_self_closing attributes)) eqn:Hi;
      cbn [negb]; [done|].
    apply includes_occurs, occurs_app_r.
    exists [32%N], ([DQUOTE] ++ nonce ++ [DQUOTE]). reflexivity.
  - unfold trim, trim_end.
    destruct (trim_start (reverse (trim_start x))) as [|c r] eqn:Hr.
    + done.
    + pose proof (trim_start_not_blank (reverse (trim_start x))) as Hnb.
      pose proof (trim_start_not_blank x) as Hx.
      pose proof (trim_start_suffix (reverse (trim_start x))) as [k Hk].
      rewrite Hr in Hk, Hnb.
      apply (f_equal reverse) in Hk. rewrite reverse_involutive, reverse_app in Hk.
      destruct (reverse (c :: r)) as [|d r'] eqn:Hrev.
      * done.
      * rewrite Hk in Hx. exact Hx.
  - unfold trim, trim_end. rewrite reverse_involutive. apply trim_start_not_blank.
Qed.

(** ** Tag tokens in the sources written by [generateBundle] *)

Section BundleLinksReplaced.
Implicit Types nonce s a out : jsstr.

Lemma bundle_replace_links_replaced nonce n : ∀ s b0,
  length s ≤ n →
  bundle_links_replaced nonce s
    (scan linkRegex (λ a _ _, link_callback nonce (chop a)) b0 s 0).
Proof.
  induction n as [|n IH]; intros s b0 Hlen.
  - destruct s; [|simpl in Hlen; lia]. constructor.
  - destruct s as [|c t]; [constructor|].
    destruct (linkRegex (c :: t)) as [[a len]|] eqn:Hm.
    + destruct (linkRegex_inv _ _ _ Hm) as (blanks & rest & Hs & -> & Ha).
      assert (Hl : length (c :: t)
                   = S (length link_token + length blanks + length a) + length rest).
      { rewrite Hs, !length_app. simpl. lia. }
      rewrite (scan_match _ _ _ _ _ _ Hm) by lia.
      replace (drop _ (c :: t)) with rest.
      * rewrite Hs at 1. apply bundle_links_match; [done|]. apply IH.
        change (length (c :: t)) with (S (length t)) in *. lia.
      * rewrite Hs.
        replace (link_token ++ blanks ++ a ++ GT :: rest)
          with ((link_token ++ blanks ++ a ++ [GT]) ++ rest)
          by (by rewrite <- !app_assoc).
        rewrite drop_app_length'; [done|]. rewrite !length_app. simpl. lia.
    + rewrite scan_miss by done. apply bundle_links_miss, IH.
      change (length (c :: t)) with (S (length t)) in *. lia.
Qed.

Lemma bundle_links_prefix nonce s out :
  bundle_links_replaced nonce s out →
  ∀ q, 60%N ∉ q → q `prefix_of` out → q `prefix_of` s.
Proof.
  induction 1 as [|blanks a rest out _ _ _|c t out _ IH]; intros q Hq Hpre.
  - done.
  - destruct q as [|q0 q]; [apply prefix_nil|].
    apply prefix_cons_inv_1 in Hpre as ->. exfalso. apply Hq. by left.
  - destruct q as [|q0 q]; [apply prefix_nil|].
    pose proof (prefix_cons_inv_1 _ _ _ _ Hpre) as ->.
    apply prefix_cons, IH.
    + intros Hin. apply Hq. by right.
    + by apply prefix_cons_inv_2 in Hpre.
Qed.

Lemma bundle_links_keeps_prefix nonce s out :
  bundle_links_replaced nonce s out →
  ∀ q, 60%N ∉ q → q `prefix_of` s → q `prefix_of` out.
Proof.
  induction 1 as [|blanks a rest out _ _ _|c t out _ IH]; intros q Hq Hpre.
  - done.
  - destruct q as [|q0 q]; [apply prefix_nil|].
    apply prefix_cons_inv_1 in Hpre as ->. exfalso. apply Hq. by left.
  - destruct q as [|q0 q]; [apply prefix_nil|].
    pose proof (prefix_cons_inv_1 _ _ _ _ Hpre) as ->.
    apply prefix_cons, IH.
    + intros Hin. apply Hq. by right.
    + by apply prefix_cons_inv_2 in Hpre.
Qed.

Lemma closing_chars a : closing a = true → forallb blank_or_slash a = true.
Proof.
  destruct a as [|c r]; [done|]. cbn [closing]. unfold blank_or_slash.
  destruct (c =? SLASH)%N eqn:Hc.
  - intros H. cbn [forallb]. rewrite Hc, orb_true_r. cbn [andb].
    rewrite forallb_forall in *. intros x Hx. by rewrite (H x Hx).
  - intros H. rewrite forallb_forall in *. intros x Hx. by rewrite (H x Hx).
Qed.

Lemma chop_split a :
  ∃ tail, a = chop a ++ tail ∧ forallb blank_or_slash tail = true.
Proof.
  induction a as [|c a (tail & Ha & Htail)].
  - by exists [].
  - cbn [chop]. destruct (closing (c :: a)) eqn:Hc.
    + exists (c :: a). split; [done|]. by apply closing_chars.
    + exists tail. split; [|done]. cbn [app]. by rewrite <- Ha.
Qed.

(** What the callback of [generateBundle] keeps of the attribute list. *)
Lemma kept_split a :
  ∃ tail, a = strip_self_closing (chop a) ++ tail
          ∧ forallb blank_or_slash tail = true.
Proof.
  destruct (chop_split a) as (t1 & Ha & Ht1).
  destruct (strip_split (chop a)) as (t2 & Hc & Ht2).
  exists (t2 ++ t1). split.
  - rewrite app_assoc, <- Hc. exact Ha.
  - by rewrite forallb_app, Ht2, Ht1.
Qed.
End BundleLinksReplaced.

Section BundleLinksFollowed.
Variables (T' nonce : jsstr).
Local Abbreviation T := (60%N :: T').
Local Abbreviation A := (nonce_attribute nonce).
Hypothesis T_fresh : 60%N ∉ T'.
Hypothesis T_blank : 32%N ∉ T.
Hypothesis T_gt : GT ∉ T.
Hypothesis T_link : no_start T (lit "<link ") = true.
Hypothesis nonce_tame : tame nonce = true.
Implicit Types s out x z k : jsstr.

Lemma followed_bundle_callback blanks attributes rest out :
  followed T A (link_token ++ blanks ++ attributes ++ GT :: rest) →
  followed T A out →
  followed T A (link_callback nonce (chop attributes) ++ out).
Proof.
  intros Hs Hout. unfold link_callback.
  set (S := strip_self_closing (chop attributes)).
  set (X := if negb (includes (lit "nonce=") S) then S ++ A else S).
  assert (HX : ∃ E, (E = A ∨ E = []) ∧ X = S ++ E).
  { unfold X. destruct (negb _); [by exists A; split; [left|] |].
    exists []. split; [by right | by rewrite app_nil_r]. }
  destruct HX as (E & HE & HX).
  rewrite <- !app_assoc. apply followed_app_no_start; [done|].
  apply followed_app.
  - intros x Hx [m Hm] Hp. cbn [app] in Hp.
    pose proof (prefix_stop _ _ _ _ T_gt Hp) as [z ->].
    destruct (trim_split X) as (lead & trail & HXsplit & _ & Htrail).
    rewrite Hm, HX in HXsplit.
    assert (Heq : S ++ E = (lead ++ m) ++ T ++ (z ++ trail))
      by (by rewrite HXsplit, <- !app_assoc).
    apply (token_before_attribute T' nonce T_blank nonce_tame S E _ _ HE) in Heq
      as (k & HS & Hz).
    destruct (kept_split attributes) as (tail & Hattrs & Htail).
    fold S in Hattrs.
    assert (HA : A `prefix_of` k).
    { rewrite attribute_snoc.
      apply (prefix_cut _ DQUOTE k tail); [by apply (forallb_not_elem blank_or_slash)|].
      rewrite <- attribute_snoc.
      apply (prefix_stop A (k ++ tail) GT rest (attribute_no_gt nonce nonce_tame)).
      rewrite <- app_assoc.
      apply (Hs (link_token ++ blanks ++ lead ++ m) (k ++ tail ++ GT :: rest)).
      rewrite Hattrs, HS. by rewrite <- !app_assoc. }
    assert (HA' : A `prefix_of` z).
    { rewrite attribute_snoc.
      apply (prefix_cut _ DQUOTE z trail); [by apply (forallb_not_elem is_space)|].
      rewrite <- attribute_snoc, Hz. by apply prefix_app_r. }
    rewrite <- !app_assoc. apply prefix_app. by apply prefix_app_r.
  - cbn [app]. apply followed_cons; [|done].
    intros Hp. apply prefix_cons_inv_1 in Hp. done.
Qed.

Lemma bundle_links_followed s out :
  bundle_links_replaced nonce s out → followed T A s → followed T A out.
Proof.
  induction 1 as [|blanks a rest out Ha Hrep IH|c t out Hrep IH]; intros Hs.
  - done.
  - apply (followed_bundle_callback blanks a rest out Hs). apply IH.
    rewrite !app_assoc in Hs. apply followed_tail in Hs.
    by apply (followed_tail T A [GT]).
  - apply followed_cons.
    + intros Hp. pose proof (prefix_cons_inv_1 _ _ _ _ Hp) as <-.
      apply prefix_cons_inv_2 in Hp.
      apply (bundle_links_prefix nonce t out Hrep) in Hp; [|done].
      assert (Hreg : T ++ A `prefix_of` 60%N :: t).
      { apply (followed_good T A [] _ Hs). by apply prefix_cons. }
      cbn [app] in *. apply prefix_cons. apply prefix_cons_inv_2 in Hreg.
      apply (bundle_links_keeps_prefix nonce t out Hrep); [|done].
      rewrite elem_of_app. intros [H | H]; [done|].
      by apply (attribute_no_lt nonce nonce_tame).
    + apply IH. by apply (followed_tail T A [c]).
Qed.

Lemma followed_bundle_replace_links s :
  followed T A s → followed T A (bundle_replace_links nonce s).
Proof.
  rewrite bundle_replace_links_chop. apply bundle_links_followed.
  by apply (bundle_replace_links_replaced nonce (length s)).
Qed.
End BundleLinksFollowed.

(** X17.  In the source that [generateBundle] writes for an HTML asset,
    every occurrence of [<script] and every occurrence of [<style] is
    immediately followed by the nonce attribute, a blank, [nonce=] and the
    nonce between double quotes, whatever the source was.  The nonce holds
    no [<], no [>], no double quote and no [$] pattern (the default
    placeholder is such a nonce). *)
Theorem bundle_tags_carry_the_nonce (nonce source : jsstr) :
  plain_template nonce = true → tame nonce = true →
  followed script_token (nonce_attribute nonce) (bundle_source nonce source)
  ∧ followed style_token (nonce_attribute nonce) (bundle_source nonce source)
  ∧ plain_template (noncePlaceholder default_options) = true
  ∧ tame (noncePlaceholder default_options) = true.
Proof.
  intros Hp Ht. unfold bundle_source. split; [|split; [|split; reflexivity]].
  - apply (followed_tag_style_attributes nonce Hp Ht (lit "script"));
      [apply (bool_decide_unpack _); vm_compute; exact I
      | apply (bool_decide_unpack _); vm_compute; exact I |].
    apply (followed_bundle_replace_links (lit "script") nonce);
      [apply (bool_decide_unpack _); vm_compute; exact I
      | apply (bool_decide_unpack _); vm_compute; exact I
      | apply (bool_decide_unpack _); vm_compute; exact I
      | vm_compute; reflexivity | done |].
    by apply followed_tag_styles, followed_tag_scripts.
  - apply (followed_tag_style_attributes nonce Hp Ht (lit "style"));
      [apply (bool_decide_unpack _); vm_compute; exact I
      | apply (bool_decide_unpack _); vm_compute; exact I |].
    apply (followed_bundle_replace_links (lit "style") nonce);
      [apply (bool_decide_unpack _); vm_compute; exact I
      | apply (bool_decide_unpack _); vm_compute; exact I
      | apply (bool_decide_unpack _); vm_compute; exact I
      | vm_compute; reflexivity | done |].
    by apply followed_tag_styles_own.
Qed.

Lemma bundle_tags_carry_the_nonce_witness :
  followed script_token (nonce_attribute (lit "NONCE_PLACEHOLDER"))
    (bundle_source (lit "NONCE_PLACEHOLDER") (lit "<link <script/>")).
Proof.
  apply (proj1 (bundle_tags_carry_the_nonce (lit "NONCE_PLACEHOLDER")
                  (lit "<link <script/>") eq_refl eq_refl)).
Defined.

(** ** The nonce enters the sources of a bundle by copy only *)

Section Expand.
Variables (h : N) (n : jsstr).
Hypothesis h_big : (65536 <= h)%N.
Local Abbreviation E := (expand h n).
Implicit Types x y s t u v w a tok : jsstr.

Lemma expand_nil : E [] = [].
Proof. reflexivity. Qed.

Lemma expand_hole x : E (h :: x) = n ++ E x.
Proof. unfold expand. cbn [flat_map]. by rewrite N.eqb_refl. Qed.

Lemma expand_other c x : c ≠ h → E (c :: x) = c :: E x.
Proof.
  intros Hc. unfold expand. cbn [flat_map].
  by replace (c =? h)%N with false by (symmetry; by apply N.eqb_neq).
Qed.

Lemma expand_app x y : E (x ++ y) = E x ++ E y.
Proof. apply flat_map_app. Qed.

Lemma expand_fixed x : h ∉ x → E x = x.
Proof.
  induction x as [|c x IH]; [done|]. intros [Hc Hx]%not_elem_of_cons.
  rewrite expand_other by done. by rewrite IH.
Qed.

Lemma lit_small (str : string) c : c ∈ lit str → (c < 256)%N.
Proof.
  induction str as [|a str IH]; cbn [lit].
  - by intros ?%elem_of_nil.
  - intros [-> | H]%elem_of_cons; [|by apply IH].
    unfold ch. apply N_ascii_bounded.
Qed.

Lemma hole_not_lit (str : string) : h ∉ lit str.
Proof. intros H%lit_small. lia. Qed.

Lemma hole_not_space : is_space h = false.
Proof.
  destruct (is_space h) eqn:H; [|done]. exfalso. unfold is_space in H.
  rewrite !orb_true_iff, !andb_true_iff, !N.leb_le, !N.eqb_eq in H. lia.
Qed.

Lemma hole_not_gt : h ≠ GT.
Proof. unfold GT. lia. Qed.

Lemma hole_not_quote : h ≠ DQUOTE.
Proof. unfold DQUOTE. lia. Qed.

Lemma hole_not_slash : h ≠ SLASH.
Proof. unfold SLASH. lia. Qed.

(** *** The invariants *)

Lemma hole_after_tail u x : hole_after h (u ++ x) → hole_after h x.
Proof. intros H a b ->. apply (H (u ++ a) b). by rewrite <- app_assoc. Qed.

Lemma hole_before_tail u x : hole_before h (u ++ x) → hole_before h x.
Proof.
  intros H a b ->. destruct a as [|a0 a _] using rev_ind; [by left|]. right.
  destruct (H (u ++ a ++ [a0]) b) as [Hnil | [u' Hu']].
  - by rewrite <- !app_assoc.
  - by destruct u, a.
  - rewrite app_assoc in Hu'. apply app_inj_tail in Hu' as [_ ->]. by exists a.
Qed.

Lemma hole_after_cons c x : hole_after h (c :: x) → hole_after h x.
Proof. apply (hole_after_tail [c]). Qed.

Lemma hole_before_cons c x : hole_before h (c :: x) → hole_before h x.
Proof. apply (hole_before_tail [c]). Qed.

Lemma hole_after_head x : hole_after h (h :: x) → ∃ x', x = DQUOTE :: x'.
Proof. intros H. by apply (H [] x). Qed.

(** Behind a code unit that is no double quote there is no mark. *)
Lemma hole_before_next c x :
  hole_before h (c :: x) → c ≠ DQUOTE → head_clear h x.
Proof.
  intros H Hc. destruct x as [|d x]; [done|]. cbn [head_clear]. intros ->.
  destruct (H [c] x eq_refl) as [? | [u' Hu']]; [done|].
  destruct u' as [|u0 u']; simplify_eq/=. by destruct u'.
Qed.

Lemma hole_absent_after x : h ∉ x → hole_after h x.
Proof. intros H u v ->. exfalso. apply H. apply elem_of_app. right. by left. Qed.

Lemma hole_absent_before x : h ∉ x → hole_before h x.
Proof. intros H u v ->. exfalso. apply H. apply elem_of_app. right. by left. Qed.

Lemma hole_absent_head x : h ∉ x → head_clear h x.
Proof. destruct x; [done|]. intros H ->. apply H. by left. Qed.

(** *** Reading a token in the expanded text *)

Lemma starts_with_expand tok : ∀ x,
  h ∉ tok → DQUOTE ∉ removelast tok →
  hole_before h x → head_clear h x →
  starts_with tok (E x) = starts_with tok x.
Proof.
  induction tok as [|t0 tok IH]; intros x Hh Hq Hb Hc; [done|].
  apply not_elem_of_cons in Hh as [Ht0 Hh].
  destruct x as [|c x]; [done|]. cbn [head_clear] in Hc.
  rewrite expand_other by done. cbn [starts_with].
  destruct (t0 =? c)%N eqn:Heq; [|done]. cbn [andb].
  apply N.eqb_eq in Heq. subst c.
  destruct tok as [|t1 tok]; [done|].
  apply IH; [done | | by apply (hole_before_cons t0) |].
  - intros Hin. apply Hq. cbn [removelast]. by right.
  - apply (hole_before_next t0); [done|]. intros ->. apply Hq. cbn [removelast]. by left.
Qed.

(** *** Runs of blanks and of code units other than [>] *)

Lemma take_while_space_expand x :
  hole_before h x → head_clear h x →
  take_while is_space (E x) = take_while is_space x.
Proof.
  induction x as [|c x IH]; intros Hb Hc; [done|]. cbn [head_clear] in Hc.
  rewrite expand_other by done. cbn [take_while].
  destruct (is_space c) eqn:Hs; [|done]. f_equal.
  apply IH; [by apply (hole_before_cons c)|].
  apply (hole_before_next c); [done|]. by intros ->.
Qed.

Lemma drop_while_space_expand x :
  hole_before h x → head_clear h x →
  drop_while is_space (E x) = E (drop_while is_space x).
Proof.
  induction x as [|c x IH]; intros Hb Hc; [done|]. cbn [head_clear] in Hc.
  rewrite expand_other by done. cbn [drop_while].
  destruct (is_space c) eqn:Hs; [|by rewrite expand_other].
  apply IH; [by apply (hole_before_cons c)|].
  apply (hole_before_next c); [done|]. by intros ->.
Qed.

Lemma drop_while_space_clear x :
  hole_before h x → head_clear h x →
  hole_before h (drop_while is_space x) ∧ head_clear h (drop_while is_space x).
Proof.
  induction x as [|c x IH]; intros Hb Hc; [done|]. cbn [drop_while].
  destruct (is_space c) eqn:Hs; [|done].
  apply IH; [by apply (hole_before_cons c)|].
  apply (hole_before_next c); [done|]. by intros ->.
Qed.

(** *** Putting texts together *)

Lemma hole_after_app x y : hole_after h x → hole_after h y → hole_after h (x ++ y).
Proof.
  intros Hx Hy u v Huv.
  apply app_eq_inv in Huv as [(k & -> & Hk) | (k & -> & Hk)].
  - destruct k as [|k0 k].
    + rewrite app_nil_r in *. cbn [app] in Hk. by apply (Hy [] v).
    + injection Hk as <- ->. destruct (Hx u k eq_refl) as [k' ->]. by eexists.
  - by apply (Hy k v).
Qed.

Lemma hole_before_app x y :
  hole_before h x → hole_before h y →
  head_clear h y ∨ (∃ x', x = x' ++ [DQUOTE]) →
  hole_before h (x ++ y).
Proof.
  intros Hx Hy Hhead u v Huv.
  apply app_eq_inv in Huv as [(k & -> & Hk) | (k & -> & Hk)].
  - destruct k as [|k0 k].
    + rewrite app_nil_r in *. cbn [app] in Hk. subst y.
      destruct Hhead as [Hc | [x' ->]]; [done|]. right. by exists x'.
    + injection Hk as <- ->. by apply (Hx u k).
  - destruct (Hy k v Hk) as [-> | [k' ->]].
    + rewrite app_nil_r. subst y.
      destruct Hhead as [Hc | [x' ->]]; [done|]. right. by exists x'.
    + right. exists (x ++ k'). by rewrite <- app_assoc.
Qed.

Lemma head_clear_app x y : x ≠ [] → head_clear h x → head_clear h (x ++ y).
Proof. by destruct x. Qed.

(** The attribute with the mark for the nonce. *)
Lemma hole_wrapped_after a b :
  h ∉ a → h ∉ b → hole_after h (a ++ DQUOTE :: h :: DQUOTE :: b).
Proof.
  intros Ha Hb. apply hole_after_app; [by apply hole_absent_after|].
  intros u v Huv. destruct u as [|u0 u].
  - injection Huv as Hq _. symmetry in Hq. by apply hole_not_quote in Hq.
  - injection Huv as _ Huv. destruct u as [|u1 u].
    + injection Huv as <-. by eexists.
    + injection Huv as _ Huv. exfalso.
      assert (Hin : h ∈ DQUOTE :: b) by (rewrite Huv; apply elem_of_app; right; by left).
      apply elem_of_cons in Hin as [Hq | Hin]; [by apply hole_not_quote in Hq | done].
Qed.

Lemma hole_wrapped_before a b :
  h ∉ a → h ∉ b → hole_before h (a ++ DQUOTE :: h :: DQUOTE :: b).
Proof.
  intros Ha Hb.
  change (a ++ DQUOTE :: h :: DQUOTE :: b) with (a ++ [DQUOTE] ++ h :: DQUOTE :: b).
  rewrite app_assoc. apply hole_before_app.
  - apply hole_absent_before. rewrite elem_of_app. intros [H | H]; [done|].
    apply elem_of_cons in H as [H | H%elem_of_nil]; [|done]. by apply hole_not_quote in H.
  - intros u v Huv. destruct u as [|u0 u]; [by left|]. exfalso.
    injection Huv as _ Huv.
    assert (Hin : h ∈ DQUOTE :: b) by (rewrite Huv; apply elem_of_app; right; by left).
    apply elem_of_cons in Hin as [Hq | Hin]; [by apply hole_not_quote in Hq | done].
  - right. by exists a.
Qed.

(** *** The three [replaceAll] steps *)

Lemma inserted_through tok ins w : ∀ y o,
  (∀ w', w' ≠ [] → w' `suffix_of` w → starts_with tok (w' ++ y) = false) →
  inserted tok ins y o → inserted tok ins (w ++ y) (w ++ o).
Proof.
  induction w as [|c w IH]; intros y o Hw Hins; [done|].
  cbn [app]. apply inserted_miss.
  - by apply (Hw (c :: w)).
  - apply IH; [|done]. intros w' Hw' Hsuf. apply Hw; [done|]. by apply suffix_cons_r.
Qed.

Lemma inserted_head tok ins x out :
  head_clear h tok → tok ≠ [] →
  inserted tok ins x out → head_clear h x → head_clear h out.
Proof.
  intros Htok Hne. destruct 1 as [|rest out _|c t out _ _]; [done| |done].
  intros _. destruct tok; [done|]. exact Htok.
Qed.

Section Inserting.
Variables (tok a b : jsstr).
Hypothesis tok_ne : tok ≠ [].
Hypothesis tok_hole : h ∉ tok.
Hypothesis a_hole : h ∉ a.
Hypothesis b_hole : h ∉ b.
Hypothesis tok_quote : DQUOTE ∉ removelast tok.
Hypothesis tok_clear : nonce_clear n tok.

Lemma inserted_expand x out :
  inserted tok (a ++ h :: b) x out →
  hole_after h x → hole_before h x →
  inserted tok (a ++ n ++ b) (E x) (E out).
Proof.
  induction 1 as [|rest out _ IH|c t out Hmiss _ IH]; intros Ha Hb.
  - constructor.
  - assert (Hout : E (tok ++ (a ++ h :: b) ++ out) = tok ++ (a ++ n ++ b) ++ E out).
    { rewrite !expand_app, expand_hole, (expand_fixed tok), (expand_fixed a),
        (expand_fixed b) by done. by rewrite <- !app_assoc. }
    rewrite Hout, expand_app, (expand_fixed tok) by done. apply inserted_match.
    apply IH; [by apply (hole_after_tail tok) | by apply (hole_before_tail tok)].
  - destruct (decide (c = h)) as [-> | Hc].
    + destruct (hole_after_head t Ha) as [t' ->].
      rewrite !expand_hole. apply inserted_through.
      * intros w' Hw' Hsuf. rewrite expand_other by apply not_eq_sym, hole_not_quote.
        by apply tok_clear.
      * apply IH; [by apply (hole_after_cons h) | by apply (hole_before_cons h)].
    + rewrite !expand_other by done. apply inserted_miss.
      * rewrite <- (expand_other c t) by done.
        by rewrite starts_with_expand.
      * apply IH; [by apply (hole_after_cons c) | by apply (hole_before_cons c)].
Qed.

Lemma replaceAll_expand x :
  plain_template (tok ++ a ++ n ++ b) = true →
  plain_template (tok ++ a ++ h :: b) = true →
  hole_after h x → hole_before h x →
  replaceAll tok (tok ++ a ++ n ++ b) (E x)
  = E (replaceAll tok (tok ++ a ++ h :: b) x).
Proof.
  intros Hpn Hph Ha Hb.
  apply (inserted_functional tok (a ++ n ++ b) tok_ne (E x)).
  - by apply (replaceAll_inserted tok (a ++ n ++ b) tok_ne Hpn (length (E x))).
  - apply inserted_expand; [|done|done].
    by apply (replaceAll_inserted tok (a ++ h :: b) tok_ne Hph (length x)).
Qed.
End Inserting.

(** The script and style steps keep the marks between double quotes. *)
Lemma inserted_closed tok a x out :
  tok ≠ [] → h ∉ tok → h ∉ a →
  inserted tok (a ++ DQUOTE :: h :: [DQUOTE]) x out →
  hole_after h x → hole_before h x →
  hole_after h out ∧ hole_before h out.
Proof.
  intros Hne Htok Ha.
  induction 1 as [|rest out Hins IH|c t out Hmiss Hins IH]; intros Hx Hb.
  - done.
  - destruct IH as [IHa IHb];
      [by apply (hole_after_tail tok) | by apply (hole_before_tail tok)|].
    split.
    + apply hole_after_app; [by apply hole_absent_after|].
      apply hole_after_app; [by apply hole_wrapped_after; [|apply not_elem_of_nil]|done].
    + apply hole_before_app; [by apply hole_absent_before | | left].
      * apply hole_before_app; [|done|].
        -- by apply hole_wrapped_before; [|apply not_elem_of_nil].
        -- right. exists (a ++ [DQUOTE; h]). by rewrite <- !app_assoc.
      * destruct a as [|a0 a']; cbn [app head_clear].
        -- apply not_eq_sym, hole_not_quote.
        -- intros ->. apply Ha. by left.
  - destruct IH as [IHa IHb];
      [by apply (hole_after_cons c) | by apply (hole_before_cons c)|].
    split.
    + intros u v Huv. destruct u as [|u0 u].
      * injection Huv as -> ->.
        destruct (hole_after_head t Hx) as [t' ->].
        inversion Hins as [|rest2 out2 _ Hs|c2 t2 out2 _ _ Hs]; subst.
        -- destruct tok as [|t0 tok']; [done|]. cbn [app] in Hs.
           injection Hs as -> _. by eexists.
        -- by eexists.
      * injection Huv as _ ->. by apply (IHa u v).
    + intros u v Huv. destruct u as [|u0 u]; [by left|].
      injection Huv as <- ->. destruct u as [|u1 u].
      * right. exists []. cbn [app]. f_equal.
        assert (Ht : ¬ head_clear h t).
        { intros Hc.
          assert (Hth : head_clear h tok).
          { destruct tok as [|t0 tok']; [done|]. intros ->. apply Htok. by left. }
          by pose proof (inserted_head tok _ t (h :: v) Hth Hne Hins Hc). }
        destruct t as [|t0 t]; [done|]. cbn [head_clear] in Ht.
        destruct (decide (t0 = h)) as [-> | Hne']; [|done].
        destruct (Hb [c] t eq_refl) as [? | [u' Hu']]; [done|].
        destruct u' as [|? u']; simplify_eq/=; [done|]. by destruct u'.
      * destruct (IHb (u1 :: u) v eq_refl) as [? | [u' ->]]; [done|].
        right. exists (c :: u'). done.
Qed.

(** *** The link step *)

Lemma hole_before_prefix x y : hole_before h (x ++ y) → hole_before h x.
Proof. intros H u v ->. apply (H u (v ++ y)). by rewrite <- app_assoc. Qed.

Lemma hole_after_cut x tail :
  (∀ c, c ∈ tail → c ≠ DQUOTE) → hole_after h (x ++ tail) → hole_after h x.
Proof.
  intros Htail H u v ->.
  destruct (H u (v ++ tail)) as [v' Hv']; [by rewrite <- app_assoc|].
  destruct v as [|v0 v].
  - exfalso. cbn [app] in Hv'. apply (Htail DQUOTE); [|done]. rewrite Hv'. by left.
  - injection Hv' as -> _. by eexists.
Qed.

Lemma head_clear_prefix x y : head_clear h (x ++ y) → head_clear h x.
Proof. by destruct x. Qed.

Lemma blank_or_slash_no_quote tail :
  forallb blank_or_slash tail = true → ∀ c, c ∈ tail → c ≠ DQUOTE.
Proof.
  intros H c Hc ->. rewrite forallb_forall in H.
  apply list_elem_of_In in Hc. by specialize (H _ Hc).
Qed.

Lemma space_no_quote tail :
  forallb is_space tail = true → ∀ c, c ∈ tail → c ≠ DQUOTE.
Proof.
  intros H c Hc ->. rewrite forallb_forall in H.
  apply list_elem_of_In in Hc. by specialize (H _ Hc).
Qed.

Lemma forallb_space_expand x :
  hole_after h x → forallb is_space (E x) = forallb is_space x.
Proof.
  induction x as [|c x IH]; intros Ha; [done|].
  destruct (decide (c = h)) as [-> | Hc].
  - destruct (hole_after_head x Ha) as [x' ->].
    rewrite expand_hole, expand_other by apply not_eq_sym, hole_not_quote.
    rewrite forallb_app. cbn [forallb]. rewrite hole_not_space.
    by rewrite andb_false_r.
  - rewrite expand_other by done. cbn [forallb]. f_equal.
    by apply IH, (hole_after_cons c).
Qed.

(** A text that holds a double quote is not made of blanks and slashes. *)
Lemma closing_quote w y : closing (w ++ DQUOTE :: y) = false.
Proof.
  destruct w as [|c w]; [done|]. cbn [app closing].
  destruct (c =? SLASH)%N.
  - rewrite forallb_app. cbn [forallb]. by rewrite andb_false_r.
  - change (c :: w ++ DQUOTE :: y) with ((c :: w) ++ DQUOTE :: y).
    rewrite forallb_app. cbn [forallb]. by rewrite andb_false_r.
Qed.

Lemma slash_tail_quote w y : slash_tail (w ++ DQUOTE :: y) = false.
Proof.
  unfold slash_tail. induction w as [|c w IH]; [done|].
  cbn [app drop_while]. destruct (is_space c); [done|].
  rewrite forallb_app. cbn [forallb]. by rewrite !andb_false_r.
Qed.

Lemma closing_expand x : hole_after h x → closing (E x) = closing x.
Proof.
  intros Ha. destruct x as [|c x]; [done|].
  destruct (decide (c = h)) as [-> | Hc].
  - destruct (hole_after_head x Ha) as [x' ->].
    rewrite expand_hole, expand_other by apply not_eq_sym, hole_not_quote.
    rewrite closing_quote. cbn [closing].
    replace (h =? SLASH)%N with false by (symmetry; apply N.eqb_neq, hole_not_slash).
    cbn [forallb]. by rewrite hole_not_space.
  - rewrite expand_other by done. cbn [closing].
    rewrite <- (expand_other c x) by done.
    rewrite !forallb_space_expand; [done | done | by apply (hole_after_cons c)].
Qed.

Lemma chop_cons c x : chop (c :: x) = if closing (c :: x) then [] else c :: chop x.
Proof. reflexivity. Qed.

Lemma chop_through w y : chop (w ++ DQUOTE :: y) = w ++ chop (DQUOTE :: y).
Proof.
  induction w as [|c0 w IHw]; [done|].
  change ((c0 :: w) ++ DQUOTE :: y) with (c0 :: w ++ DQUOTE :: y).
  rewrite chop_cons.
  change (c0 :: w ++ DQUOTE :: y) with ((c0 :: w) ++ DQUOTE :: y).
  rewrite closing_quote. cbn [app]. by rewrite IHw.
Qed.

Lemma chop_expand x : hole_after h x → chop (E x) = E (chop x).
Proof.
  induction x as [|c x IH]; intros Ha; [done|].
  destruct (decide (c = h)) as [-> | Hc].
  - destruct (hole_after_head x Ha) as [x' ->].
    rewrite (chop_cons h).
    change (closing (h :: DQUOTE :: x')) with (closing ([h] ++ DQUOTE :: x')).
    rewrite closing_quote.
    rewrite !expand_hole, <- IH by (by apply (hole_after_cons h)).
    rewrite expand_other by apply not_eq_sym, hole_not_quote.
    apply chop_through.
  - rewrite (chop_cons c x), <- closing_expand by done.
    rewrite expand_other by done. rewrite chop_cons.
    destruct (closing (c :: E x)); [done|].
    rewrite expand_other by done. f_equal. by apply IH, (hole_after_cons c).
Qed.

Lemma slash_tail_expand x : hole_after h x → slash_tail (E x) = slash_tail x.
Proof.
  induction x as [|c x IH]; intros Ha; [done|].
  destruct (decide (c = h)) as [-> | Hc].
  - destruct (hole_after_head x Ha) as [x' ->].
    rewrite expand_hole, expand_other by apply not_eq_sym, hole_not_quote.
    rewrite slash_tail_quote. unfold slash_tail. cbn [drop_while].
    rewrite hole_not_space.
    by replace (h =? SLASH)%N with false by (symmetry; apply N.eqb_neq, hole_not_slash).
  - rewrite expand_other by done. unfold slash_tail in *. cbn [drop_while].
    destruct (is_space c); [by apply IH, (hole_after_cons c)|].
    by rewrite forallb_space_expand by (by apply (hole_after_cons c)).
Qed.

Lemma strip_cons c x :
  strip_self_closing (c :: x)
  = if slash_tail (c :: x) then [] else c :: strip_self_closing x.
Proof. reflexivity. Qed.

Lemma strip_through w y :
  strip_self_closing (w ++ DQUOTE :: y) = w ++ strip_self_closing (DQUOTE :: y).
Proof.
  induction w as [|c0 w IHw]; [done|].
  change ((c0 :: w) ++ DQUOTE :: y) with (c0 :: w ++ DQUOTE :: y).
  rewrite strip_cons.
  change (c0 :: w ++ DQUOTE :: y) with ((c0 :: w) ++ DQUOTE :: y).
  rewrite slash_tail_quote. cbn [app]. by rewrite IHw.
Qed.

Lemma strip_expand x :
  hole_after h x → strip_self_closing (E x) = E (strip_self_closing x).
Proof.
  induction x as [|c x IH]; intros Ha; [done|].
  destruct (decide (c = h)) as [-> | Hc].
  - destruct (hole_after_head x Ha) as [x' ->].
    rewrite (strip_cons h).
    change (slash_tail (h :: DQUOTE :: x')) with (slash_tail ([h] ++ DQUOTE :: x')).
    rewrite slash_tail_quote.
    rewrite !expand_hole, <- IH by (by apply (hole_after_cons h)).
    rewrite expand_other by apply not_eq_sym, hole_not_quote.
    apply strip_through.
  - rewrite (strip_cons c x), <- slash_tail_expand by done.
    rewrite expand_other by done. rewrite strip_cons.
    destruct (slash_tail (c :: E x)); [done|].
    rewrite expand_other by done. f_equal. by apply IH, (hole_after_cons c).
Qed.

Lemma trim_start_drop_while x : trim_start x = drop_while is_space x.
Proof. induction x as [|c x IH]; [done|]. cbn. by rewrite IH. Qed.

Lemma trim_start_expand x :
  hole_before h x → head_clear h x → trim_start (E x) = E (trim_start x).
Proof. intros. rewrite !trim_start_drop_while. by apply drop_while_space_expand. Qed.

Lemma trim_end_snoc_cases x c :
  trim_end (x ++ [c]) = if is_space c then trim_end x else x ++ [c].
Proof.
  destruct (is_space c) eqn:Hc; [|by apply trim_end_snoc].
  unfold trim_end. rewrite reverse_app. cbn [reverse app].
  change (reverse [c]) with [c]. cbn [app trim_start]. by rewrite Hc.
Qed.

Lemma trim_end_expand x : hole_after h x → trim_end (E x) = E (trim_end x).
Proof.
  induction x as [|c x IH] using rev_ind; intros Ha; [done|].
  assert (Hc : c ≠ h).
  { intros ->. destruct (Ha x [] eq_refl) as [v' Hv']. done. }
  rewrite expand_app, expand_other, expand_nil by done.
  rewrite !trim_end_snoc_cases. destruct (is_space c) eqn:Hs.
  - apply IH. apply (hole_after_cut x [c]); [|done].
    intros d [-> | Hd%elem_of_nil]%elem_of_cons; [by intros -> | done].
  - by rewrite expand_app, expand_other, expand_nil by done.
Qed.

Section LinkStep.
Hypothesis n_gt : forallb not_gt n = true.
Hypothesis n_lt : 60%N ∉ n.
Hypothesis n_nonce : includes (lit "nonce=") n = false.

Lemma forallb_not_gt_expand x : forallb not_gt (E x) = forallb not_gt x.
Proof.
  induction x as [|c x IH]; [done|].
  destruct (decide (c = h)) as [-> | Hc].
  - rewrite expand_hole, forallb_app, n_gt, IH. cbn [forallb andb].
    unfold not_gt at 2.
    by replace (h =? GT)%N with false by (symmetry; apply N.eqb_neq, hole_not_gt).
  - rewrite expand_other by done. cbn [forallb]. by rewrite IH.
Qed.

Lemma take_while_gt_through w y :
  forallb not_gt w = true → take_while not_gt (w ++ y) = w ++ take_while not_gt y.
Proof.
  induction w as [|c w IH]; [done|]. cbn [forallb app take_while].
  intros [-> Hw]%andb_true_iff. by rewrite IH.
Qed.

Lemma drop_while_gt_through w y :
  forallb not_gt w = true → drop_while not_gt (w ++ y) = drop_while not_gt y.
Proof.
  induction w as [|c w IH]; [done|]. cbn [forallb app drop_while].
  intros [-> Hw]%andb_true_iff. by rewrite IH.
Qed.

Lemma hole_passes_gt : not_gt h = true.
Proof.
  unfold not_gt. by replace (h =? GT)%N with false
    by (symmetry; apply N.eqb_neq, hole_not_gt).
Qed.

Lemma take_while_gt_expand x : take_while not_gt (E x) = E (take_while not_gt x).
Proof.
  induction x as [|c x IH]; [done|].
  destruct (decide (c = h)) as [-> | Hc].
  - rewrite expand_hole, take_while_gt_through by done. cbn [take_while].
    by rewrite hole_passes_gt, expand_hole, IH.
  - rewrite expand_other by done. cbn [take_while].
    destruct (not_gt c); [|done]. by rewrite expand_other, IH.
Qed.

Lemma drop_while_gt_expand x : drop_while not_gt (E x) = E (drop_while not_gt x).
Proof.
  induction x as [|c x IH]; [done|].
  destruct (decide (c = h)) as [-> | Hc].
  - rewrite expand_hole, drop_while_gt_through by done. cbn [drop_while].
    by rewrite hole_passes_gt.
  - rewrite expand_other by done. cbn [drop_while].
    destruct (not_gt c); [done|]. by rewrite expand_other.
Qed.

Lemma includes_stop p a c b :
  p ≠ [] → c ∉ p → includes p (a ++ c :: b) = includes p a || includes p b.
Proof.
  intros Hp Hc. induction a as [|a0 a IH].
  - pose proof (starts_with_stop p [] c b Hc) as H0. cbn [app] in H0.
    cbn [app includes]. rewrite H0. by destruct p.
  - pose proof (starts_with_stop p (a0 :: a) c b Hc) as H0. cbn [app] in H0.
    cbn [app includes]. rewrite H0, IH. by rewrite orb_assoc.
Qed.

Lemma includes_quote p y :
  p ≠ [] → DQUOTE ∉ p → includes p (DQUOTE :: y) = includes p y.
Proof.
  intros Hp Hq. change (DQUOTE :: y) with ([] ++ DQUOTE :: y).
  rewrite includes_stop by done. by destruct p.
Qed.

Lemma includes_nonce_expand x :
  hole_after h x → hole_before h x →
  includes (lit "nonce=") (E x) = includes (lit "nonce=") x.
Proof.
  assert (Hq : DQUOTE ∉ lit "nonce=")
    by (apply (bool_decide_unpack _); vm_compute; exact I).
  assert (Hp : lit "nonce=" ≠ []) by done.
  induction x as [|c x IH]; intros Ha Hb; [done|].
  destruct (decide (c = h)) as [-> | Hc].
  - destruct (hole_after_head x Ha) as [x' ->].
    specialize (IH (hole_after_cons h _ Ha) (hole_before_cons h _ Hb)).
    rewrite expand_other in IH by apply not_eq_sym, hole_not_quote.
    rewrite !includes_quote in IH by done.
    rewrite expand_hole, expand_other by apply not_eq_sym, hole_not_quote.
    rewrite includes_stop, n_nonce, IH by done. cbn [orb].
    change (h :: DQUOTE :: x') with ([h] ++ DQUOTE :: x').
    rewrite includes_stop by done.
    replace (includes (lit "nonce=") [h]) with false; [done|].
    symmetry. cbn [includes lit starts_with]. rewrite orb_false_r.
    apply andb_false_iff. left. apply N.eqb_neq. intros Heq.
    apply (hole_not_lit "n"). rewrite <- Heq. by left.
  - rewrite expand_other by done. cbn [includes].
    rewrite <- (expand_other c x) by done.
    rewrite starts_with_expand; [| apply hole_not_lit | | done | done].
    + f_equal. apply IH; [by apply (hole_after_cons c) | by apply (hole_before_cons c)].
    + apply (bool_decide_unpack _). vm_compute. exact I.
Qed.

Lemma starts_with_link_expand x :
  hole_before h x → head_clear h x →
  starts_with link_token (E x) = starts_with link_token x.
Proof.
  intros. apply starts_with_expand; [apply hole_not_lit | | done | done].
  apply (bool_decide_unpack _). vm_compute. exact I.
Qed.

Lemma linkRegex_none_expand x :
  hole_before h x → head_clear h x →
  linkRegex x = None → linkRegex (E x) = None.
Proof.
  intros Hb Hc. unfold linkRegex. rewrite starts_with_link_expand by done.
  destruct (starts_with link_token x) eqn:Hm; [|done].
  apply starts_with_split in Hm.
  set (y := drop (length link_token) x) in *.
  assert (Hy : hole_before h y) by (apply (hole_before_tail link_token); by rewrite <- Hm).
  assert (Hyc : head_clear h y).
  { destruct y as [|y0 y']; [done|]. cbn [head_clear]. intros ->.
    destruct (Hb link_token y' Hm) as [? | [u' Hu']]; [done|].
    apply (f_equal reverse) in Hu'. rewrite reverse_snoc in Hu'. done. }
  replace (drop (length link_token) (E x)) with (E y).
  2:{ rewrite Hm at 1. rewrite expand_app, (expand_fixed link_token) by apply hole_not_lit.
      by rewrite drop_app_length. }
  rewrite take_while_space_expand by done.
  destruct (take_while is_space y) as [|b0 blanks]; [done|].
  rewrite drop_while_space_expand, take_while_gt_expand, drop_while_gt_expand by done.
  by destruct (drop_while not_gt (drop_while is_space y)).
Qed.

(** What a match of the link expression is made of. *)
Lemma linkRegex_match x a len :
  linkRegex x = Some (a, len) →
  ∃ blanks rest,
    x = (link_token ++ blanks ++ a ++ [GT]) ++ rest
    ∧ blanks ≠ [] ∧ forallb is_space blanks = true
    ∧ starts_blank a = false ∧ forallb not_gt a = true.
Proof.
  unfold linkRegex. destruct (starts_with link_token x) eqn:Hm; [|done].
  apply starts_with_split in Hm.
  set (s1 := drop (length link_token) x) in *.
  pose proof (take_drop_while is_space s1) as H1.
  pose proof (take_while_all is_space s1) as Hsp.
  pose proof (drop_while_head is_space s1) as Hhd.
  destruct (take_while is_space s1) as [|b0 blanks] eqn:Hb; [done|].
  set (s2 := drop_while is_space s1) in *.
  pose proof (take_drop_while not_gt s2) as H2.
  pose proof (take_while_all not_gt s2) as Hall.
  pose proof (drop_while_head not_gt s2) as Hhead.
  destruct (drop_while not_gt s2) as [|g rest]; [done|].
  apply not_gt_false in Hhead as ->.
  intros [= <- <-]. exists (b0 :: blanks), rest.
  split; [|split; [done|split; [done|split; [|done]]]].
  - rewrite <- !app_assoc. cbn [app] in *. by rewrite H2, H1.
  - destruct s2 as [|c s2']; [done|]. cbn [head_fails] in Hhd.
    cbn [take_while]. destruct (not_gt c); [|done]. exact Hhd.
Qed.

Lemma scan_link_element (f : jsstr → jsstr) blanks a post b0 :
  blanks ≠ [] → forallb is_space blanks = true →
  starts_blank a = false → forallb not_gt a = true →
  scan linkRegex (λ r _ _, f r) b0 ((link_token ++ blanks ++ a ++ [GT]) ++ post) 0
  = f a ++ scan linkRegex (λ r _ _, f r) [] post 0.
Proof.
  intros Hne Hblanks Hstart Hattrs.
  pose proof (linkRegex_element blanks a post Hne Hblanks Hstart Hattrs) as Hm.
  rewrite Nat.add_1_r in Hm.
  replace ((link_token ++ blanks ++ a ++ [GT]) ++ post)
    with (link_token ++ blanks ++ a ++ GT :: post) by (by rewrite <- !app_assoc).
  rewrite (scan_match _ _ _ _ _ _ Hm).
  - f_equal. replace (drop _ _) with post.
    + apply scan_before_irrelevant. done.
    + replace (link_token ++ blanks ++ a ++ GT :: post)
        with ((link_token ++ blanks ++ a ++ [GT]) ++ post)
        by (by rewrite <- !app_assoc).
      rewrite drop_app_length'; [done|]. rewrite !length_app. simpl. lia.
  - rewrite !length_app. simpl. lia.
Qed.

(** The attribute list of a link element holds its marks between double
    quotes. *)
Lemma attributes_sealed blanks a rest :
  blanks ≠ [] → forallb is_space blanks = true →
  hole_after h ((link_token ++ blanks ++ a ++ [GT]) ++ rest) →
  hole_before h ((link_token ++ blanks ++ a ++ [GT]) ++ rest) →
  hole_after h a ∧ hole_before h a ∧ head_clear h a
  ∧ hole_after h rest ∧ hole_before h rest ∧ head_clear h rest.
Proof.
  intros Hne Hsp Ha Hb.
  assert (Hx : (link_token ++ blanks ++ a ++ [GT]) ++ rest
               = (link_token ++ blanks) ++ a ++ [GT] ++ rest)
    by (by rewrite <- !app_assoc).
  rewrite Hx in Ha, Hb.
  assert (Ha' := hole_after_tail _ _ Ha). assert (Hb' := hole_before_tail _ _ Hb).
  split; [|split; [|split; [|split; [|split]]]].
  - intros u v ->. destruct (Ha' u (v ++ [GT] ++ rest)) as [v' Hv'].
    { by rewrite <- !app_assoc. }
    destruct v as [|v0 v]; [done|]. injection Hv' as -> _. by eexists.
  - by apply (hole_before_prefix a ([GT] ++ rest)).
  - destruct a as [|a0 a']; [done|]. cbn [head_clear]. intros ->.
    destruct (Hb (link_token ++ blanks) (a' ++ [GT] ++ rest) eq_refl) as [Hnil | [u' Hu']].
    + by destruct blanks.
    + destruct blanks as [|b0 blanks _] using rev_ind; [done|].
      rewrite !app_assoc in Hu'. apply app_inj_tail in Hu' as [_ ->].
      rewrite forallb_app in Hsp. by apply andb_true_iff in Hsp as [_ Hsp].
  - rewrite !app_assoc in Ha. by apply hole_after_tail in Ha.
  - rewrite !app_assoc in Hb. by apply hole_before_tail in Hb.
  - destruct rest as [|r0 rest']; [done|]. cbn [head_clear]. intros ->.
    rewrite !app_assoc in Hb.
    destruct (Hb _ rest' eq_refl) as [Hnil | [u' Hu']].
    + by destruct (app_eq_nil _ _ Hnil) as [_ ?].
    + apply app_inj_tail in Hu' as [_ Hq]. done.
Qed.

Lemma trim_end_split x :
  ∃ trail, x = trim_end x ++ trail ∧ forallb is_space trail = true.
Proof.
  destruct (trim_start_split (reverse x)) as (lead & Hx & Hlead).
  exists (reverse lead). split; [|by rewrite forallb_reverse].
  unfold trim_end. rewrite <- reverse_app, <- Hx. by rewrite reverse_involutive.
Qed.

Lemma expand_attribute : E (nonce_attribute [h]) = nonce_attribute n.
Proof.
  unfold nonce_attribute.
  rewrite !expand_app, (expand_fixed (lit " nonce=")) by apply hole_not_lit.
  rewrite expand_hole, expand_nil, app_nil_r.
  by rewrite !expand_other by apply not_eq_sym, hole_not_quote.
Qed.

Lemma attribute_sealed :
  hole_after h (nonce_attribute [h]) ∧ hole_before h (nonce_attribute [h])
  ∧ head_clear h (nonce_attribute [h]).
Proof.
  split; [|split].
  - apply (hole_wrapped_after (lit " nonce=") []); [apply hole_not_lit | apply not_elem_of_nil].
  - apply (hole_wrapped_before (lit " nonce=") []); [apply hole_not_lit | apply not_elem_of_nil].
  - cbn. intros Heq. apply (hole_not_lit " "). rewrite <- Heq. by left.
Qed.

Section Callback.
Variable g : jsstr → jsstr.
Hypothesis g_expand : ∀ a, hole_after h a → g (E a) = E (g a).
Hypothesis g_cut : ∀ a, ∃ tail, a = g a ++ tail ∧ forallb blank_or_slash tail = true.

(** The attribute list that the callback works on, with the mark for the
    nonce. *)
Local Abbreviation kept a := (strip_self_closing (g a)).
Local Abbreviation written a :=
  (if negb (includes (lit "nonce=") (kept a))
   then kept a ++ nonce_attribute [h] else kept a).

Lemma kept_sealed a :
  hole_after h a → hole_before h a → head_clear h a →
  hole_after h (g a) ∧ hole_after h (kept a) ∧ hole_before h (kept a)
  ∧ head_clear h (kept a).
Proof.
  intros Ha Hb Hc.
  destruct (g_cut a) as (t1 & Hg & Ht1).
  destruct (strip_split (g a)) as (t2 & Hs & Ht2).
  assert (Hga : hole_after h (g a)).
  { apply (hole_after_cut _ t1); [by apply blank_or_slash_no_quote | by rewrite <- Hg]. }
  assert (Hgb : hole_before h (g a)) by (apply (hole_before_prefix _ t1); by rewrite <- Hg).
  assert (Hgc : head_clear h (g a)) by (apply (head_clear_prefix _ t1); by rewrite <- Hg).
  split; [done|]. split; [|split].
  - apply (hole_after_cut _ t2); [by apply blank_or_slash_no_quote | by rewrite <- Hs].
  - apply (hole_before_prefix _ t2). by rewrite <- Hs.
  - apply (head_clear_prefix _ t2). by rewrite <- Hs.
Qed.

Lemma written_sealed a :
  hole_after h a → hole_before h a → head_clear h a →
  hole_after h (written a) ∧ hole_before h (written a) ∧ head_clear h (written a).
Proof.
  intros Ha Hb Hc.
  destruct (kept_sealed a Ha Hb Hc) as (_ & Hka & Hkb & Hkc).
  destruct attribute_sealed as (Haa & Hab & Hac).
  destruct (negb _); [|done]. split; [|split].
  - by apply hole_after_app.
  - apply hole_before_app; [done | done | by left].
  - destruct (kept a) as [|k0 k]; [exact Hac | exact Hkc].
Qed.

Lemma trim_written_sealed a :
  hole_after h a → hole_before h a → head_clear h a →
  hole_after h (trim (written a)) ∧ hole_before h (trim (written a))
  ∧ head_clear h (trim (written a)).
Proof.
  intros Ha Hb Hc.
  destruct (written_sealed a Ha Hb Hc) as (Hwa & Hwb & Hwc).
  unfold trim.
  destruct (trim_start_split (written a)) as (lead & Hw & _).
  destruct (trim_end_split (trim_start (written a))) as (trail & Ht & Htrail).
  set (T := trim_start (written a)) in *.
  assert (HTa : hole_after h T) by (apply (hole_after_tail lead); by rewrite <- Hw).
  assert (HTb : hole_before h T) by (apply (hole_before_tail lead); by rewrite <- Hw).
  assert (HTc : head_clear h T).
  { unfold T. rewrite trim_start_drop_while. by apply drop_while_space_clear. }
  split; [|split].
  - apply (hole_after_cut _ trail); [by apply space_no_quote | by rewrite <- Ht].
  - apply (hole_before_prefix _ trail). by rewrite <- Ht.
  - apply (head_clear_prefix _ trail). by rewrite <- Ht.
Qed.

Lemma callback_expand a :
  hole_after h a → hole_before h a → head_clear h a →
  link_callback n (g (E a)) = E (link_callback [h] (g a)).
Proof.
  intros Ha Hb Hc.
  destruct (kept_sealed a Ha Hb Hc) as (Hga & Hka & Hkb & Hkc).
  destruct (written_sealed a Ha Hb Hc) as (Hwa & Hwb & Hwc).
  assert (Hts : hole_after h (trim_start (written a))).
  { destruct (trim_start_split (written a)) as (lead & Hl & _).
    apply (hole_after_tail lead). by rewrite <- Hl. }
  unfold link_callback.
  rewrite g_expand, strip_expand, includes_nonce_expand by done.
  rewrite !expand_app, (expand_fixed (lit "<link ")) by apply hole_not_lit.
  rewrite (expand_other GT) by apply not_eq_sym, hole_not_gt. rewrite expand_nil.
  do 2 f_equal.
  assert (Hw : (if negb (includes (lit "nonce=") (kept a))
                then E (kept a) ++ nonce_attribute n else E (kept a))
               = E (written a)).
  { destruct (negb _); [|done]. by rewrite expand_app, expand_attribute. }
  rewrite Hw. unfold trim.
  rewrite trim_start_expand by done.
  by apply trim_end_expand.
Qed.

Lemma callback_sealed a :
  hole_after h a → hole_before h a → head_clear h a →
  hole_after h (link_callback [h] (g a)) ∧ hole_before h (link_callback [h] (g a)).
Proof.
  intros Ha Hb Hc.
  destruct (trim_written_sealed a Ha Hb Hc) as (Hta & Htb & Htc).
  unfold link_callback. fold (kept a). fold (written a).
  assert (Hgt : h ∉ [GT]).
  { intros [Heq | ?%elem_of_nil]%elem_of_cons; [|done]. by apply hole_not_gt. }
  assert (Hyc : head_clear h (trim (written a) ++ [GT])).
  { destruct (trim (written a)) as [|y0 y]; [|exact Htc].
    cbn. apply not_eq_sym, hole_not_gt. }
  split.
  - apply hole_after_app; [apply hole_absent_after, hole_not_lit|].
    apply hole_after_app; [done | by apply hole_absent_after].
  - apply hole_before_app; [apply hole_absent_before, hole_not_lit | | by left].
    apply hole_before_app; [done | by apply hole_absent_before |].
    left. cbn. apply not_eq_sym, hole_not_gt.
Qed.

Local Abbreviation walk_n := (scan linkRegex (λ a _ _, link_callback n (g a))).
Local Abbreviation walk_h := (scan linkRegex (λ a _ _, link_callback [h] (g a))).

Lemma link_walk_before b1 b2 x k : walk_h b1 x k = walk_h b2 x k.
Proof. by apply scan_before_irrelevant. Qed.

Lemma link_walk_head x : head_clear h x → head_clear h (walk_h [] x 0).
Proof.
  destruct x as [|c x]; [done|]. intros Hc. cbn [scan].
  destruct (linkRegex (c :: x)) as [[a [|k]]|]; [| |done].
  - unfold link_callback. cbn. intros Heq. apply (hole_not_lit "<"). rewrite <- Heq. by left.
  - unfold link_callback. cbn. intros Heq. apply (hole_not_lit "<"). rewrite <- Heq. by left.
Qed.

Lemma link_walk_expand m : ∀ x,
  length x ≤ m → hole_after h x → hole_before h x →
  walk_n [] (E x) 0 = E (walk_h [] x 0)
  ∧ hole_after h (walk_h [] x 0) ∧ hole_before h (walk_h [] x 0).
Proof.
  induction m as [|m IH]; intros x Hlen Ha Hb.
  { destruct x; [|simpl in Hlen; lia]. done. }
  destruct x as [|c t]; [done|].
  destruct (decide (c = h)) as [-> | Hc].
  - destruct (hole_after_head t Ha) as [t' ->].
    destruct (IH (DQUOTE :: t')) as (IHe & IHa & IHb);
      [simpl in *; lia | by apply (hole_after_cons h) | by apply (hole_before_cons h)|].
    assert (Hh : linkRegex (h :: DQUOTE :: t') = None).
    { apply linkRegex_needs_token. cbn [link_token lit starts_with].
      apply andb_false_iff. left. apply N.eqb_neq. intros Heq.
      apply (hole_not_lit "<"). rewrite <- Heq. by left. }
    assert (Hq : linkRegex (DQUOTE :: t') = None) by done.
    rewrite (scan_miss _ _ _ _ _ Hh), (link_walk_before _ [] _ 0).
    rewrite (scan_miss _ _ _ _ _ Hq) in *.
    rewrite !expand_hole. split; [|split].
    + rewrite scan_unmatched_prefix.
      * f_equal. rewrite <- IHe. by apply scan_before_irrelevant.
      * intros w1 w2 Hw Hw2. apply linkRegex_needs_token.
        destruct w2 as [|w0 w2]; [done|]. cbn [link_token lit app starts_with].
        apply andb_false_iff. left. apply N.eqb_neq. intros Heq.
        apply n_lt. rewrite Hw. apply elem_of_app. right. rewrite <- Heq. by left.
    + intros u v Huv. destruct u as [|u0 u].
      * injection Huv as <-. by eexists.
      * injection Huv as _ Huv. by apply (IHa u v).
    + intros u v Huv. destruct u as [|u0 u]; [by left|]. right.
      injection Huv as <- Huv.
      destruct (IHb u v Huv) as [-> | [u' ->]].
      * exfalso. injection Huv as Hq' _. symmetry in Hq'. by apply hole_not_quote in Hq'.
      * by exists (h :: u').
  - destruct (linkRegex (c :: t)) as [[a len]|] eqn:Hm.
    + destruct (linkRegex_match _ _ _ Hm) as (blanks & rest & Hx & Hne & Hsp & Hst & Hgt).
      rewrite Hx in Ha, Hb.
      destruct (attributes_sealed blanks a rest Hne Hsp Ha Hb)
        as (Haa & Hab & Hac & Hra & Hrb & Hrc).
      destruct (IH rest) as (IHe & IHa & IHb); [|done|done|].
      { apply (f_equal length) in Hx. rewrite !length_app in Hx. simpl in *. lia. }
      rewrite Hx.
      rewrite (scan_link_element (λ r, link_callback [h] (g r))) by done.
      destruct (callback_sealed a Haa Hab Hac) as (Hca & Hcb).
      split; [|split].
      * rewrite !expand_app, (expand_fixed link_token), (expand_fixed blanks);
          [| intros Hin; apply list_elem_of_In in Hin;
             rewrite forallb_forall in Hsp; specialize (Hsp _ Hin);
             by rewrite hole_not_space in Hsp
           | apply hole_not_lit].
        rewrite (expand_other GT) by apply not_eq_sym, hole_not_gt. rewrite expand_nil.
        rewrite (scan_link_element (λ r, link_callback n (g r)) blanks (E a)); try done.
        -- by rewrite callback_expand, IHe.
        -- destruct a as [|a0 a']; [done|]. cbn [head_clear] in Hac.
           by rewrite expand_other.
        -- by rewrite forallb_not_gt_expand.
      * by apply hole_after_app.
      * apply hole_before_app; [done | done | left]. by apply link_walk_head.
    + destruct (IH t) as (IHe & IHa & IHb);
        [simpl in *; lia | by apply (hole_after_cons c) | by apply (hole_before_cons c)|].
      rewrite (scan_miss _ _ _ _ _ Hm), (link_walk_before _ [] _ 0).
      rewrite expand_other by done.
      rewrite scan_miss.
      2:{ rewrite <- (expand_other c t) by done.
          by apply linkRegex_none_expand. }
      rewrite expand_other by done. split; [|split].
      * f_equal. rewrite <- IHe. by apply scan_before_irrelevant.
      * intros u v Huv. destruct u as [|u0 u]; [by injection Huv as -> _|].
        injection Huv as _ Huv. by apply (IHa u v).
      * intros u v Huv. destruct u as [|u0 u]; [by left|]. right.
        injection Huv as <- Huv.
        destruct (IHb u v Huv) as [-> | [u' ->]].
        -- exists []. cbn [app]. f_equal.
           assert (Ht : ¬ head_clear h t).
           { intros Ht. apply link_walk_head in Ht. rewrite Huv in Ht. by cbn in Ht. }
           destruct t as [|t0 t1]; [done|]. cbn [head_clear] in Ht.
           destruct (decide (t0 = h)) as [-> | Hne']; [|done].
           destruct (Hb [c] t1 eq_refl) as [? | [u' Hu']]; [done|].
           change [c] with ([] ++ [c]) in Hu'.
           by apply app_inj_tail in Hu' as [_ Hq'].
        -- by exists (c :: u').
Qed.
End Callback.
End LinkStep.
End Expand.

Section CopiedNonce.
Variables (h : N) (n : jsstr).
Hypothesis h_big : (65536 <= h)%N.
Hypothesis n_copied : copied_nonce n = true.
Local Abbreviation E := (expand h n).
Implicit Types x src : jsstr.

Lemma copied_tame : tame n = true.
Proof.
  unfold copied_nonce in n_copied.
  by apply andb_true_iff in n_copied as [[[? _]%andb_true_iff _]%andb_true_iff _].
Qed.

Lemma copied_plain : plain_template n = true.
Proof.
  unfold copied_nonce in n_copied.
  by apply andb_true_iff in n_copied as [[[_ ?]%andb_true_iff _]%andb_true_iff _].
Qed.

Lemma copied_no_nonce : includes (lit "nonce=") n = false.
Proof.
  unfold copied_nonce in n_copied.
  apply andb_true_iff in n_copied as [[_ H]%andb_true_iff _].
  by apply negb_true_iff in H.
Qed.

Lemma copied_no_style : ¬ lit "style=" `suffix_of` n.
Proof.
  unfold copied_nonce in n_copied.
  apply andb_true_iff in n_copied as [_ H]. apply negb_true_iff in H.
  by apply ends_with_false.
Qed.

Lemma copied_not_elem (c : N) :
  ((c =? 60) || (c =? GT) || (c =? DQUOTE))%N = true → c ∉ n.
Proof. apply tame_not_elem, copied_tame. Qed.

Lemma copied_not_gt : forallb not_gt n = true.
Proof.
  apply forallb_forall. intros c Hc%list_elem_of_In. unfold not_gt.
  apply negb_true_iff, N.eqb_neq. intros ->. by apply (copied_not_elem GT).
Qed.

(** No tag token starts inside a copy of the nonce. *)
Lemma tag_token_clear tok' : nonce_clear n (60%N :: tok').
Proof.
  intros w y Hw Hsuf. destruct w as [|w0 w]; [done|]. cbn [app starts_with].
  apply andb_false_iff. left. apply N.eqb_neq. intros <-.
  apply (copied_not_elem 60%N); [done|]. apply (suffix_elem _ _ _ Hsuf). by left.
Qed.

Lemma style_attr_token_clear : nonce_clear n style_attr_token.
Proof.
  intros w y Hw Hsuf. apply starts_with_false. intros Hp.
  unfold style_attr_token in Hp.
  assert (Hq : DQUOTE ∉ lit "style=")
    by (apply (bool_decide_unpack _); vm_compute; exact I).
  assert (Hp1 : lit "style=" `prefix_of` w).
  { apply (prefix_stop _ w DQUOTE y Hq). by apply (prefix_app_l _ _ [DQUOTE]). }
  destruct Hp1 as [k ->]. rewrite <- app_assoc in Hp. apply prefix_app_inv in Hp.
  destruct k as [|k0 k].
  - rewrite app_nil_r in Hsuf. by apply copied_no_style.
  - apply prefix_cons_inv_1 in Hp as <-.
    apply (copied_not_elem DQUOTE); [done|]. apply (suffix_elem _ _ _ Hsuf).
    apply elem_of_app. right. by left.
Qed.

Lemma plain_hole : plain_template [h] = true.
Proof. cbn. by destruct (h =? DOLLAR)%N. Qed.

Lemma hole_not_opening (str : string) : h ∉ lit str ++ [DQUOTE].
Proof.
  rewrite elem_of_app. intros [H | H]; [by apply (hole_not_lit h h_big str)|].
  apply elem_of_cons in H as [H | H%elem_of_nil]; [|done].
  by apply (hole_not_quote h h_big).
Qed.

Lemma hole_not_closing (str : string) : h ∉ DQUOTE :: lit str.
Proof.
  intros [H | H]%elem_of_cons; [by apply (hole_not_quote h h_big)|].
  by apply (hole_not_lit h h_big str).
Qed.

Lemma tag_scripts_expand x :
  hole_after h x → hole_before h x →
  tag_scripts n (E x) = E (tag_scripts [h] x).
Proof.
  intros Ha Hb.
  apply (replaceAll_expand h n h_big script_token (lit " nonce=" ++ [DQUOTE]) [DQUOTE]
           ltac:(done) (hole_not_lit h h_big "<script") (hole_not_opening " nonce=")
           (hole_not_closing "")).
  - apply (bool_decide_unpack _). vm_compute. exact I.
  - apply tag_token_clear.
  - apply (plain_script_template n copied_plain).
  - apply (plain_script_template [h] plain_hole).
  - done.
  - done.
Qed.

Lemma tag_styles_expand x :
  hole_after h x → hole_before h x →
  tag_styles n (E x) = E (tag_styles [h] x).
Proof.
  intros Ha Hb.
  apply (replaceAll_expand h n h_big style_token (lit " nonce=" ++ [DQUOTE]) [DQUOTE]
           ltac:(done) (hole_not_lit h h_big "<style") (hole_not_opening " nonce=")
           (hole_not_closing "")).
  - apply (bool_decide_unpack _). vm_compute. exact I.
  - apply tag_token_clear.
  - apply (plain_style_template n copied_plain).
  - apply (plain_style_template [h] plain_hole).
  - done.
  - done.
Qed.

Lemma tag_style_attributes_expand x :
  hole_after h x → hole_before h x →
  tag_style_attributes n (E x) = E (tag_style_attributes [h] x).
Proof.
  intros Ha Hb.
  apply (replaceAll_expand h n h_big style_attr_token (lit "nonce=" ++ [DQUOTE])
           (DQUOTE :: lit " ")
           ltac:(done) (hole_not_opening "style=") (hole_not_opening "nonce=")
           (hole_not_closing " ")).
  - apply (bool_decide_unpack _). vm_compute. exact I.
  - apply style_attr_token_clear.
  - apply (plain_style_attr_template n copied_plain).
  - apply (plain_style_attr_template [h] plain_hole).
  - done.
  - done.
Qed.

Lemma tag_scripts_closed x :
  hole_after h x → hole_before h x →
  hole_after h (tag_scripts [h] x) ∧ hole_before h (tag_scripts [h] x).
Proof.
  intros Ha Hb.
  apply (inserted_closed h h_big script_token (lit " nonce=") x _ ltac:(done)
           (hole_not_lit h h_big "<script") (hole_not_lit h h_big " nonce=")); [|done|done].
  by apply (replaceAll_inserted script_token (nonce_attribute [h]) ltac:(done)
                (plain_script_template [h] plain_hole) (length x)).
Qed.

Lemma tag_styles_closed x :
  hole_after h x → hole_before h x →
  hole_after h (tag_styles [h] x) ∧ hole_before h (tag_styles [h] x).
Proof.
  intros Ha Hb.
  apply (inserted_closed h h_big style_token (lit " nonce=") x _ ltac:(done)
           (hole_not_lit h h_big "<style") (hole_not_lit h h_big " nonce=")); [|done|done].
  by apply (replaceAll_inserted style_token (nonce_attribute [h]) ltac:(done)
                (plain_style_template [h] plain_hole) (length x)).
Qed.

Lemma bundle_replace_links_expand x :
  hole_after h x → hole_before h x →
  bundle_replace_links n (E x) = E (bundle_replace_links [h] x).
Proof.
  intros Ha Hb. rewrite !bundle_replace_links_chop.
  apply (link_walk_expand h n h_big copied_not_gt (copied_not_elem 60%N eq_refl)
           copied_no_nonce chop (chop_expand h n h_big) chop_split (length x) x);
    done.
Qed.

Lemma bundle_replace_links_closed x :
  hole_after h x → hole_before h x →
  hole_after h (bundle_replace_links [h] x) ∧ hole_before h (bundle_replace_links [h] x).
Proof.
  intros Ha Hb. rewrite !bundle_replace_links_chop.
  apply (link_walk_expand h n h_big copied_not_gt (copied_not_elem 60%N eq_refl)
           copied_no_nonce chop (chop_expand h n h_big) chop_split (length x) x);
    done.
Qed.

Lemma replace_links_expand x :
  hole_after h x → hole_before h x →
  replace_links n (E x) = E (replace_links [h] x)
  ∧ hole_after h (replace_links [h] x) ∧ hole_before h (replace_links [h] x).
Proof.
  intros Ha Hb.
  apply (link_walk_expand h n h_big copied_not_gt (copied_not_elem 60%N eq_refl)
           copied_no_nonce (λ a, a) (λ a _, eq_refl) (λ a, ex_intro _ [] (conj (eq_sym (app_nil_r a)) eq_refl))
           (length x) x); done.
Qed.
End CopiedNonce.

(** X18.  The nonce enters the rewritten text by copy only.  Take a mark
    that is no code unit and does not occur in the source.  For every nonce
    that holds no [<], no [>], no double quote and no [$] pattern, does not
    contain [nonce=] and does not end with [style=], the source that
    [generateBundle] writes with that nonce is the source that it writes
    with the mark for nonce, with the nonce written for every mark; the
    same holds for the four tagging steps of [transformIndexHtml].  So the
    text written for two such nonces, the placeholder and a real nonce for
    instance, differs in the copies of the nonce and nowhere else. *)
Theorem nonce_enters_by_copy (h : N) (n src : jsstr) :
  (65536 <= h)%N → h ∉ src → copied_nonce n = true →
  bundle_source n src = expand h n (bundle_source [h] src)
  ∧ tagging_steps n src = expand h n (tagging_steps [h] src).
Proof.
  intros Hh Hsrc Hn.
  assert (Ha0 := hole_absent_after h src Hsrc).
  assert (Hb0 := hole_absent_before h src Hsrc).
  destruct (tag_scripts_closed h Hh src Ha0 Hb0) as [Ha1 Hb1].
  destruct (tag_styles_closed h Hh _ Ha1 Hb1) as [Ha2 Hb2].
  destruct (bundle_replace_links_closed h n Hh Hn _ Ha2 Hb2) as [Ha3 Hb3].
  destruct (replace_links_expand h n Hh Hn _ Ha2 Hb2) as (He3 & Ha3' & Hb3').
  assert (H2 : tag_styles n (tag_scripts n src)
               = expand h n (tag_styles [h] (tag_scripts [h] src))).
  { rewrite <- (expand_fixed h n src Hsrc) at 1.
    rewrite (tag_scripts_expand h n Hh Hn) by done.
    by rewrite (tag_styles_expand h n Hh Hn). }
  split.
  - unfold bundle_source. rewrite H2.
    rewrite (bundle_replace_links_expand h n Hh Hn) by done.
    by rewrite (tag_style_attributes_expand h n Hh Hn).
  - unfold tagging_steps. rewrite H2, He3.
    by rewrite (tag_style_attributes_expand h n Hh Hn).
Qed.

Lemma nonce_enters_by_copy_witness :
  bundle_source (lit "NONCE_PLACEHOLDER") (lit "<link <script/><p style=" ++ [DQUOTE])
  = expand 65536 (lit "NONCE_PLACEHOLDER")
      (bundle_source [65536%N] (lit "<link <script/><p style=" ++ [DQUOTE])).
Proof.
  apply (proj1 (nonce_enters_by_copy 65536 (lit "NONCE_PLACEHOLDER")
                  (lit "<link <script/><p style=" ++ [DQUOTE]) ltac:(done)
                  ltac:(apply (bool_decide_unpack _); vm_compute; exact I) eq_refl)).
Defined.
